(** * micropython-iot: the resilient client link (client.py)

    A shallow embedding of the [Client] class of [client.py]: the raw socket
    send and the line reader, the framed reader, the acknowledged writer with
    its QoS retransmission, and the connection supervisor.  Line numbers are
    those of [client.py].

    The program is a set of cooperating coroutines under a single-threaded
    scheduler: only at an [await] can another coroutine run.  The two
    coroutines that touch nothing but the socket and the clock while they
    run, [_send] and [_readline], are functions of a script: the results of
    the successive [sock.send] / [sock.readline] calls and what
    [utime.ticks_ms()] reads at each timeout check.  A script that ends
    before the coroutine does leaves it [Blocked].  The coroutines that share
    the client's state with others, [_write], [_do_qos], [write] and the ACK
    sender, are transition functions between control points (the tests of
    their polling loops and the lock); what the other coroutines and the
    network do in between is the environment, an input of each transition.
    The classes and functions imported from the package's [__init__.py] are
    not part of [client.py]; they are modelled from the specification and
    marked so. *)

From Stdlib Require Import ZArith Lia Ascii String.
From stdpp Require Import gmap list.

Open Scope Z_scope.

(** ** Bytes, text and the two-digit hexadecimal identifier *)

(** A [bytes] object is the list of its bytes.  A [str] is held as the list
    of the bytes of its UTF-8 encoding, so that [encode()] and, on well-formed
    text, [decode()] do not change the list; its characters are what [len]
    and slicing count. *)
Definition bytes := list ascii.

Definition nl : ascii := "010"%char.

Definition B (s : string) : bytes := list_ascii_of_string s.

(** Text of ASCII characters: every byte is below 128.  Such text has one
    byte for each character and is well-formed UTF-8. *)
Definition is_ascii (b : bytes) : bool :=
  forallb (fun c => (nat_of_ascii c <? 128)%nat) b.

(** In UTF-8 the bytes from 128 to 191 continue a character; every other byte
    starts one. *)
Definition is_cont (c : ascii) : bool :=
  (128 <=? nat_of_ascii c)%nat && (nat_of_ascii c <? 192)%nat.

(** [len(s)] of a [str]: the number of its characters. *)
Definition str_len (s : bytes) : nat :=
  length (List.filter (fun c => negb (is_cont c)) s).

(** The bytes that continue a character, at the head of a list, dropped. *)
Fixpoint skip_cont (s : bytes) : bytes :=
  match s with
  | c :: s' => if is_cont c then skip_cont s' else s
  | [] => []
  end.

(** [s[n:]] of a [str]: [s] without its first [n] characters. *)
Fixpoint str_drop (n : nat) (s : bytes) : bytes :=
  match n, s with
  | S n', _ :: s' => str_drop n' (skip_cont s')
  | _, _ => s
  end.

(** [b.decode()] on the encoding of a text gives the text, the same list.
    On bytes that are not well-formed UTF-8 [decode()] raises
    [UnicodeError]; that case is not embedded, and what is stated below of
    payloads that come over the link is stated of ASCII payloads
    ([is_ascii]), which every decoder accepts. *)
Definition decode (b : bytes) : bytes := b.

(** [buf.endswith('\n')] *)
Definition endswith_nl (b : bytes) : bool := bool_decide (last b = Some nl).

Definition hexdigit (n : Z) : ascii :=
  if n <? 10 then ascii_of_nat (Z.to_nat (48 + n))
  else ascii_of_nat (Z.to_nat (87 + n)).

Fixpoint hexdigits (fuel : nat) (n : Z) : bytes :=
  match fuel with
  | O => []
  | S fuel' =>
      if n <? 16 then [hexdigit n]
      else hexdigits fuel' (n / 16) ++ [hexdigit (n mod 16)]
  end.

(** ['{:02x}'.format(mid)]: lower-case hexadecimal, zero-padded to width 2
    (the sign of a negative number counts in the width). *)
Definition format_02x (mid : Z) : bytes :=
  if mid <? 0 then "-"%char :: hexdigits (S (Z.to_nat (Z.log2 (- mid)))) (- mid)
  else
    let ds := hexdigits (S (Z.to_nat (Z.log2 mid))) mid in
    if (length ds <? 2)%nat then "0"%char :: ds else ds.

Definition hexval (c : ascii) : option Z :=
  let n := Z.of_nat (nat_of_ascii c) in
  if (48 <=? n) && (n <=? 57) then Some (n - 48)
  else if (97 <=? n) && (n <=? 102) then Some (n - 87)
  else if (65 <=? n) && (n <=? 70) then Some (n - 55)
  else None.

(** Exceptions the code raises or lets through.  A bare [raise OSError]
    carries no errno; the socket's own errors carry one. *)
Inductive exn :=
| OSError (errno : option Z)
| ValueError.

(** White space as [int] skips it on either side of a number: space, tab,
    newline, vertical tab, form feed, carriage return. *)
Definition is_space (c : ascii) : bool :=
  let n := Z.of_nat (nat_of_ascii c) in
  ((9 <=? n) && (n <=? 13)) || (n =? 32).

(** [int(line[0:2], 16)].  The slice has two bytes at most.  Two
    hexadecimal digits, which every frame of the protocol starts with, give
    their value; [int] also takes one digit alone, with white space before
    or after it, or with a sign before it (["-7"] is -7).  Everything else
    raises [ValueError]: no digit, a sign or the prefix ["0x"] without a
    digit after it, an underscore, any other byte. *)
Definition int16 (b : bytes) : exn + Z :=
  match b with
  | [h; l] =>
      match hexval h, hexval l with
      | Some x, Some y => inr (16 * x + y)
      | Some x, None => if is_space l then inr x else inl ValueError
      | None, Some y =>
          if is_space h || Ascii.eqb h "+" then inr y
          else if Ascii.eqb h "-" then inr (- y)
          else inl ValueError
      | None, None => inl ValueError
      end
  | [h] =>
      match hexval h with
      | Some x => inr x
      | None => inl ValueError
      end
  | _ => inl ValueError
  end.

(** ** The clock *)

(** [utime.ticks_ms()] is a millisecond counter that wraps around: at time
    [t] it reads [t] modulo the period, 2^30 on the 32-bit ports. *)
Definition ticks_period : Z := 2 ^ 30.

Definition ticks_ms (t : Z) : Z := t mod ticks_period.

(** [utime.ticks_diff(a, b)]: the signed distance from reading [b] to reading
    [a], computed modulo the period, in the range of half a period either
    way. *)
Definition ticks_diff (a b : Z) : Z :=
  (a - b + ticks_period / 2) mod ticks_period - ticks_period / 2.

(** ** Results of coroutines run on a finite script *)

Inductive outcome (A : Type) :=
| Returned (a : A)
| Raised (e : exn)
| Blocked.   (* the script ended while the coroutine was still running *)
Arguments Returned {A} a.
Arguments Raised {A} e.
Arguments Blocked {A}.

(** ** [_send]: the raw send (lines 280-291) *)

(** One call of [self._sock.send(d)] on the non-blocking socket: the socket
    takes as many bytes of [d] as it has room for and returns their number, or
    raises [OSError]. *)
Inductive sock_send :=
| Room (c : nat)
| SendErr (errno : Z).

(** A step of the send script: what [sock.send] does, and what
    [utime.ticks_ms()] reads at the timeout check that follows it. *)
Definition send_step : Type := sock_send * Z.

Record send_result := {
  s_out : outcome unit;     (* how [_send] ended *)
  s_sent : bytes;           (* the bytes the socket took, in order *)
  s_used : nat;             (* script steps consumed = calls of sock.send *)
  s_pauses : nat;           (* number of [sleep_ms(20)] pauses *)
  s_d : bytes;              (* the local [d] at the end *)
  s_ns : nat                (* the local [ns] at the end *)
}.

Definition send_end (o : outcome unit) (sent : bytes) (used : nat) (paused : bool)
    (d : bytes) (ns : nat) : send_result :=
  {| s_out := o; s_sent := sent; s_used := used;
     s_pauses := if paused then 1%nat else 0%nat; s_d := d; s_ns := ns |}.

Definition send_more (sent : bytes) (paused : bool) (r : send_result) : send_result :=
  {| s_out := s_out r;
     s_sent := sent ++ s_sent r;
     s_used := S (s_used r);
     s_pauses := (if paused then S (s_pauses r) else s_pauses r);
     s_d := s_d r; s_ns := s_ns r |}.

(** The [while ns < nts] loop of [_send], from its test, when [d] is a
    [bytes] object or ASCII text, so that [len(d)] and [d[n:]] count bytes
    as [sock.send] does ([_send_str_loop] below is the loop for any text).
    One script step is one pass: the socket call, the pause after a partial
    write, and the timeout check against the clock. *)
Fixpoint _send_loop (to start : Z) (d : bytes) (ns nts : nat)
    (script : list send_step) : send_result :=
  if (ns <? nts)%nat then
    match script with
    | [] => send_end Blocked [] 0 false d ns
    | (SendErr e, _) :: _ =>
        (* n = self._sock.send(d) raises *)
        send_end (Raised (OSError (Some e))) [] 1 false d ns
    | (Room c, now) :: script' =>
        let n := Nat.min c (length d) in              (* n = self._sock.send(d) *)
        let ns' := (ns + n)%nat in                    (* ns += n *)
        let partial := (ns' <? nts)%nat in            (* if ns < nts: *)
        let d' := if partial then drop n d else d in  (*   d = d[n:]; sleep_ms(20) *)
        if ticks_diff now start >? to then            (* if ticks_diff(ticks_ms(), start) > self._to: *)
          send_end (Raised (OSError None)) (take n d) 1 partial d' ns'
        else
          send_more (take n d) partial (_send_loop to start d' ns' nts script')
    end
  else send_end (Returned tt) [] 0 false d ns.

(** [_send(d)] when [d] is a [bytes] object (the keepalive) or ASCII text
    (the ACK lines), for which [len(d)] and [d[n:]] count bytes;
    [start = utime.ticks_ms()] is what the clock reads on entry. *)
Definition _send (to start : Z) (d : bytes) (script : list send_step) : send_result :=
  _send_loop to start d 0 (length d) script.

(** [_send(d)] when [d] is a [str], as the lines of [write] and the identity
    line are: [len(d)] and [d[n:]] count characters, while [sock.send] takes
    and counts bytes of the encoding.  For text with a character of more than
    one byte the two differ; for ASCII text, and for a [bytes] object, this
    is [_send_loop]. *)
Fixpoint _send_str_loop (to start : Z) (d : bytes) (ns nts : nat)
    (script : list send_step) : send_result :=
  if (ns <? nts)%nat then
    match script with
    | [] => send_end Blocked [] 0 false d ns
    | (SendErr e, _) :: _ =>
        send_end (Raised (OSError (Some e))) [] 1 false d ns
    | (Room c, now) :: script' =>
        let n := Nat.min c (length d) in              (* n = self._sock.send(d), in bytes *)
        let ns' := (ns + n)%nat in                    (* ns += n *)
        let partial := (ns' <? nts)%nat in            (* if ns < nts: *)
        let d' := if partial then str_drop n d else d in   (*   d = d[n:], in characters *)
        if ticks_diff now start >? to then
          send_end (Raised (OSError None)) (take n d) 1 partial d' ns'
        else
          send_more (take n d) partial (_send_str_loop to start d' ns' nts script')
    end
  else send_end (Returned tt) [] 0 false d ns.

Definition _send_str (to start : Z) (d : bytes) (script : list send_step) : send_result :=
  _send_str_loop to start d 0 (str_len d) script.     (* nts = len(d), in characters *)

(** ** Collaborators from the package's [__init__.py] *)

(** Modelled from the spec: the [Event] class of [__init__.py] is a
    single-slot event with payload; it holds at most one pending payload,
    [set] fills the slot, [clear] empties it. *)
Definition Event (A : Type) : Type := option A.
Definition ev_set {A} (v : A) (e : Event A) : Event A := Some v.
Definition ev_clear {A} (e : Event A) : Event A := None.
Definition ev_is_set {A} (e : Event A) : bool :=
  match e with Some _ => true | None => false end.
Definition ev_value {A} (e : Event A) : option A := e.

(** Modelled from the spec: the [SetByte] class of [__init__.py] is a mutable
    set of identifiers. *)
Definition sb_add (i : Z) (s : gset Z) : gset Z := {[ i ]} ∪ s.
Definition sb_discard (i : Z) (s : gset Z) : gset Z := s ∖ {[ i ]}.
Definition sb_contains (i : Z) (s : gset Z) : bool := bool_decide (i ∈ s).

(** Modelled from the spec: the generator [gmid] of [__init__.py] yields
    single-byte identifiers in increasing cyclic order, skipping the reserved
    value 0 and wrapping after 255 back to 1.  Its state is the last
    identifier it gave, 0 before the first; [gmid_next] is [next(getmid)]. *)
Definition gmid_next (last : Z) : Z :=
  if (0 <=? last) && (last <? 255) then last + 1 else 1.

(** Modelled from the spec: the duplicate filter [isnew] of [__init__.py]
    keeps a bounded record of the identifiers it accepted most recently and
    answers whether an identifier is new relative to it; the call with -1
    clears the whole record.  The record holds the last [S span]
    identifiers, most recent first. *)
Definition isnew_in (span : nat) (mid : Z) (lst : list Z) : option bool * list Z :=
  if mid =? -1 then (None, [])
  else if bool_decide (mid ∈ lst) then (Some false, lst)
  else (Some true, mid :: take span lst).

(** The size of the record is implementation-defined; nothing below depends
    on this value. *)
Definition isnew_span : nat := 127.

Definition isnew (mid : Z) (lst : list Z) : option bool * list Z :=
  isnew_in isnew_span mid lst.

(** ** The client and its surroundings *)

(** A coroutine handed to [loop.create_task] by the reader. *)
Inductive task :=
| SendAck (mid : Z).

(** The attributes of the [Client] object that the coroutines share, the two
    process-wide collaborators, and what the coroutines do to the outside:
    tasks created on the event loop, bytes taken by the socket, watchdog
    feeds. *)
Record Client := {
  _to : Z;                    (* timeout, ms *)
  _led : option bool;         (* state of the indicator, when one is fitted *)
  _evfail : Event bytes;      (* link-failure event *)
  _evread : Event bytes;      (* inbound-data event *)
  _s_lock : bool;             (* the write lock is held *)
  connects : Z;
  _ok : bool;                 (* set after first successful read *)
  _acks_pend : gset Z;        (* ACKs which are expected to be received *)
  getmid : Z;                 (* state of the identifier generator *)
  isnew_lst : list Z;         (* record of the duplicate filter *)
  created : list task;        (* loop.create_task calls, in order *)
  wire : bytes;               (* everything the socket has taken, in order *)
  wdt : list Z                (* wdt_feed calls, in order *)
}.

Definition _tim_short (st : Client) : Z := _to st / 10.

Definition set_led (v : option bool) (st : Client) : Client :=
  {| _to := _to st; _led := v; _evfail := _evfail st; _evread := _evread st;
     _s_lock := _s_lock st; connects := connects st; _ok := _ok st;
     _acks_pend := _acks_pend st; getmid := getmid st; isnew_lst := isnew_lst st;
     created := created st; wire := wire st; wdt := wdt st |}.

Definition set_evfail (v : Event bytes) (st : Client) : Client :=
  {| _to := _to st; _led := _led st; _evfail := v; _evread := _evread st;
     _s_lock := _s_lock st; connects := connects st; _ok := _ok st;
     _acks_pend := _acks_pend st; getmid := getmid st; isnew_lst := isnew_lst st;
     created := created st; wire := wire st; wdt := wdt st |}.

Definition set_evread (v : Event bytes) (st : Client) : Client :=
  {| _to := _to st; _led := _led st; _evfail := _evfail st; _evread := v;
     _s_lock := _s_lock st; connects := connects st; _ok := _ok st;
     _acks_pend := _acks_pend st; getmid := getmid st; isnew_lst := isnew_lst st;
     created := created st; wire := wire st; wdt := wdt st |}.

Definition set_s_lock (v : bool) (st : Client) : Client :=
  {| _to := _to st; _led := _led st; _evfail := _evfail st; _evread := _evread st;
     _s_lock := v; connects := connects st; _ok := _ok st;
     _acks_pend := _acks_pend st; getmid := getmid st; isnew_lst := isnew_lst st;
     created := created st; wire := wire st; wdt := wdt st |}.

Definition set_connects (v : Z) (st : Client) : Client :=
  {| _to := _to st; _led := _led st; _evfail := _evfail st; _evread := _evread st;
     _s_lock := _s_lock st; connects := v; _ok := _ok st;
     _acks_pend := _acks_pend st; getmid := getmid st; isnew_lst := isnew_lst st;
     created := created st; wire := wire st; wdt := wdt st |}.

Definition set_ok (v : bool) (st : Client) : Client :=
  {| _to := _to st; _led := _led st; _evfail := _evfail st; _evread := _evread st;
     _s_lock := _s_lock st; connects := connects st; _ok := v;
     _acks_pend := _acks_pend st; getmid := getmid st; isnew_lst := isnew_lst st;
     created := created st; wire := wire st; wdt := wdt st |}.

Definition set_acks_pend (v : gset Z) (st : Client) : Client :=
  {| _to := _to st; _led := _led st; _evfail := _evfail st; _evread := _evread st;
     _s_lock := _s_lock st; connects := connects st; _ok := _ok st;
     _acks_pend := v; getmid := getmid st; isnew_lst := isnew_lst st;
     created := created st; wire := wire st; wdt := wdt st |}.

Definition set_getmid (v : Z) (st : Client) : Client :=
  {| _to := _to st; _led := _led st; _evfail := _evfail st; _evread := _evread st;
     _s_lock := _s_lock st; connects := connects st; _ok := _ok st;
     _acks_pend := _acks_pend st; getmid := v; isnew_lst := isnew_lst st;
     created := created st; wire := wire st; wdt := wdt st |}.

Definition set_isnew_lst (v : list Z) (st : Client) : Client :=
  {| _to := _to st; _led := _led st; _evfail := _evfail st; _evread := _evread st;
     _s_lock := _s_lock st; connects := connects st; _ok := _ok st;
     _acks_pend := _acks_pend st; getmid := getmid st; isnew_lst := v;
     created := created st; wire := wire st; wdt := wdt st |}.

Definition create_task (t : task) (st : Client) : Client :=
  {| _to := _to st; _led := _led st; _evfail := _evfail st; _evread := _evread st;
     _s_lock := _s_lock st; connects := connects st; _ok := _ok st;
     _acks_pend := _acks_pend st; getmid := getmid st; isnew_lst := isnew_lst st;
     created := created st ++ [t]; wire := wire st; wdt := wdt st |}.

Definition sock_took (b : bytes) (st : Client) : Client :=
  {| _to := _to st; _led := _led st; _evfail := _evfail st; _evread := _evread st;
     _s_lock := _s_lock st; connects := connects st; _ok := _ok st;
     _acks_pend := _acks_pend st; getmid := getmid st; isnew_lst := isnew_lst st;
     created := created st; wire := wire st ++ b; wdt := wdt st |}.

Definition wdt_feed (secs : Z) (st : Client) : Client :=
  {| _to := _to st; _led := _led st; _evfail := _evfail st; _evread := _evread st;
     _s_lock := _s_lock st; connects := connects st; _ok := _ok st;
     _acks_pend := _acks_pend st; getmid := getmid st; isnew_lst := isnew_lst st;
     created := created st; wire := wire st; wdt := wdt st ++ [secs] |}.

(** The state [__init__] leaves (lines 49-57), before any coroutine runs. *)
Definition new_client (timeout : Z) (led : option bool) : Client :=
  {| _to := timeout; _led := led; _evfail := None; _evread := None;
     _s_lock := false; connects := 0; _ok := false;
     _acks_pend := ∅; getmid := 0; isnew_lst := [];
     created := []; wire := []; wdt := [] |}.

(** ** [_readline]: a line from the non-blocking socket (lines 254-278) *)

(** A step of the read script, one pass of the [while True] loop that gets as
    far as the socket: the reading of [utime.ticks_ms()] when the pass
    begins (taken by the code on entry and when the pass starts by discarding
    a keepalive), what [self._sock.readline()] returns ([None]: nothing
    received; [Some []]: the peer closed the link; otherwise the bytes
    received, up to and including a newline), and the reading of the clock at
    the timeout check. *)
Record read_step := {
  rs_top : Z;
  rs_read : option bytes;
  rs_check : Z
}.

(** The locals of [_readline]. *)
Record rl_local := { rl_line : bytes; rl_start : Z }.

(** Lines 258-267, the head of a pass: a completed line marks the link
    healthy and is returned, unless it is a bare keepalive, which is
    discarded. *)
Definition rl_head (now : Z) (st : Client) (l : rl_local) : Client * (bytes + rl_local) :=
  if endswith_nl (rl_line l) then
    let st := set_ok true st in                       (* self._ok = True *)
    if (1 <? length (rl_line l))%nat then
      (st, inl (rl_line l))                           (* return line *)
    else
      let st := wdt_feed 5 st in                      (* wdt_feed(5) *)
      let l' := {| rl_line := []; rl_start := now |} in   (* line = b''; start = ticks_ms() *)
      let st := match _led st with                    (* self._led(not self._led()) *)
                | Some v => set_led (Some (negb v)) st
                | None => st
                end in
      (st, inr l')
  else (st, inr l).

(** Lines 268-278, the rest of the pass: read, join, check the timeout.  The
    boolean tells whether the pass went through [sleep_ms(100)]. *)
Definition rl_tail (to : Z) (s : read_step) (l : rl_local) : exn + (rl_local * bool) :=
  match rs_read s with
  | Some [] => inl (OSError None)                     (* if d == b'': raise OSError *)
  | d =>
      let '(line, slept) :=
        match d with
        | None => (rl_line l, true)                   (* await asyncio.sleep_ms(100) *)
        | Some d =>
            match rl_line l with
            | [] => (d, false)                        (* line = d *)
            | _ => (rl_line l ++ d, false)            (* line = b''.join((line, d)) *)
            end
        end in
      if ticks_diff (rs_check s) (rl_start l) >? to then inl (OSError None)
      else inr ({| rl_line := line; rl_start := rl_start l |}, slept)
  end.

Record read_result := {
  r_out : outcome bytes;        (* how [_readline] ended *)
  r_st : Client;                (* the client afterwards *)
  r_rest : list read_step;      (* the part of the script not consumed *)
  r_sleeps : nat                (* number of [sleep_ms(100)] pauses *)
}.

Definition read_slept (slept : bool) (r : read_result) : read_result :=
  {| r_out := r_out r; r_st := r_st r; r_rest := r_rest r;
     r_sleeps := if slept then S (r_sleeps r) else r_sleeps r |}.

(** The [while True] loop of [_readline]. *)
Fixpoint _readline_loop (st : Client) (l : rl_local) (script : list read_step) : read_result :=
  match script with
  | [] =>
      match rl_head (rl_start l) st l with
      | (st', inl line) => {| r_out := Returned line; r_st := st'; r_rest := []; r_sleeps := 0 |}
      | (st', inr _) => {| r_out := Blocked; r_st := st'; r_rest := []; r_sleeps := 0 |}
      end
  | s :: script' =>
      match rl_head (rs_top s) st l with
      | (st', inl line) => {| r_out := Returned line; r_st := st'; r_rest := script; r_sleeps := 0 |}
      | (st', inr l') =>
          match rl_tail (_to st') s l' with
          | inl e =>
              (* the pass that raises at its timeout check has paused when it read nothing *)
              {| r_out := Raised e; r_st := st'; r_rest := script';
                 r_sleeps := match rs_read s with None => 1 | Some _ => 0 end |}
          | inr (l'', slept) => read_slept slept (_readline_loop st' l'' script')
          end
      end
  end.

(** [_readline()]: [line = b''], [start = utime.ticks_ms()], then the loop. *)
Definition _readline (st : Client) (script : list read_step) : read_result :=
  let start := match script with s :: _ => rs_top s | [] => 0 end in
  _readline_loop st {| rl_line := []; rl_start := start |} script.

(** ** [_reader]: the framed reader (lines 213-236) *)

(** Lines 219-234: what the reader does with a line that [_readline] returned;
    [c] is the snapshot of [connects] taken when the reader started. *)
Definition reader_frame (c : Z) (line : bytes) (st : Client) : exn + Client :=
  match int16 (take 2 line) with                        (* mid = int(line[0:2], 16) *)
  | inl e => inl e
  | inr mid =>
      if (length line =? 3)%nat then                    (* Got ACK *)
        inr (set_acks_pend (sb_discard mid (_acks_pend st)) st)
      else if ev_is_set (_evread st) then               (* Old message still pending *)
        inr st
      else
        let st := create_task (SendAck mid) st in       (* create_task(self._sendack(mid)) *)
        let st := if mid =? 0                           (* if not mid: isnew(-1) *)
                  then set_isnew_lst (snd (isnew (-1) (isnew_lst st))) st
                  else st in
        let '(new, lst) := isnew mid (isnew_lst st) in  (* if isnew(mid): *)
        let st := set_isnew_lst lst st in
        let st := match new with
                  | Some true => set_evread (ev_set (decode (drop 2 line)) (_evread st)) st
                  | _ => st
                  end in
        let st := if c =? connects st                   (* if c == self.connects: *)
                  then set_connects (connects st + 1) st
                  else st in
        inr st
  end.

(** The [while True] loop of [_reader] inside its [try]; every line returned
    by [_readline] has used up at least one step of the script, which bounds
    the number of passes. *)
Fixpoint _reader_loop (fuel : nat) (c : Z) (st : Client) (script : list read_step)
    : outcome unit * Client :=
  match fuel with
  | O => (Blocked, st)
  | S fuel' =>
      let r := _readline st script in
      match r_out r with
      | Returned line =>
          match reader_frame c line (r_st r) with
          | inr st' => _reader_loop fuel' c st' (r_rest r)
          | inl (OSError _) =>                          (* except OSError: *)
              (Returned tt, set_evfail (ev_set (B "reader fail") (_evfail (r_st r))) (r_st r))
          | inl e => (Raised e, r_st r)
          end
      | Raised (OSError _) =>                           (* except OSError: *)
          (Returned tt, set_evfail (ev_set (B "reader fail") (_evfail (r_st r))) (r_st r))
      | Raised e => (Raised e, r_st r)
      | Blocked => (Blocked, r_st r)
      end
  end.

Definition _reader (st : Client) (script : list read_step) : outcome unit * Client :=
  let c := connects st in                               (* c = self.connects *)
  let st := set_evread (ev_clear (_evread st)) st in    (* self._evread.clear() *)
  _reader_loop (S (length script)) c st script.

(** ** [readline]: the application's read (lines 70-74) *)

Definition readline (st : Client) : outcome bytes * Client :=
  match ev_value (_evread st) with
  | None => (Blocked, st)                               (* await self._evread *)
  | Some d => (Returned d, set_evread (ev_clear (_evread st)) st)
  end.

(** ** Sending under the write lock *)

(** What a coroutine does while it runs: pauses of the given length, and calls
    of the raw send with the given line. *)
Inductive action :=
| Sleep (ms : Z)
| RawSend (line : bytes).

(** How a transition of a coroutine ends: at one of its control points, or
    with the coroutine returning or raising. *)
Inductive next (PC : Type) :=
| At (pc : PC)
| Ret
| Exc (e : exn).
Arguments At {PC} pc.
Arguments Ret {PC}.
Arguments Exc {PC} e.

(** The input of a sending transition: what the clock reads when [_send] is
    entered and the script the socket follows during it. *)
Record send_input := { si_start : Z; si_script : list send_step }.

(** Control points of [async with self._s_lock: await self._send(line)]:
    waiting for the lock, or inside [_send] with the lock held, at the test of
    its loop with the locals [d], [ns], [start]. *)
Inductive lock_pc :=
| AtLock
| InSend (d : bytes) (ns : nat) (start : Z).

(** [_send(line)] entered or resumed under the lock, with the line counted
    in bytes: this is [_send] for the keepalive, for the ACK lines, and for
    the lines of [write] when the application's text is ASCII.  (For other
    text [_send] counts characters, see [_send_str]; what is stated below of
    the bytes on the wire is stated of ASCII lines.) *)
Definition run_send (line : bytes) (inp : send_input) (d : bytes) (ns : nat) (start : Z)
    (st : Client) : Client * next lock_pc :=
  let r := _send_loop (_to st) start d ns (length line) (si_script inp) in
  let st := sock_took (s_sent r) st in
  match s_out r with
  | Returned _ => (set_s_lock false st, Ret)
  | Raised e => (set_s_lock false st, Exc e)
  | Blocked => (st, At (InSend (s_d r) (s_ns r) start))
  end.

(** Modelled from the spec: the [Lock] class of [__init__.py] is a
    mutual-exclusion lock; a coroutine that finds it held pauses (100 ms for
    [_s_lock]) and tries again, and leaving the [async with] block releases
    it, also when the block raises. *)
Definition locked_send (line : bytes) (inp : send_input) (st : Client) (p : lock_pc)
    : Client * next lock_pc * list action :=
  match p with
  | AtLock =>
      if _s_lock st then (st, At AtLock, [Sleep 100])
      else (run_send line inp line 0%nat (si_start inp) (set_s_lock true st), [RawSend line])
  | InSend d ns start => (run_send line inp d ns start st, [])
  end.

(** [_sendack(mid)] (lines 238-240), a task of its own; an error ends it. *)
Definition _sendack (mid : Z) (inp : send_input) (st : Client) (p : lock_pc)
    : Client * next lock_pc * list action :=
  locked_send (format_02x mid ++ [nl]) inp st p.

(** ** [_write]: the guarded send (lines 103-120) *)

Inductive write_pc :=
| WaitUp                    (* line 108: while not self._ok *)
| Sending (p : lock_pc)     (* lines 111-112: async with self._s_lock: await self._send(line) *)
| WaitDown.                 (* line 119: while self._ok *)

(** One transition of [_write(line)], from a control point to the next. *)
Definition _write (line : bytes) (inp : send_input) (st : Client) (pc : write_pc)
    : Client * next write_pc * list action :=
  match pc with
  | WaitUp =>
      if _ok st then (st, At (Sending AtLock), [])
      else (st, At WaitUp, [Sleep (_tim_short st)])     (* await asyncio.sleep_ms(tshort) *)
  | Sending p =>
      match locked_send line inp st p with
      | (st', At p', acts) => (st', At (Sending p'), acts)
      | (st', Ret, acts) => (st', Ret, acts)             (* return *)
      | (st', Exc (OSError _), acts) =>                  (* except OSError: pass *)
          (set_evfail (ev_set (B "writer fail") (_evfail st')) st', At WaitDown, acts)
      | (st', Exc e, acts) => (st', Exc e, acts)
      end
  | WaitDown =>
      if _ok st then (st, At WaitDown, [Sleep (_tim_short st)])
      else (st, At WaitUp, [])                           (* back to while True *)
  end.

(** ** [_do_qos]: retransmission until the ACK (lines 124-135) *)

Definition nms100 : nat := 10.   (* Hundreds of ms to wait for ACK *)

Inductive qos_pc :=
| QWaitUp                   (* line 127: while not self._ok *)
| QPoll (i : nat)           (* line 130: in sleep_ms(100), pass i of the for loop *)
| QWrite (pc : write_pc).   (* line 134: in await self._write(line) *)

(** One transition of [_do_qos(mid, line)]. *)
Definition _do_qos (mid : Z) (line : bytes) (inp : send_input) (st : Client) (pc : qos_pc)
    : Client * next qos_pc * list action :=
  match pc with
  | QWaitUp =>
      if _ok st then (st, At (QPoll 0), [Sleep 100])     (* for _ in range(nms100): sleep_ms(100) *)
      else (st, At QWaitUp, [Sleep (_tim_short st)])
  | QPoll i =>
      if negb (sb_contains mid (_acks_pend st)) then     (* if mid not in self._acks_pend: *)
        (st, Ret, [])                                    (*   return  # ACK was received *)
      else if (S i <? nms100)%nat then
        (st, At (QPoll (S i)), [Sleep 100])
      else if _ok st then (st, At (QWrite WaitUp), [])   (* if self._ok: await self._write(line) *)
      else (st, At QWaitUp, [])
  | QWrite p =>
      match _write line inp st p with
      | (st', At p', acts) => (st', At (QWrite p'), acts)
      | (st', Ret, acts) => (st', At QWaitUp, acts)      (* back to while True *)
      | (st', Exc e, acts) => (st', Exc e, acts)
      end
  end.

(** ** [write]: the application's send (lines 76-84) *)

(** Control points of a call of [write]. *)
Inductive wpc :=
| InWrite (pc : write_pc)   (* line 82: in await self._write(buf) *)
| InQos (pc : qos_pc)       (* line 84: in await self._do_qos(mid, buf) *)
| W_returned                (* write has returned to its caller *)
| W_raised (e : exn).       (* write has raised e to its caller *)

(** A call of [write]: its locals [qos], [mid] and [buf] (the serialized
    line, once built), and where it is. *)
Record wtask := { w_qos : bool; w_mid : Z; w_line : bytes; w_pc : wpc }.

Definition at_pc (pc : wpc) (t : wtask) : wtask :=
  {| w_qos := w_qos t; w_mid := w_mid t; w_line := w_line t; w_pc := pc |}.

(** Lines 78-82: [write] up to its call of [_write]. *)
Definition write (buf : bytes) (qos : bool) (st : Client) : Client * wtask :=
  let fstr := if endswith_nl buf                        (* '{:02x}{}' or '{:02x}{}\n' *)
              then fun mid buf => format_02x mid ++ buf
              else fun mid buf => format_02x mid ++ buf ++ [nl] in
  let mid := gmid_next (getmid st) in                   (* mid = next(getmid) *)
  let st := set_getmid mid st in
  let st := set_acks_pend (sb_add mid (_acks_pend st)) st in   (* self._acks_pend.add(mid) *)
  let buf := fstr mid buf in                            (* buf = fstr.format(mid, buf) *)
  (st, {| w_qos := qos; w_mid := mid; w_line := buf; w_pc := InWrite WaitUp |}).

(** One transition of a call of [write] after that, lines 82-84. *)
Definition wstep (inp : send_input) (st : Client) (t : wtask) : Client * wtask * list action :=
  match w_pc t with
  | InWrite p =>
      match _write (w_line t) inp st p with             (* await self._write(buf) *)
      | (st', At p', acts) => (st', at_pc (InWrite p') t, acts)
      | (st', Ret, acts) =>                             (* if qos: await self._do_qos(mid, buf) *)
          (st', at_pc (if w_qos t then InQos QWaitUp else W_returned) t, acts)
      | (st', Exc e, acts) => (st', at_pc (W_raised e) t, acts)
      end
  | InQos p =>
      match _do_qos (w_mid t) (w_line t) inp st p with
      | (st', At p', acts) => (st', at_pc (InQos p') t, acts)
      | (st', Ret, acts) => (st', at_pc W_returned t, acts)
      | (st', Exc e, acts) => (st', at_pc (W_raised e) t, acts)
      end
  | W_returned | W_raised _ => (st, t, [])
  end.

(** A call of [write] running in its environment.  Before each of its
    transitions the other coroutines may have changed the client in any way:
    a turn is that change together with the input of the transition. *)
Record wturn := { w_env : Client -> Client; w_inp : send_input }.

Fixpoint wrun (turns : list wturn) (st : Client) (t : wtask) : Client * wtask * list action :=
  match turns with
  | [] => (st, t, [])
  | u :: turns' =>
      let '(st1, t1, a1) := wstep (w_inp u) (w_env u st) t in
      let '(st2, t2, a2) := wrun turns' st1 t1 in
      (st2, t2, a1 ++ a2)
  end.

(** The client as the call finds it at each of its transitions. *)
Fixpoint wseen (turns : list wturn) (st : Client) (t : wtask) : list Client :=
  match turns with
  | [] => []
  | u :: turns' =>
      let '(st1, t1, _) := wstep (w_inp u) (w_env u st) t in
      w_env u st :: wseen turns' st1 t1
  end.

(** ** [_run]: the connection supervisor (lines 152-211) *)

(** What is fixed when the client is built: the identity line and the
    connect-state callback, and what the two hooks [bad_wifi] and
    [bad_server] do when called; as written they raise [OSError], a subclass
    may make them return. *)
Record config := {
  _my_id : bytes;
  _concb : bool;                 (* a callback was given *)
  bad_wifi : exn + unit;
  bad_server : exn + unit
}.

Definition default_hook : exn + unit := inl (OSError None).

(** What the supervisor does to the outside, in order. *)
Inductive sup_action :=
| CallBadWifi
| CallBadServer
| NewSocket
| CreateReader
| CreateKeepalive
| Concb (up : bool)
| CancelTasks
| CloseSocket
| Disconnect
| Pause (ms : Z).

(** What happens during one pass of the supervisor's loop: whether
    [getaddrinfo] and [connect] raise (with which errno), the send of the
    identity line, the reason with which the link-failure event fires
    while the supervisor waits ([None]: it does not fire), and at how many
    tests of line 209 the WiFi interface still reports connected after
    [disconnect()] before it reports disconnected. *)
Record attempt := {
  at_resolve : option Z;
  at_connect : option Z;
  at_send : send_input;
  at_fail : option bytes;
  at_linger : nat
}.

(** The [try] block, lines 173-183. *)
Definition try_connect (cfg : config) (a : attempt) (st : Client)
    : outcome unit * Client * list sup_action :=
  match at_resolve a with
  | Some e => (Raised (OSError (Some e)), st, [])       (* socket.getaddrinfo *)
  | None =>
      match at_connect a with
      | Some e => (Raised (OSError (Some e)), st, [])   (* self._sock.connect(serv) *)
      | None =>
          (* create_task(_reader); sleep_ms(50); await self._send(self._my_id) *)
          let r := _send_str (_to st) (si_start (at_send a)) (_my_id cfg) (si_script (at_send a)) in
          (s_out r, sock_took (s_sent r) st, [CreateReader; Pause 50])
      end
  end.

(** Lines 209-211, [while s.isconnected(): await asyncio.sleep(1); wdt_feed(5)],
    when [n] tests find the interface still connected. *)
Fixpoint wait_down (n : nat) (st : Client) : Client :=
  match n with
  | O => st
  | S n' => wait_down n' (wdt_feed 5 st)
  end.

(** The [finally] block, lines 204-211, apart from [init = False]: close the
    socket, disconnect, feed the watchdog, pause for twice the timeout, and
    then wait, a second at a time, until the interface reports disconnected;
    [linger] is the number of tests that find it still connected. *)
Definition teardown (linger : nat) (st : Client) : Client * list sup_action :=
  let st' := wdt_feed ((_to st * 4) / 1000) st in       (* wdt_feed((self._to * 4) // 1000) *)
  (wait_down linger st',
   [CloseSocket; Disconnect; Pause (_to st * 2)] ++ replicate linger (Pause 1000)).

(** One pass of the [while True] loop, lines 166-211, from the point where
    the WiFi interface reports connected (line 168).  [Returned] means the
    pass ended and the loop goes on; [Blocked], that the supervisor is still
    in it, waiting for the link-failure event or inside [_send]. *)
Definition run_pass (cfg : config) (init : bool) (a : attempt) (st : Client)
    : outcome unit * Client * list sup_action :=
  let st := set_evfail (ev_clear (_evfail st)) st in    (* self._evfail.clear() *)
  let '(o, st, acts) := try_connect cfg a st in
  let acts := NewSocket :: acts in
  match o with
  | Blocked => (Blocked, st, acts)
  | Raised (OSError _) =>                               (* except OSError: *)
      if init then                                      (*   if init: await self.bad_server() *)
        match bad_server cfg with
        | inl e =>
            let '(st, fin) := teardown (at_linger a) st in
            (Raised e, st, acts ++ [CallBadServer] ++ fin)
        | inr _ =>
            let '(st, fin) := teardown (at_linger a) st in
            (Returned tt, st, acts ++ [CallBadServer] ++ fin)
        end
      else
        let '(st, fin) := teardown (at_linger a) st in
        (Returned tt, st, acts ++ fin)
  | Raised e =>
      let '(st, fin) := teardown (at_linger a) st in
      (Raised e, st, acts ++ fin)
  | Returned _ =>                                       (* else: *)
      let acts := acts ++ [CreateKeepalive] ++ (if _concb cfg then [Concb true] else []) in
      match at_fail a with
      | None => (Blocked, st, acts)                     (* await self._evfail *)
      | Some reason =>
          let st := set_evfail (ev_set reason (_evfail st)) st in
          let st := set_ok false st in                  (* self._ok = False *)
          let st := wdt_feed 10 st in
          let acts := acts ++ [CancelTasks; Pause 0] ++ (if _concb cfg then [Concb false] else []) in
          let '(st, fin) := teardown (at_linger a) st in
          (Returned tt, st, acts ++ fin)
      end
  end.

(** The loop of [_run] from line 164 on; [init] is the local of that name. *)
Fixpoint _run_loop (cfg : config) (init : bool) (st : Client) (attempts : list attempt)
    : outcome unit * Client * list sup_action :=
  match attempts with
  | [] => (Blocked, st, [])
  | a :: rest =>
      match run_pass cfg init a st with
      | (Returned _, st', acts) =>
          let '(o, st'', acts') := _run_loop cfg false st' rest in   (* finally: init = False *)
          (o, st'', acts ++ acts')
      | r => r
      end
  end.

(** [_run]: the four one-second polls of the interface (lines 158-163), then
    the loop with [init = True]. *)
Definition _run (cfg : config) (wifi : list bool) (st : Client) (attempts : list attempt)
    : outcome unit * Client * list sup_action :=
  if existsb id (take 4 wifi) then _run_loop cfg true st attempts
  else
    match bad_wifi cfg with
    | inl e => (Raised e, st, [CallBadWifi])
    | inr _ =>
        let '(o, st', acts) := _run_loop cfg true st attempts in
        (o, st', CallBadWifi :: acts)
    end.

(** ** The writers and the reader together *)

(** The pending-ACK set is touched by [write] and by the reader only.  The
    system below runs any number of calls of [write] against the lines the
    reader handles; everything else that runs (the ACK senders, the keepalive
    task, the supervisor, [_readline], the application's [readline]) is a
    change of the client that leaves the pending-ACK set and the identifier
    generator as they are. *)
Inductive sys_event :=
| EWrite (buf : bytes) (qos : bool)       (* the application calls write *)
| EWriter (i : nat) (inp : send_input)    (* the scheduler resumes call number i *)
| EFrame (c : Z) (line : bytes)           (* _readline returns line to the reader *)
| EOther (f : Client -> Client).          (* any other coroutine runs *)

(** What is recorded of a run: registrations, actions of the calls of
    [write], lines handled by the reader. *)
Inductive label :=
| LWrite (i : nat) (mid : Z) (line : bytes)   (* call number i of write registered mid *)
| LAct (i : nat) (mid : Z) (a : action)       (* call number i, with identifier mid, did a *)
| LLine (line : bytes).                       (* the reader handled line *)

(** The client, the calls of [write] so far, and the record of the run, most
    recent first. *)
Record sys := { sy_cl : Client; sy_tasks : list wtask; sy_trace : list label }.

Definition sys_step (e : sys_event) (s : sys) : sys :=
  match e with
  | EWrite buf qos =>
      let '(st, t) := write buf qos (sy_cl s) in
      {| sy_cl := st; sy_tasks := sy_tasks s ++ [t];
         sy_trace := LWrite (length (sy_tasks s)) (w_mid t) (w_line t) :: sy_trace s |}
  | EWriter i inp =>
      match sy_tasks s !! i with
      | None => s
      | Some t =>
          let '(st, t', acts) := wstep inp (sy_cl s) t in
          {| sy_cl := st; sy_tasks := <[ i := t' ]> (sy_tasks s);
             sy_trace := rev (map (LAct i (w_mid t)) acts) ++ sy_trace s |}
      end
  | EFrame c line =>
      match reader_frame c line (sy_cl s) with
      | inl _ => s
      | inr st =>
          {| sy_cl := st; sy_tasks := sy_tasks s; sy_trace := LLine line :: sy_trace s |}
      end
  | EOther f =>
      let st := f (sy_cl s) in
      let st := set_getmid (getmid (sy_cl s)) (set_acks_pend (_acks_pend (sy_cl s)) st) in
      {| sy_cl := st; sy_tasks := sy_tasks s; sy_trace := sy_trace s |}
  end.

Fixpoint sys_run (events : list sys_event) (s : sys) : sys :=
  match events with
  | [] => s
  | e :: events' => sys_run events' (sys_step e s)
  end.

(** The system at the start: the pending-ACK set empty, as [__init__] leaves
    it, and no call of [write] yet. *)
Definition sys_init (st : Client) : sys :=
  {| sy_cl := set_acks_pend ∅ st; sy_tasks := []; sy_trace := [] |}.

(** A 3-byte line whose two hexadecimal digits decode to [mid]. *)
Definition is_ack_for (mid : Z) (line : bytes) : bool :=
  (length line =? 3)%nat &&
  match int16 (take 2 line) with inr m => m =? mid | inl _ => false end.

(** Whether, in a record (most recent first), [mid] was registered by a call
    of [write] and no ACK line for it was handled since. *)
Fixpoint outstanding (mid : Z) (tr : list label) : bool :=
  match tr with
  | [] => false
  | LWrite _ m _ :: tr' => if m =? mid then true else outstanding mid tr'
  | LLine line :: tr' => if is_ack_for mid line then false else outstanding mid tr'
  | LAct _ _ _ :: tr' => outstanding mid tr'
  end.

(** Whether a call of the raw send for a line of [mid] is on record. *)
Definition transmitted (mid : Z) (tr : list label) : bool :=
  existsb (fun l => match l with LAct _ m (RawSend _) => m =? mid | _ => false end) tr.

(** ** Definitions used by the statements *)

(** The two digits of [format_02x m] are hexadecimal digits of the right
    value, and neither is a newline. *)
Definition hex_ok (m : Z) : bool :=
  match format_02x m with
  | [a; b] =>
      bool_decide (hexval a = Some (m / 16)) && bool_decide (hexval b = Some (m mod 16))
      && negb (Ascii.eqb a nl) && negb (Ascii.eqb b nl)
  | _ => false
  end.

(** A step of a send script at which the socket takes bytes and after which
    the timeout check finds the clock within the timeout. *)
Definition send_step_ok (to start : Z) (s : send_step) : bool :=
  match s with
  | (Room _, now) => negb (ticks_diff now start >? to)
  | (SendErr _, _) => false
  end.

(** A step of a send script at which the socket takes bytes and after which
    the timeout check finds the timeout exceeded. *)
Definition send_step_late (to start : Z) (s : send_step) : bool :=
  match s with
  | (Room _, now) => ticks_diff now start >? to
  | (SendErr _, _) => false
  end.

(** A read that brings no newline: nothing, or bytes without one. *)
Definition read_no_nl (s : read_step) : Prop :=
  match rs_read s with
  | None => True
  | Some d => d <> [] /\ nl ∉ d
  end.

(** The reader handling the given lines one after the other, nothing else
    running in between. *)
Definition frames (c : Z) (lines : list bytes) (st : Client) : Client :=
  fold_left (fun st line => match reader_frame c line st with
                            | inr st' => st'
                            | inl _ => st
                            end) lines st.

(** How often the supervisor called [bad_server]. *)
Definition is_bad_server (a : sup_action) : bool :=
  match a with CallBadServer => true | _ => false end.

Definition bad_server_calls (acts : list sup_action) : nat :=
  length (filter (fun a => is_bad_server a = true) acts).

(** Whether the [try] block of a pass ends in an [OSError]. *)
Definition try_fails (cfg : config) (a : attempt) (st : Client) : bool :=
  match (try_connect cfg a (set_evfail (ev_clear (_evfail st)) st)).1.1 with
  | Raised (OSError _) => true
  | _ => false
  end.

(** The client after the changes of the environment alone. *)
Definition wenvs (turns : list wturn) (st : Client) : Client :=
  fold_left (fun s u => w_env u s) turns st.

(** The identifier is in the pending-ACK set of the client. *)
Definition pending (mid : Z) (st : Client) : bool := sb_contains mid (_acks_pend st).

(** The call is in a poll of [_do_qos]. *)
Definition is_poll (pc : wpc) : bool :=
  match pc with InQos (QPoll _) => true | _ => false end.

(** In a record (most recent first), every call of the raw send by a call of
    [write] comes after the registration of that call's identifier, and
    carries the line built then. *)
Fixpoint sends_registered (tr : list label) : Prop :=
  match tr with
  | [] => True
  | LAct i mid (RawSend line) :: tr' => LWrite i mid line ∈ tr' /\ sends_registered tr'
  | _ :: tr' => sends_registered tr'
  end.

(** No ACK line for [mid] in a stretch of a record. *)
Definition no_ack_in (mid : Z) (tr : list label) : Prop :=
  forall line, LLine line ∈ tr -> is_ack_for mid line = false.

(** No registration of [mid] in a stretch of a record. *)
Definition no_write_in (mid : Z) (tr : list label) : Prop :=
  forall i line, LWrite i mid line ∉ tr.

(** In a record (most recent first), an ACK line for [mid] was handled after
    call number [i] of [write] registered [mid]. *)
Definition acked_after (i : nat) (mid : Z) (tr : list label) : Prop :=
  exists tr1 ack tr2 line,
    tr = tr1 ++ LLine ack :: tr2 /\ is_ack_for mid ack = true /\ LWrite i mid line ∈ tr2.

(** What holds of the system at all times. *)
Definition sys_inv (s : sys) : Prop :=
  (forall mid, pending mid (sy_cl s) = outstanding mid (sy_trace s)) /\
  (forall i t, sy_tasks s !! i = Some t -> LWrite i (w_mid t) (w_line t) ∈ sy_trace s) /\
  sends_registered (sy_trace s) /\
  (forall i t, sy_tasks s !! i = Some t -> w_qos t = true -> w_pc t = W_returned ->
     acked_after i (w_mid t) (sy_trace s)) /\
  (forall i t, sy_tasks s !! i = Some t -> forall e, w_pc t <> W_raised e).

(** ** [__init__], [bad_wifi], [bad_server] (lines 28-58, 93-99) *)

Definition _tim_ka (st : Client) : Z := _to st / 2.   (* Keepalive interval *)

(** What [__init__] fixes and the state it leaves: the identity line gets a
    newline unless it ends with one (line 32); the hooks are the ones of the
    class, which raise [OSError] (lines 93-99); [connected_cb] tells whether
    a callback was given. *)
Definition __init__ (my_id : bytes) (timeout : Z) (connected_cb : bool) (led : option bool)
    : config * Client :=
  ({| _my_id := if endswith_nl my_id then my_id else my_id ++ [nl];
      _concb := connected_cb;
      bad_wifi := inl (OSError None);
      bad_server := inl (OSError None) |},
   new_client timeout led).

(** ** [status] and [__iter__]: the state of the link (lines 61-68) *)

Definition status (st : Client) : bool := _ok st.

(** One transition of [__iter__] (which is [__await__]): the test of its
    loop, and the pause when the link is not up. *)
Definition __iter__ (st : Client) : next unit * list action :=
  if negb (_ok st) then (At tt, [Sleep 500])            (* yield from asyncio.sleep_ms(500) *)
  else (Ret, []).

(** ** [_keepalive]: the keepalive sender (lines 242-249) *)

Inductive ka_pc :=
| KaSleep                   (* line 245: await asyncio.sleep_ms(self._tim_ka) *)
| KaSend (p : lock_pc).     (* lines 246-247: async with self._s_lock: await self._send(b'\n') *)

(** One transition of [_keepalive()]. *)
Definition _keepalive (inp : send_input) (st : Client) (pc : ka_pc)
    : Client * next ka_pc * list action :=
  match pc with
  | KaSleep => (st, At (KaSend AtLock), [Sleep (_tim_ka st)])
  | KaSend p =>
      match locked_send [nl] inp st p with
      | (st', At p', acts) => (st', At (KaSend p'), acts)
      | (st', Ret, acts) => (st', At KaSleep, acts)      (* back to while True *)
      | (st', Exc (OSError _), acts) =>                  (* except OSError: *)
          (set_evfail (ev_set (B "keepalive fail") (_evfail st')) st', Ret, acts)
      | (st', Exc e, acts) => (st', Exc e, acts)
      end
  end.

(** The keepalive task running in its environment, as [wrun] for a call of
    [write]; once it has ended it stays so. *)
Fixpoint krun (turns : list wturn) (st : Client) (pc : next ka_pc)
    : Client * next ka_pc * list action :=
  match turns, pc with
  | u :: turns', At p =>
      let '(st1, pc1, a1) := _keepalive (w_inp u) (w_env u st) p in
      let '(st2, pc2, a2) := krun turns' st1 pc1 in
      (st2, pc2, a1 ++ a2)
  | _, _ => (st, pc, [])
  end.

(** ** [_connect]: an attempt to connect to WiFi (lines 138-150) *)

(** What the WiFi interface and the clock answer during [_connect]: whether
    [s.status()] is [STAT_CONNECTING] at each test of line 142, the reading of
    [utime.ticks_ms()] at line 145, and at each test of line 148 what
    [s.isconnected()] returns and what the clock reads. *)
Record wifi_script := {
  ws_status : list bool;
  ws_t : Z;
  ws_poll : list (bool * Z)
}.

(** Lines 142-144: [while s.status() == network.STAT_CONNECTING]. *)
Fixpoint connect_wait (status : list bool) (st : Client) : outcome unit * Client * nat :=
  match status with
  | [] => (Blocked, st, 0%nat)
  | true :: status' =>
      let '(o, st', n) := connect_wait status' (wdt_feed 5 st) in   (* sleep(1); wdt_feed(5) *)
      (o, st', S n)
  | false :: _ => (Returned tt, st, 0%nat)
  end.

(** Lines 148-150: [while s.isconnected() and ticks_diff(ticks_ms(), t) < 2 * self._to]. *)
Fixpoint connect_stable (to t : Z) (poll : list (bool * Z)) (st : Client)
    : outcome unit * Client * nat :=
  match poll with
  | [] => (Blocked, st, 0%nat)
  | (up, now) :: poll' =>
      if up && (ticks_diff now t <? 2 * to) then
        let '(o, st', n) := connect_stable to t poll' (wdt_feed 5 st) in   (* sleep(1); wdt_feed(5) *)
        (o, st', S n)
      else (Returned tt, st, 0%nat)
  end.

(** [_connect(s)]; with the result, the number of one-second pauses in each
    of the two loops. *)
Definition _connect (w : wifi_script) (st : Client) : outcome unit * Client * (nat * nat) :=
  match connect_wait (ws_status w) st with
  | (Returned _, st1, n1) =>
      let '(o, st2, n2) := connect_stable (_to st1) (ws_t w) (ws_poll w) st1 in
      (o, st2, (n1, n2))
  | (o, st1, n1) => (o, st1, (n1, 0%nat))
  end.

(** ** Several senders and the write lock *)

(** [async with self._s_lock: await self._send(line)] is how [_write],
    [_sendack] and [_keepalive] send (lines 111-112, 239-240, 246-247).  A
    sender is such a block with its line: where it is, or how it ended. *)
Definition sender : Type := bytes * next lock_pc.

(** The scheduler resumes sender number [i]. *)
Definition senders_step (i : nat) (inp : send_input) (s : Client * list sender)
    : Client * list sender :=
  match s.2 !! i with
  | Some (line, At p) =>
      let '(st', n, _) := locked_send line inp s.1 p in
      (st', <[ i := (line, n) ]> s.2)
  | _ => s
  end.

Fixpoint senders_run (sched : list (nat * send_input)) (s : Client * list sender)
    : Client * list sender :=
  match sched with
  | [] => s
  | (i, inp) :: sched' => senders_run sched' (senders_step i inp s)
  end.

(** ** Further definitions used by the statements *)

(** The lines a coroutine handed to the raw send. *)
Definition raw_sends (acts : list action) : list bytes :=
  omap (fun a => match a with RawSend l => Some l | Sleep _ => None end) acts.

(** The pauses of a coroutine, in order. *)
Definition sleeps (acts : list action) : list Z :=
  omap (fun a => match a with Sleep ms => Some ms | RawSend _ => None end) acts.

(** Every call of the raw send in a list of actions comes after a pause of
    [tk] ms that no other call of the raw send follows; [slept] tells whether
    there was such a pause before the list. *)
Fixpoint spaced (tk : Z) (slept : bool) (acts : list action) : bool :=
  match acts with
  | [] => true
  | Sleep ms :: acts' => spaced tk (slept || (ms =? tk)) acts'
  | RawSend _ :: acts' => slept && spaced tk false acts'
  end.

(** The calls of the connect-state callback, in order. *)
Definition concb_calls (acts : list sup_action) : list bool :=
  omap (fun a => match a with Concb up => Some up | _ => None end) acts.

(** What a read script brings, joined. *)
Definition joined (script : list read_step) : bytes :=
  flat_map (fun s => default [] (rs_read s)) script.

(** What [_readline] leaves alone: everything but the health flag, the
    indicator and the watchdog. *)
Definition readline_keeps (st st' : Client) : Prop :=
  _to st' = _to st /\ _evfail st' = _evfail st /\ _evread st' = _evread st /\
  _s_lock st' = _s_lock st /\ connects st' = connects st /\
  _acks_pend st' = _acks_pend st /\ getmid st' = getmid st /\
  isnew_lst st' = isnew_lst st /\ created st' = created st /\ wire st' = wire st.


(** Everything a read script brings is ASCII text. *)
Definition ascii_reads (script : list read_step) : Prop :=
  Forall (fun s => is_ascii (default [] (rs_read s)) = true) script.

(** The passes of a read script at which nothing is received. *)
Definition idle_passes (script : list read_step) : nat :=
  length (filter (fun s => rs_read s = None) script).

(** A sender is inside [_send], holding the lock. *)
Definition in_send (s : sender) : bool :=
  match s.2 with At (InSend _ _ _) => true | _ => false end.

(** A sender ended with an exception. *)
Definition send_failed (s : sender) : bool :=
  match s.2 with Exc _ => true | _ => false end.

(** What the write lock keeps of the senders and the wire, [w0] being the
    wire at the start and [lines] the lines of the senders: the wire has
    grown by whole lines of senders and then by what the sender holding the
    lock has sent of its line so far; that sender alone is inside [_send],
    and holds as [d] the rest of its line. *)
Definition senders_ok (w0 : bytes) (lines : list bytes) (s : Client * list sender) : Prop :=
  s.2.*1 = lines /\
  exists done cur,
    wire s.1 = w0 ++ concat done ++ cur /\
    Forall (fun l => l ∈ lines) done /\
    if _s_lock s.1 then
      exists i line d ns start,
        s.2 !! i = Some (line, At (InSend d ns start)) /\
        line = cur ++ d /\ ns = length cur /\
        forall j x, j <> i -> s.2 !! j = Some x -> in_send x = false
    else cur = [] /\ forall j x, s.2 !! j = Some x -> in_send x = false.

(** * Properties *)

(** ** Identifiers and their two hexadecimal digits *)

Lemma hex_ok_all : forallb hex_ok (seqZ 0 256) = true.
Proof. vm_compute. reflexivity. Qed.

Lemma format_02x_byte m :
  0 <= m <= 255 ->
  exists a b, format_02x m = [a; b] /\ hexval a = Some (m / 16) /\
              hexval b = Some (m mod 16) /\ a <> nl /\ b <> nl.
Proof.
  intros Hm.
  pose proof hex_ok_all as H.
  rewrite forallb_forall in H.
  assert (Hin : In m (seqZ 0 256)).
  { apply list_elem_of_In, elem_of_seqZ. lia. }
  specialize (H m Hin). unfold hex_ok in H.
  destruct (format_02x m) as [|a [|b [|c l]]]; try discriminate.
  apply andb_prop in H as [H Hb]. apply andb_prop in H as [H Ha].
  apply andb_prop in H as [H1 H2].
  apply bool_decide_eq_true_1 in H1, H2.
  exists a, b. repeat split; auto.
  - apply negb_true_iff in Ha. apply Ascii.eqb_neq in Ha. exact Ha.
  - apply negb_true_iff in Hb. apply Ascii.eqb_neq in Hb. exact Hb.
Qed.

Lemma int16_format_02x m : 0 <= m <= 255 -> int16 (format_02x m) = inr m.
Proof.
  intros Hm. destruct (format_02x_byte m Hm) as (a & b & -> & Ha & Hb & _).
  simpl. rewrite Ha, Hb. f_equal. pose proof (Z.div_mod m 16). lia.
Qed.

Lemma gmid_next_range g : 1 <= gmid_next g <= 255.
Proof.
  unfold gmid_next.
  destruct (0 <=? g) eqn:H1, (g <? 255) eqn:H2; simpl; lia.
Qed.

Lemma endswith_nl_true b : endswith_nl b = true <-> exists b', b = b' ++ [nl].
Proof.
  unfold endswith_nl. rewrite bool_decide_eq_true. split.
  - intros H. destruct (last_Some b nl) as [[b' Hb] _]; eauto.
  - intros [b' ->]. apply last_snoc.
Qed.

Lemma endswith_nl_nil : endswith_nl [] = false.
Proof. reflexivity. Qed.

Lemma endswith_nl_snoc b : endswith_nl (b ++ [nl]) = true.
Proof. apply endswith_nl_true. eauto. Qed.

Lemma endswith_nl_app a b : b <> [] -> endswith_nl (a ++ b) = endswith_nl b.
Proof.
  intros Hb. unfold endswith_nl.
  destruct b as [|x b] using rev_ind; [congruence|].
  rewrite app_assoc, !last_snoc. reflexivity.
Qed.

Lemma list_end2 {A} (l : list A) :
  l = [] \/ (exists c, l = [c]) \/ exists y c1 c2, l = y ++ [c1; c2].
Proof.
  destruct l as [|c2 l] using rev_ind; [auto|].
  destruct l as [|c1 l] using rev_ind; [eauto|].
  right. right. exists l, c1, c2. rewrite <- app_assoc. reflexivity.
Qed.

Lemma snoc2_inv {A} (x y : list A) p q r s :
  x ++ [p; q] = y ++ [r; s] -> x = y /\ p = r /\ q = s.
Proof.
  intros H. apply app_inj_2 in H as [-> H]; [|reflexivity].
  inversion H. auto.
Qed.

(** ** [write]: the serialized line *)

Lemma write_line buf qos st :
  w_line (snd (write buf qos st))
  = format_02x (w_mid (snd (write buf qos st))) ++ buf ++ (if endswith_nl buf then [] else [nl]).
Proof.
  unfold write. simpl. destruct (endswith_nl buf); simpl.
  - rewrite app_nil_r. reflexivity.
  - reflexivity.
Qed.

Lemma write_mid buf qos st : w_mid (snd (write buf qos st)) = gmid_next (getmid st).
Proof. reflexivity. Qed.

(** C10 (as stated) fails: a text that ends with two newlines is sent as it
    is, so the line [write] builds ends with a doubled delimiter. *)
Lemma C10_doubled_delimiter :
  ~ (forall buf qos st, ~ exists x, w_line (write buf qos st).2 = x ++ [nl; nl]).
Proof.
  intros H. apply (H [nl; nl] true (new_client 4000 None)).
  exists (B "01"). reflexivity.
Qed.

(** C10 (amended).  The line [write] builds is the two hexadecimal digits of the fresh
    identifier, then [buf], then a newline only when [buf] does not already
    end with one: the line ends with a newline, and with two of them only if
    [buf] itself does.  An empty payload and a payload of one newline both
    give the three bytes of an ACK frame for the identifier. *)
Theorem C10_write_serialized_line (buf : bytes) (qos : bool) (st : Client) :
  let t := snd (write buf qos st) in
  1 <= w_mid t <= 255 /\
  length (format_02x (w_mid t)) = 2%nat /\
  w_line t = format_02x (w_mid t) ++ buf ++ (if endswith_nl buf then [] else [nl]) /\
  endswith_nl (w_line t) = true /\
  ((exists x, w_line t = x ++ [nl; nl]) -> exists y, buf = y ++ [nl; nl]) /\
  (buf = [] \/ buf = [nl] ->
     w_line t = format_02x (w_mid t) ++ [nl] /\
     length (w_line t) = 3%nat /\
     is_ack_for (w_mid t) (w_line t) = true).
Proof.
  intros t.
  assert (Hmid : 1 <= w_mid t <= 255) by (subst t; rewrite write_mid; apply gmid_next_range).
  destruct (format_02x_byte (w_mid t)) as (a & b & Hf & Ha & Hb & Hna & Hnb); [lia|].
  assert (Hline : w_line t = format_02x (w_mid t) ++ buf ++ (if endswith_nl buf then [] else [nl]))
    by (subst t; apply write_line).
  clearbody t.
  split; [exact Hmid|]. split; [rewrite Hf; reflexivity|]. split; [exact Hline|].
  split; [|split].
  - rewrite Hline. destruct (endswith_nl buf) eqn:He.
    + apply endswith_nl_true in He as [b' ->].
      rewrite app_nil_r, app_assoc. apply endswith_nl_snoc.
    + rewrite app_assoc. apply endswith_nl_snoc.
  - intros [x Hx]. rewrite Hline, Hf in Hx.
    destruct (list_end2 buf) as [-> | [[c ->] | (y & c1 & c2 & ->)]].
    + rewrite endswith_nl_nil in Hx.
      change ([a; b] ++ [] ++ [nl]) with ([a] ++ [b; nl]) in Hx.
      apply snoc2_inv in Hx as (_ & Hx & _). congruence.
    + destruct (endswith_nl [c]) eqn:He.
      * change ([a; b] ++ [c] ++ []) with ([a] ++ [b; c]) in Hx.
        apply snoc2_inv in Hx as (_ & Hx & _). congruence.
      * change ([a; b] ++ [c] ++ [nl]) with ([a; b] ++ [c; nl]) in Hx.
        apply snoc2_inv in Hx as (_ & Hx & _). subst c. discriminate He.
    + destruct (endswith_nl (y ++ [c1; c2])) eqn:He.
      * rewrite app_nil_r, app_assoc in Hx.
        apply snoc2_inv in Hx as (_ & -> & ->). eauto.
      * replace ([a; b] ++ (y ++ [c1; c2]) ++ [nl]) with (([a; b] ++ y ++ [c1]) ++ [c2; nl]) in Hx
          by (rewrite <- !app_assoc; reflexivity).
        apply snoc2_inv in Hx as (_ & -> & _).
        rewrite endswith_nl_app in He by discriminate. discriminate He.
  - intros Hbuf.
    assert (Hl : w_line t = format_02x (w_mid t) ++ [nl]).
    { rewrite Hline. destruct Hbuf as [-> | ->]; reflexivity. }
    split; [exact Hl|]. rewrite Hl, Hf. split; [reflexivity|].
    unfold is_ack_for. simpl. rewrite Ha, Hb.
    pose proof (Z.div_mod (w_mid t) 16).
    apply Z.eqb_eq. lia.
Qed.

(** ** The clock *)

(** Between two readings less than half a period apart, [ticks_diff] is the
    time elapsed, whatever the wrap of the counter. *)
Lemma ticks_diff_elapsed (t0 t1 : Z) :
  - (ticks_period / 2) <= t1 - t0 < ticks_period / 2 ->
  ticks_diff (ticks_ms t1) (ticks_ms t0) = t1 - t0.
Proof.
  intros H. unfold ticks_diff, ticks_ms.
  assert (Hp : 0 < ticks_period) by reflexivity.
  assert (Hh : ticks_period = 2 * (ticks_period / 2)) by reflexivity.
  rewrite Zplus_mod, Zminus_mod, Zmod_mod, Zmod_mod, <- Zminus_mod, <- Zplus_mod.
  rewrite Z.mod_small by lia. lia.
Qed.

(** ** [_send]: the raw send *)

Section SendLoop.

Variables (to start : Z) (nts : nat).

Lemma send_loop_done d ns script :
  (ns <? nts)%nat = false ->
  _send_loop to start d ns nts script = send_end (Returned tt) [] 0 false d ns.
Proof. intros H. destruct script; simpl; rewrite H; reflexivity. Qed.

Lemma send_loop_nil d ns :
  (ns <? nts)%nat = true ->
  _send_loop to start d ns nts [] = send_end Blocked [] 0 false d ns.
Proof. intros H. simpl. rewrite H. reflexivity. Qed.

Lemma send_loop_err d ns e now script :
  (ns <? nts)%nat = true ->
  _send_loop to start d ns nts ((SendErr e, now) :: script)
  = send_end (Raised (OSError (Some e))) [] 1 false d ns.
Proof. intros H. simpl. rewrite H. reflexivity. Qed.

Lemma send_loop_room d ns c now script :
  (ns <? nts)%nat = true ->
  _send_loop to start d ns nts ((Room c, now) :: script)
  = let n := Nat.min c (length d) in
    let partial := (ns + n <? nts)%nat in
    let d' := if partial then drop n d else d in
    if ticks_diff now start >? to
    then send_end (Raised (OSError None)) (take n d) 1 partial d' (ns + n)
    else send_more (take n d) partial (_send_loop to start d' (ns + n) nts script).
Proof. intros H. simpl. rewrite H. reflexivity. Qed.

(** What the loop of [_send] does, when [d] is the part of the line still to
    be sent. *)
Lemma send_loop_spec script :
  forall d ns, (ns + length d = nts)%nat ->
  let r := _send_loop to start d ns nts script in
  (exists rest, d = s_sent r ++ rest) /\
  (s_used r <= length script)%nat /\
  (s_out r = Returned tt <->
     s_sent r = d /\ forallb (send_step_ok to start) (take (s_used r) script) = true) /\
  (s_out r = Raised (OSError None) <->
     exists k s, s_used r = S k /\ script !! k = Some s /\ send_step_late to start s = true) /\
  (forall e, s_out r = Raised e ->
     e = OSError None \/
     exists k errno now, s_used r = S k /\ script !! k = Some (SendErr errno, now) /\
                         e = OSError (Some errno)) /\
  (s_out r = Blocked -> s_used r = length script /\ s_sent r <> d).
Proof.
  induction script as [|[s now] script IH]; intros d ns Hinv r.
  - destruct (ns <? nts)%nat eqn:Hlt; subst r.
    + rewrite send_loop_nil by exact Hlt. simpl.
      apply Nat.ltb_lt in Hlt.
      assert (d <> []) by (intros ->; simpl in Hinv; lia).
      refine (conj _ (conj _ (conj _ (conj _ (conj _ _))))).
      * exists d. reflexivity.
      * lia.
      * split; [discriminate|]. intros [? _]; congruence.
      * split; [discriminate|]. intros (k & s & Hk & _); discriminate.
      * discriminate.
      * auto.
    + rewrite send_loop_done by exact Hlt. simpl.
      apply Nat.ltb_ge in Hlt.
      assert (d = []) as -> by (destruct d; [reflexivity|simpl in Hinv; lia]).
      refine (conj _ (conj _ (conj _ (conj _ (conj _ _))))).
      * exists []. reflexivity.
      * lia.
      * split; auto.
      * split; [discriminate|]. intros (k & s & Hk & _); discriminate.
      * discriminate.
      * discriminate.
  - destruct (ns <? nts)%nat eqn:Hlt.
    2:{ subst r. rewrite send_loop_done by exact Hlt. simpl.
        apply Nat.ltb_ge in Hlt.
        assert (d = []) as -> by (destruct d; [reflexivity|simpl in Hinv; lia]).
        refine (conj _ (conj _ (conj _ (conj _ (conj _ _))))).
        - exists []. reflexivity.
        - lia.
        - split; auto.
        - split; [discriminate|]. intros (k & s' & Hk & _); discriminate.
        - discriminate.
        - discriminate. }
    pose proof Hlt as Hlt'. apply Nat.ltb_lt in Hlt'.
    assert (Hd : d <> []) by (intros ->; simpl in Hinv; lia).
    destruct s as [c|e].
    2:{ subst r. rewrite send_loop_err by exact Hlt. simpl.
        refine (conj _ (conj _ (conj _ (conj _ (conj _ _))))).
        - exists d. reflexivity.
        - lia.
        - split; [discriminate|]. intros [? _]; congruence.
        - split; [discriminate|].
          intros (k & s' & Hk & Hs & Hl). injection Hk as <-. simpl in Hs.
          injection Hs as <-. discriminate.
        - intros e' [= <-]. right. exists 0%nat, e, now. auto.
        - discriminate. }
    subst r. rewrite send_loop_room by exact Hlt. cbv zeta.
    set (n := Nat.min c (length d)).
    destruct (ticks_diff now start >? to) eqn:Hto.
    { simpl. refine (conj _ (conj _ (conj _ (conj _ (conj _ _))))).
      - exists (drop n d). symmetry. apply take_drop.
      - lia.
      - split; [discriminate|].
        intros [_ H]. simpl in H. rewrite Hto in H. discriminate.
      - split; [|reflexivity]. intros _. exists 0%nat, (Room c, now). simpl. auto.
      - intros e [= <-]. auto.
      - discriminate. }
    destruct (ns + n <? nts)%nat eqn:Hpart.
    + (* partial write: the loop goes on with the suffix *)
      assert (Hinv' : (ns + n + length (drop n d) = nts)%nat).
      { rewrite length_drop. subst n. lia. }
      destruct (IH (drop n d) (ns + n)%nat Hinv') as (Hpre & Hused & Hret & Hlate & Hexn & Hblk).
      set (r' := _send_loop to start (drop n d) (ns + n) nts script) in *.
      simpl. refine (conj _ (conj _ (conj _ (conj _ (conj _ _))))).
      * destruct Hpre as [rest Hrest]. exists rest.
        rewrite <- app_assoc, <- Hrest. symmetry. apply take_drop.
      * lia.
      * split.
        -- intros H. apply Hret in H as [H1 H2]. rewrite H1, take_drop, Hto. auto.
        -- intros [H1 H2]. apply Hret. rewrite Hto in H2. simpl in H2. split; [|exact H2].
           rewrite <- (take_drop n d) in H1 at 2. apply app_inv_head in H1. exact H1.
      * split.
        -- intros H. apply Hlate in H as (k & s & Hk & Hs & Hl).
           exists (S k), s. rewrite Hk. auto.
        -- intros (k & s & Hk & Hs & Hl). apply Hlate.
           injection Hk as Hk. destruct k as [|k].
           ++ simpl in Hs. injection Hs as <-. simpl in Hl. congruence.
           ++ exists k, s. auto.
      * intros e He. apply Hexn in He as [He | (k & errno & now' & Hk & Hs & He)]; [auto|].
        right. exists (S k), errno, now'. rewrite Hk. auto.
      * intros H. apply Hblk in H as [H1 H2]. split; [f_equal; exact H1|].
        intros H3. rewrite <- (take_drop n d) in H3 at 2. apply app_inv_head in H3.
        contradiction.
    + (* the write completes the line: the loop ends at its test *)
      rewrite send_loop_done by exact Hpart.
      apply Nat.ltb_ge in Hpart.
      assert (Hn : n = length d) by (subst n; lia).
      simpl. rewrite Hn, firstn_all, app_nil_r. simpl. rewrite Hto. simpl.
      refine (conj _ (conj _ (conj _ (conj _ (conj _ _))))).
      * exists []. rewrite app_nil_r. reflexivity.
      * lia.
      * split; auto.
      * split; [discriminate|].
        intros (k & s & Hk & Hs & Hl). injection Hk as <-. simpl in Hs.
        injection Hs as <-. simpl in Hl. congruence.
      * discriminate.
      * discriminate.
Qed.

Lemma send_loop_blocked script :
  forall d ns,
  s_out (_send_loop to start d ns nts script) = Blocked ->
  forallb (send_step_ok to start) script = true.
Proof.
  induction script as [|[s now] script IH]; intros d ns H; [reflexivity|].
  destruct (ns <? nts)%nat eqn:Hlt.
  2:{ rewrite send_loop_done in H by exact Hlt. discriminate. }
  destruct s as [c|e].
  2:{ rewrite send_loop_err in H by exact Hlt. discriminate. }
  rewrite send_loop_room in H by exact Hlt. cbv zeta in H. simpl.
  destruct (ticks_diff now start >? to); [discriminate|].
  simpl in H |- *. eapply IH. exact H.
Qed.

(** Every pass before the last one is a partial write and pauses. *)
Lemma send_loop_pauses script :
  forall d ns,
  let r := _send_loop to start d ns nts script in
  s_out r = Returned tt -> (ns < nts)%nat -> S (s_pauses r) = s_used r.
Proof.
  induction script as [|[s now] script IH]; intros d ns r H Hlt; subst r.
  - apply Nat.ltb_lt in Hlt. rewrite send_loop_nil in H by exact Hlt. discriminate.
  - pose proof Hlt as Hlt'. apply Nat.ltb_lt in Hlt. destruct s as [c|e].
    2:{ rewrite send_loop_err in H by exact Hlt. discriminate. }
    rewrite send_loop_room in H |- * by exact Hlt. cbv zeta in H |- *.
    destruct (ticks_diff now start >? to); [discriminate|].
    destruct (ns + Nat.min c (length d) <? nts)%nat eqn:Hpart.
    + simpl in H |- *. f_equal. apply IH; [exact H|]. apply Nat.ltb_lt. exact Hpart.
    + rewrite send_loop_done by exact Hpart. reflexivity.
Qed.

(** The only exception the loop lets out is [OSError]. *)
Lemma send_loop_raises script :
  forall d ns e, s_out (_send_loop to start d ns nts script) = Raised e ->
  exists errno, e = OSError errno.
Proof.
  induction script as [|[s now] script IH]; intros d ns e H.
  - simpl in H. destruct (ns <? nts)%nat; discriminate.
  - destruct (ns <? nts)%nat eqn:Hlt.
    2:{ rewrite send_loop_done in H by exact Hlt. discriminate. }
    destruct s as [c|errno].
    2:{ rewrite send_loop_err in H by exact Hlt. injection H as <-. eauto. }
    rewrite send_loop_room in H by exact Hlt. cbv zeta in H.
    destruct (ticks_diff now start >? to).
    + injection H as <-. eauto.
    + simpl in H. eapply IH. exact H.
Qed.

End SendLoop.

(** The raw send ends: each pause lasts 20 ms at least, so when [20 * (k + 1)]
    ms or more have elapsed at the check of pass [k], a script of more than
    [to / 20] passes is never exhausted. *)
Lemma send_ends (to start : Z) (d : bytes) (script : list send_step) :
  0 <= to ->
  (forall k s now, script !! k = Some (s, now) ->
                   20 * Z.of_nat (S k) <= ticks_diff now start) ->
  to / 20 < Z.of_nat (length script) ->
  s_out (_send to start d script) <> Blocked.
Proof.
  intros Hto Hpace Hlen Hblk.
  apply send_loop_blocked in Hblk.
  destruct script as [|s0 script'] using rev_ind.
  { simpl in Hlen. pose proof (Z.div_pos to 20). lia. }
  clear IHscript'.
  rewrite forallb_app in Hblk. apply andb_prop in Hblk as [_ Hblk].
  simpl in Hblk. rewrite andb_true_r in Hblk.
  destruct s0 as [[c|e] now]; [|discriminate].
  simpl in Hblk. apply negb_true_iff in Hblk.
  rewrite Z.gtb_ltb in Hblk. apply Z.ltb_ge in Hblk.
  specialize (Hpace (length script') (Room c) now).
  specialize (Hpace (list_lookup_middle script' [] (Room c, now) _ eq_refl)).
  rewrite length_app in Hlen. simpl in Hlen.
  pose proof (Z.mul_succ_div_gt to 20). lia.
Qed.


(** ** Text and bytes in the raw send *)

Lemma is_ascii_cons c d : is_ascii (c :: d) = true -> is_cont c = false /\ is_ascii d = true.
Proof.
  unfold is_ascii. cbn [forallb]. intros H. apply andb_prop in H as [Hc Hd].
  split; [|exact Hd]. unfold is_cont. apply Nat.ltb_lt in Hc.
  apply andb_false_iff. left. apply Nat.leb_gt. exact Hc.
Qed.

Lemma is_ascii_drop n : forall d, is_ascii d = true -> is_ascii (drop n d) = true.
Proof.
  induction n as [|n IH]; intros [|c d] H; try exact H.
  cbn [drop]. apply IH. apply is_ascii_cons in H. tauto.
Qed.

Lemma str_len_ascii d : is_ascii d = true -> str_len d = length d.
Proof.
  unfold str_len. induction d as [|c d IH]; intros H; [reflexivity|].
  apply is_ascii_cons in H as [Hc Hd]. cbn [List.filter]. rewrite Hc.
  cbn [negb length]. rewrite IH by exact Hd. reflexivity.
Qed.

Lemma skip_cont_ascii d : is_ascii d = true -> skip_cont d = d.
Proof.
  destruct d as [|c d]; intros H; [reflexivity|].
  apply is_ascii_cons in H as [Hc _]. cbn [skip_cont]. rewrite Hc. reflexivity.
Qed.

Lemma str_drop_ascii n : forall d, is_ascii d = true -> str_drop n d = drop n d.
Proof.
  induction n as [|n IH]; intros [|c d] H; try reflexivity.
  apply is_ascii_cons in H as [_ Hd].
  cbn [str_drop drop]. rewrite skip_cont_ascii by exact Hd. apply IH. exact Hd.
Qed.

(** On ASCII text counting characters and counting bytes are the same, and
    the two versions of the raw send agree. *)
Lemma send_str_loop_ascii to start nts script :
  forall d ns, is_ascii d = true ->
  _send_str_loop to start d ns nts script = _send_loop to start d ns nts script.
Proof.
  induction script as [|[[c|e] now] script IH]; intros d ns H; [reflexivity| |reflexivity].
  cbn [_send_str_loop _send_loop].
  destruct (ns <? nts)%nat; [|reflexivity].
  cbv zeta. rewrite str_drop_ascii by exact H.
  destruct (ticks_diff now start >? to); [reflexivity|].
  rewrite IH; [reflexivity|].
  destruct (ns + Nat.min c (length d) <? nts)%nat; [apply is_ascii_drop|]; exact H.
Qed.

Lemma send_str_ascii to start d script :
  is_ascii d = true -> _send_str to start d script = _send to start d script.
Proof.
  intros H. unfold _send_str, _send. rewrite str_len_ascii by exact H.
  apply send_str_loop_ascii. exact H.
Qed.

Lemma send_str_loop_raises to start nts script :
  forall d ns e, s_out (_send_str_loop to start d ns nts script) = Raised e ->
  exists errno, e = OSError errno.
Proof.
  induction script as [|[[c|errno] now] script IH]; intros d ns e; cbn [_send_str_loop].
  - destruct (ns <? nts)%nat; discriminate.
  - destruct (ns <? nts)%nat; [|discriminate]. cbv zeta.
    destruct (ticks_diff now start >? to).
    + intros [= <-]. eauto.
    + cbn [s_out send_more]. apply IH.
  - destruct (ns <? nts)%nat; [|discriminate]. intros [= <-]. eauto.
Qed.

(** Text with a character of two bytes: the socket takes one byte at each
    call; after the first call [d[1:]] drops the whole character, so its
    second byte is never sent, and [_send] returns. *)
Example send_str_skips_a_byte :
  let e1 := ascii_of_nat 195 in
  let e2 := ascii_of_nat 169 in
  let r := _send_str 1000 0 [e1; e2; nl] [(Room 1, 1); (Room 1, 2)] in
  s_out r = Returned tt /\ s_sent r = [e1; nl].
Proof. vm_compute. auto. Qed.

(** C8 (as stated) fails: the socket takes both bytes of the line at once, but
    the clock at the check that follows reads 101 ms against a timeout of
    100 ms, and [_send] raises although all bytes are sent. *)
Lemma C8_all_sent_yet_raises :
  ~ (forall to start d script,
       s_sent (_send_str to start d script) = d ->
       s_out (_send_str to start d script) = Returned tt).
Proof.
  intros H.
  specialize (H 100 0 (B "ab") [(Room 2, 101)] eq_refl).
  vm_compute in H. discriminate H.
Qed.

(** C8 (amended). For a line of ASCII text (one byte a character; for it
    the raw send of text is the raw send of bytes) the socket is handed the
    bytes of the line until all are taken, in order; the raw send returns
    exactly when all bytes are sent and every timeout check passed, the one
    after the last write included; it raises the bare [OSError] exactly when
    a check finds the timeout exceeded, and passes on an error of the socket;
    every pass but the last of a run that returns has paused. *)
Theorem C8_send_raw (to start : Z) (d : bytes) (script : list send_step) :
  is_ascii d = true ->
  let r := _send_str to start d script in
  r = _send to start d script /\
  (exists rest, d = s_sent r ++ rest) /\
  (s_out r = Returned tt <->
     s_sent r = d /\ forallb (send_step_ok to start) (take (s_used r) script) = true) /\
  (s_out r = Raised (OSError None) <->
     exists k s, s_used r = S k /\ script !! k = Some s /\ send_step_late to start s = true) /\
  (forall e, s_out r = Raised e ->
     e = OSError None \/
     exists k errno now, s_used r = S k /\ script !! k = Some (SendErr errno, now) /\
                         e = OSError (Some errno)) /\
  (s_out r = Returned tt -> d <> [] -> S (s_pauses r) = s_used r).
Proof.
  intros Hd r. subst r. rewrite (send_str_ascii to start d script Hd).
  split; [reflexivity|].
  destruct (send_loop_spec to start (length d) script d 0%nat eq_refl)
    as (Hpre & _ & Hret & Hlate & Hexn & _).
  fold (_send to start d script) in Hpre, Hret, Hlate, Hexn.
  refine (conj Hpre (conj Hret (conj Hlate (conj Hexn _)))).
  intros H Hne. apply (send_loop_pauses to start (length d) script d 0%nat H).
  destruct d; [congruence|simpl; lia].
Qed.

Lemma C8_send_raw_witness :
  let d := B "01hello" ++ [nl] in
  let script := [(Room 3, 5); (Room 0, 30); (Room 9, 60)] in
  let r := _send_str 1000 0 d script in
  s_out r = Returned tt /\ s_sent r = d /\ s_pauses r = 2%nat /\
  r = _send 1000 0 d script /\
  (exists rest, d = s_sent r ++ rest) /\
  (s_out r = Returned tt <->
     s_sent r = d /\ forallb (send_step_ok 1000 0) (take (s_used r) script) = true) /\
  (s_out r = Raised (OSError None) <->
     exists k s, s_used r = S k /\ script !! k = Some s /\ send_step_late 1000 0 s = true) /\
  (forall e, s_out r = Raised e ->
     e = OSError None \/
     exists k errno now, s_used r = S k /\ script !! k = Some (SendErr errno, now) /\
                         e = OSError (Some errno)) /\
  (s_out r = Returned tt -> d <> [] -> S (s_pauses r) = s_used r).
Proof.
  intros d script r.
  split; [reflexivity|]. split; [reflexivity|]. split; [reflexivity|].
  apply (C8_send_raw 1000 0 d script). reflexivity.
Defined.

(** ** [_readline] *)

Lemma rl_head_ok now st l :
  endswith_nl (rl_line l) = true -> _ok (rl_head now st l).1 = true.
Proof.
  intros H. unfold rl_head. rewrite H.
  destruct (1 <? length (rl_line l))%nat; simpl; [reflexivity|].
  destruct (_led st); reflexivity.
Qed.

Lemma rl_head_to now st l : _to (rl_head now st l).1 = _to st.
Proof.
  unfold rl_head. destruct (endswith_nl (rl_line l)); [|reflexivity].
  destruct (1 <? length (rl_line l))%nat; simpl; [reflexivity|].
  destruct (_led st); reflexivity.
Qed.

Lemma rl_head_keepalive now st l :
  rl_line l = [nl] ->
  (rl_head now st l).2 = inr {| rl_line := []; rl_start := now |} /\
  _led (rl_head now st l).1 = negb <$> _led st /\
  wdt (rl_head now st l).1 = wdt st ++ [5].
Proof.
  intros H. unfold rl_head. rewrite H.
  change (endswith_nl [nl]) with true. cbn iota. simpl.
  destruct (_led st) eqn:E; simpl; rewrite ?E; auto.
Qed.

Lemma rl_head_incomplete now st l :
  endswith_nl (rl_line l) = false -> rl_head now st l = (st, inr l).
Proof. intros H. unfold rl_head. rewrite H. reflexivity. Qed.


Lemma rl_tail_raises to s l :
  (exists e, rl_tail to s l = inl e) <->
  rs_read s = Some [] \/ ticks_diff (rs_check s) (rl_start l) > to.
Proof.
  unfold rl_tail. destruct (rs_read s) as [[|c d]|].
  - split; eauto.
  - destruct (rl_line l); simpl;
      destruct (ticks_diff (rs_check s) (rl_start l) >? to) eqn:H;
      (split; [intros [e He]; try discriminate; right; lia | intros [?|?]; [discriminate|]; eauto; lia]).
  - simpl. destruct (ticks_diff (rs_check s) (rl_start l) >? to) eqn:H;
      (split; [intros [e He]; try discriminate; right; lia | intros [?|?]; [discriminate|]; eauto; lia]).
Qed.

Lemma rl_tail_error to s l e : rl_tail to s l = inl e -> e = OSError None.
Proof.
  unfold rl_tail. destruct (rs_read s) as [[|c d]|].
  - congruence.
  - destruct (rl_line l); simpl;
      destruct (ticks_diff (rs_check s) (rl_start l) >? to); congruence.
  - simpl. destruct (ticks_diff (rs_check s) (rl_start l) >? to); congruence.
Qed.

Lemma rl_tail_goes_on to s l l' slept :
  rl_tail to s l = inr (l', slept) ->
  rl_start l' = rl_start l /\
  match rs_read s with
  | None => rl_line l' = rl_line l /\ slept = true
  | Some d => rl_line l' = rl_line l ++ d /\ slept = false
  end.
Proof.
  unfold rl_tail. destruct (rs_read s) as [[|c d]|].
  - discriminate.
  - destruct (rl_line l); simpl;
      destruct (ticks_diff (rs_check s) (rl_start l) >? to); try discriminate;
      intros [= <- <-]; auto.
  - simpl. destruct (ticks_diff (rs_check s) (rl_start l) >? to); try discriminate.
    intros [= <- <-]; auto.
Qed.


Lemma endswith_nl_no_nl (a d : bytes) : d <> [] -> nl ∉ d -> endswith_nl (a ++ d) = false.
Proof.
  intros Hd Hn. rewrite endswith_nl_app by exact Hd.
  destruct (endswith_nl d) eqn:He; [|reflexivity].
  apply endswith_nl_true in He as [d' ->].
  exfalso. apply Hn. apply elem_of_app. right. apply list_elem_of_singleton. reflexivity.
Qed.

(** While no newline arrives the clock is never reset: the first check that
    finds more than the timeout elapsed since [rl_start] raises. *)
Lemma readline_times_out script :
  forall st l k s,
  Forall read_no_nl script ->
  endswith_nl (rl_line l) = false ->
  script !! k = Some s ->
  ticks_diff (rs_check s) (rl_start l) > _to st ->
  r_out (_readline_loop st l script) = Raised (OSError None) /\
  r_st (_readline_loop st l script) = st.
Proof.
  induction script as [|s0 script IH]; intros st l k s Hall Hline Hk Hlate; [discriminate|].
  simpl. rewrite !(rl_head_incomplete _ _ _ Hline).
  apply Forall_cons in Hall as [H0 Hall].
  destruct (rl_tail (_to st) s0 l) as [e|[l' slept]] eqn:Ht.
  - simpl. apply rl_tail_error in Ht as ->. auto.
  - assert (Hno : ~ ticks_diff (rs_check s0) (rl_start l) > _to st).
    { intros Hc. assert (Hex : exists e, rl_tail (_to st) s0 l = inl e).
      { apply rl_tail_raises. auto. }
      destruct Hex as [e He]. congruence. }
    destruct k as [|k]; [simpl in Hk; injection Hk as <-; contradiction|].
    simpl in Hk.
    apply rl_tail_goes_on in Ht as [Hs Hl'].
    assert (Hline' : endswith_nl (rl_line l') = false).
    { unfold read_no_nl in H0. destruct (rs_read s0) as [d|].
      - destruct Hl' as [-> _]. destruct H0. apply endswith_nl_no_nl; assumption.
      - destruct Hl' as [-> _]. exact Hline. }
    rewrite <- Hs in Hlate.
    destruct (IH st l' k s Hall Hline' Hk Hlate) as [H1 H2].
    destruct slept; simpl; auto.
Qed.

(** A keepalive at the start of the stream is skipped: once it is read (in
    time), [_readline] goes on as if entered afresh, with the link marked
    healthy, the watchdog fed and the indicator toggled. *)
Lemma readline_skips_keepalive st s0 s1 script :
  rs_read s0 = Some [nl] ->
  ticks_diff (rs_check s0) (rs_top s0) <= _to st ->
  let st' := (rl_head (rs_top s1) st {| rl_line := [nl]; rl_start := rs_top s0 |}).1 in
  _ok st' = true /\
  r_out (_readline st (s0 :: s1 :: script)) = r_out (_readline st' (s1 :: script)) /\
  r_st (_readline st (s0 :: s1 :: script)) = r_st (_readline st' (s1 :: script)) /\
  r_rest (_readline st (s0 :: s1 :: script)) = r_rest (_readline st' (s1 :: script)).
Proof.
  intros Hr Hto st'. split; [apply rl_head_ok; reflexivity|].
  unfold _readline.
  change (_readline_loop st {| rl_line := []; rl_start := rs_top s0 |} (s0 :: s1 :: script))
    with (match rl_tail (_to st) s0 {| rl_line := []; rl_start := rs_top s0 |} with
          | inl e => {| r_out := Raised e; r_st := st; r_rest := s1 :: script;
                        r_sleeps := match rs_read s0 with None => 1 | Some _ => 0 end |}
          | inr (l'', slept) => read_slept slept (_readline_loop st l'' (s1 :: script))
          end).
  assert (Ht : rl_tail (_to st) s0 {| rl_line := []; rl_start := rs_top s0 |}
               = inr ({| rl_line := [nl]; rl_start := rs_top s0 |}, false)).
  { unfold rl_tail. rewrite Hr. simpl.
    destruct (ticks_diff (rs_check s0) (rs_top s0) >? _to st) eqn:E; [lia|reflexivity]. }
  rewrite Ht.
  destruct (rl_head_keepalive (rs_top s1) st {| rl_line := [nl]; rl_start := rs_top s0 |} eq_refl)
    as (Hl & _ & _).
  pose proof (rl_head_to (rs_top s1) st {| rl_line := [nl]; rl_start := rs_top s0 |}) as Hto'.
  fold st' in Hl, Hto'.
  assert (Hloop : _readline_loop st {| rl_line := [nl]; rl_start := rs_top s0 |} (s1 :: script)
                  = _readline_loop st' {| rl_line := []; rl_start := rs_top s1 |} (s1 :: script)).
  { simpl _readline_loop at 1.
    destruct (rl_head (rs_top s1) st {| rl_line := [nl]; rl_start := rs_top s0 |})
      as [st1 nx] eqn:Hh.
    simpl in Hl, Hto'. subst nx. subst st'. simpl.
    unfold rl_head in Hh. simpl in Hh. injection Hh as <-. reflexivity. }
  rewrite Hloop. auto.
Qed.

Lemma rl_head_returns now st l :
  endswith_nl (rl_line l) = true -> (1 < length (rl_line l))%nat ->
  rl_head now st l = (set_ok true st, inl (rl_line l)).
Proof.
  intros H1 H2. unfold rl_head. rewrite H1.
  apply Nat.ltb_lt in H2. rewrite H2. reflexivity.
Qed.

Lemma readline_loop_joins script :
  forall st l,
  Forall (fun s => rs_read s <> Some [] /\
                   ticks_diff (rs_check s) (rl_start l) <= _to st) script ->
  (forall k, (k < length script)%nat ->
             endswith_nl (rl_line l ++ joined (take k script)) = false) ->
  endswith_nl (rl_line l ++ joined script) = true ->
  (1 < length (rl_line l ++ joined script))%nat ->
  _readline_loop st l script
  = {| r_out := Returned (rl_line l ++ joined script); r_st := set_ok true st;
       r_rest := []; r_sleeps := idle_passes script |}.
Proof.
  induction script as [|s script IH]; intros st l Hs Hpre Hend Hlen.
  - simpl in *. rewrite app_nil_r in *.
    rewrite rl_head_returns by assumption. reflexivity.
  - pose proof (Hpre 0%nat ltac:(simpl; lia)) as H0.
    simpl in H0. rewrite app_nil_r in H0.
    apply Forall_cons in Hs as [[Hne Hin] Hs].
    cbn [_readline_loop]. rewrite rl_head_incomplete by exact H0.
    destruct (rl_tail (_to st) s l) as [e|[l' slept]] eqn:Et.
    { assert (Hex : exists e, rl_tail (_to st) s l = inl e) by eauto.
      apply rl_tail_raises in Hex as [Hex|Hex]; [congruence|lia]. }
    apply rl_tail_goes_on in Et as [Hst Hl].
    assert (Hline : rl_line l' = rl_line l ++ default [] (rs_read s)).
    { destruct (rs_read s); simpl; [tauto|]. rewrite app_nil_r. tauto. }
    assert (Hsl : idle_passes (s :: script)
                  = if slept then S (idle_passes script) else idle_passes script).
    { unfold idle_passes. rewrite filter_cons.
      destruct (rs_read s) as [d|]; destruct Hl as [_ ->].
      - rewrite decide_False by discriminate. reflexivity.
      - rewrite decide_True by reflexivity. reflexivity. }
    change (joined (s :: script)) with (default [] (rs_read s) ++ joined script) in *.
    rewrite app_assoc, <- Hline in Hend, Hlen |- *.
    rewrite (IH st l').
    + unfold read_slept. simpl. rewrite Hsl. reflexivity.
    + rewrite Hst. exact Hs.
    + intros k Hk. specialize (Hpre (S k) ltac:(simpl; lia)).
      change (joined (take (S k) (s :: script)))
        with (default [] (rs_read s) ++ joined (take k script)) in Hpre.
      rewrite app_assoc, <- Hline in Hpre. exact Hpre.
    + exact Hend.
    + exact Hlen.
Qed.







(** A keepalive restarts the measure: with a timeout of 1000 ms, a keepalive
    read at 900 ms lets a line that is complete at 1850 ms through; the
    keepalive itself is not returned, and the indicator has toggled. *)
Example readline_after_keepalive :
  let script := [ {| rs_top := 0; rs_read := Some [nl]; rs_check := 900 |};
                  {| rs_top := 900; rs_read := None; rs_check := 1800 |};
                  {| rs_top := 1800; rs_read := Some (B "01a"); rs_check := 1820 |};
                  {| rs_top := 1820; rs_read := Some (B "b" ++ [nl]); rs_check := 1850 |} ] in
  let r := _readline (new_client 1000 (Some false)) script in
  r_out r = Returned (B "01ab" ++ [nl]) /\ r_sleeps r = 1%nat /\
  _ok (r_st r) = true /\ _led (r_st r) = Some true /\ r_rest r = [].
Proof. vm_compute. auto. Qed.

(** Without the keepalive the same line is too late. *)
Example readline_too_late :
  let script := [ {| rs_top := 0; rs_read := None; rs_check := 900 |};
                  {| rs_top := 900; rs_read := Some (B "01ab" ++ [nl]); rs_check := 1850 |} ] in
  let r := _readline (new_client 1000 None) script in
  r_out r = Raised (OSError None) /\ _ok (r_st r) = false.
Proof. vm_compute. auto. Qed.

(** The link closed by the peer gives the same error. *)
Example readline_closed :
  r_out (_readline (new_client 1000 None)
           [ {| rs_top := 0; rs_read := Some []; rs_check := 3 |} ])
  = Raised (OSError None).
Proof. reflexivity. Qed.

(** ** [_reader]: what becomes of a line *)

Lemma frame_parts mid p :
  0 <= mid <= 255 ->
  int16 (take 2 (format_02x mid ++ p)) = inr mid /\
  drop 2 (format_02x mid ++ p) = p /\
  length (format_02x mid ++ p) = S (S (length p)).
Proof.
  intros Hm. pose proof (int16_format_02x mid Hm) as Hi.
  destruct (format_02x_byte mid Hm) as (a & b & Hf & _).
  rewrite Hf in Hi |- *. simpl. rewrite ?take_0. simpl in Hi. auto.
Qed.



(** A data frame that finds the inbound-data event empty. *)
Lemma reader_frame_data c mid p st :
  0 <= mid <= 255 -> length p <> 1%nat -> _evread st = None ->
  exists st',
    reader_frame c (format_02x mid ++ p) st = inr st' /\
    created st' = created st ++ [SendAck mid] /\
    isnew_lst st' = (isnew mid (if mid =? 0 then [] else isnew_lst st)).2 /\
    _evread st' = match (isnew mid (if mid =? 0 then [] else isnew_lst st)).1 with
                  | Some true => Some p
                  | _ => None
                  end /\
    _acks_pend st' = _acks_pend st.
Proof.
  intros Hm Hp Hev. destruct (frame_parts mid p Hm) as (Hi & Hd & Hl).
  unfold reader_frame. rewrite Hi, Hd, Hl, Hev.
  destruct (S (S (length p)) =? 3)%nat eqn:E; [apply Nat.eqb_eq in E; lia|].
  simpl.
  destruct (mid =? 0) eqn:E0; simpl.
  - destruct (isnew mid []) as [new lst] eqn:En. simpl.
    destruct new as [[|]|]; simpl;
      (destruct (c =? connects st); simpl; eexists; (split; [reflexivity|]); simpl; auto).
  - destruct (isnew mid (isnew_lst st)) as [new lst] eqn:En. simpl.
    destruct new as [[|]|]; simpl;
      (destruct (c =? connects st); simpl; eexists; (split; [reflexivity|]); simpl; auto).
Qed.

(** A data frame that finds the inbound-data event occupied. *)
Lemma reader_frame_busy c line st mid :
  int16 (take 2 line) = inr mid -> length line <> 3%nat -> ev_is_set (_evread st) = true ->
  reader_frame c line st = inr st.
Proof.
  intros Hi Hl Hev. unfold reader_frame. rewrite Hi, Hev.
  destruct (length line =? 3)%nat eqn:E; [apply Nat.eqb_eq in E; contradiction|].
  reflexivity.
Qed.

(** The ACK sender, on a free lock and a socket that takes the three bytes in
    time, puts the two digits of the identifier and a newline on the wire. *)
Lemma sendack_sends mid st start now c :
  0 <= mid <= 255 -> _s_lock st = false -> (3 <= c)%nat ->
  ticks_diff now start <= _to st ->
  let r := _sendack mid {| si_start := start; si_script := [(Room c, now)] |} st AtLock in
  wire r.1.1 = wire st ++ format_02x mid ++ [nl] /\
  r.1.2 = Ret /\
  r.2 = [RawSend (format_02x mid ++ [nl])].
Proof.
  intros Hm Hlock Hc Hto.
  destruct (format_02x_byte mid Hm) as (a & b & Hf & _).
  unfold _sendack, locked_send. rewrite Hlock, Hf. unfold run_send. simpl.
  replace (Nat.min c 3) with 3%nat by lia. simpl.
  destruct (ticks_diff now start >? _to st) eqn:E; [lia|].
  simpl. auto.
Qed.

(** C2 (as stated) fails: the reader has published the frame of identifier 1
    and the application has not read it; the frame of identifier 2 that
    arrives then is dropped without an ACK being scheduled and without
    being recorded by the duplicate filter. *)
Lemma C2_dropped_frame_not_acked :
  ~ (forall c line st mid,
       int16 (take 2 line) = inr mid -> length line <> 3%nat ->
       ev_is_set (_evread st) = true ->
       exists st', reader_frame c line st = inr st' /\
                   _evread st' = _evread st /\
                   created st' = created st ++ [SendAck mid] /\
                   mid ∈ isnew_lst st').
Proof.
  intros H.
  set (st := frames 0 [B "01first" ++ [nl]] (new_client 4000 None)).
  destruct (H 0 (B "02second" ++ [nl]) st 2) as (st' & Hr & _ & Hc & _).
  - reflexivity.
  - vm_compute. discriminate.
  - reflexivity.
  - assert (Hst : reader_frame 0 (B "02second" ++ [nl]) st = inr st) by reflexivity.
    rewrite Hst in Hr. injection Hr as <-.
    apply (f_equal length) in Hc. rewrite length_app in Hc. simpl in Hc. lia.
Qed.

(** C2 (amended).  A data frame that arrives while the inbound-data event
    still holds an unconsumed payload is dropped and leaves no trace: the
    pending payload stays, no ACK is scheduled for the frame, the duplicate
    filter does not record it and the connect count does not move; the
    client is exactly as before. *)
Theorem C2_busy_frame_dropped (c : Z) (line : bytes) (st : Client) (mid : Z) :
  int16 (take 2 line) = inr mid -> length line <> 3%nat ->
  ev_is_set (_evread st) = true ->
  exists st', reader_frame c line st = inr st' /\
              _evread st' = _evread st /\
              created st' = created st /\
              isnew_lst st' = isnew_lst st /\
              connects st' = connects st /\
              st' = st.
Proof.
  intros Hi Hl Hev. exists st.
  rewrite (reader_frame_busy c line st mid Hi Hl Hev). auto 6.
Qed.

(** An instance: the frame of identifier 2 arrives while that of identifier 1
    is unread. *)
Lemma C2_busy_frame_dropped_witness :
  let st := frames 0 [B "01first" ++ [nl]] (new_client 4000 None) in
  let line := B "02second" ++ [nl] in
  _evread st = Some (B "first" ++ [nl]) /\
  exists st', reader_frame 0 line st = inr st' /\
              _evread st' = _evread st /\
              created st' = created st /\
              isnew_lst st' = isnew_lst st /\
              connects st' = connects st /\
              st' = st.
Proof.
  split; [reflexivity|].
  apply (C2_busy_frame_dropped 0 (B "02second" ++ [nl])
           (frames 0 [B "01first" ++ [nl]] (new_client 4000 None)) 2).
  - reflexivity.
  - vm_compute. discriminate.
  - reflexivity.
Defined.

(** C3 (as stated) fails: what [readline] returns for the frame "00ab\n" is
    the frame without its two digits, "ab\n", newline included. *)
Lemma C3_payload_keeps_newline :
  ~ (forall c st st',
       _evread st = None ->
       reader_frame c (B "00ab" ++ [nl]) st = inr st' ->
       (readline st').1 = Returned (B "ab")).
Proof.
  intros H.
  specialize (H 0 (new_client 4000 None) _ eq_refl eq_refl).
  vm_compute in H. discriminate H.
Qed.

(** C3 (amended).  When the reader gets the data frame "00ab\n" and no
    payload is pending, nothing of the earlier record of the duplicate filter
    is left (it holds identifier 0 alone), [readline] returns "ab\n", the
    frame without its two digits and with its newline, and the ACK sender is
    scheduled for identifier 0, which sends the frame "00\n". *)
Theorem C3_frame_zero (c : Z) (st : Client) :
  _evread st = None ->
  exists st',
    reader_frame c (B "00ab" ++ [nl]) st = inr st' /\
    isnew_lst st' = [0] /\
    readline st' = (Returned (B "ab" ++ [nl]), set_evread None st') /\
    created st' = created st ++ [SendAck 0] /\
    forall st'' start now,
      _s_lock st'' = false -> ticks_diff now start <= _to st'' ->
      let r := _sendack 0 {| si_start := start; si_script := [(Room 3, now)] |} st'' AtLock in
      wire r.1.1 = wire st'' ++ B "00" ++ [nl] /\ r.1.2 = Ret.
Proof.
  intros Hev.
  destruct (reader_frame_data c 0 (B "ab" ++ [nl]) st) as (st' & Hr & Hc & Hl & He & _);
    [lia|simpl; lia|exact Hev|].
  exists st'. change (format_02x 0 ++ B "ab" ++ [nl]) with (B "00ab" ++ [nl]) in Hr.
  change (isnew 0 (if 0 =? 0 then [] else isnew_lst st)) with (Some true, [0]) in Hl, He.
  simpl in Hl, He.
  refine (conj Hr (conj Hl (conj _ (conj Hc _)))).
  - unfold readline, ev_value. rewrite He. reflexivity.
  - intros st'' start now Hlock Hto.
    destruct (sendack_sends 0 st'' start now 3 ltac:(lia) Hlock ltac:(lia) Hto) as (H1 & H2 & _).
    auto.
Qed.

(** An instance: the record of the duplicate filter holds identifier 7 when
    the frame arrives. *)
Lemma C3_frame_zero_witness :
  let st := (readline (frames 0 [B "07x" ++ [nl]] (new_client 4000 None))).2 in
  isnew_lst st = [7] /\ _evread st = None /\
  exists st',
    reader_frame 0 (B "00ab" ++ [nl]) st = inr st' /\
    isnew_lst st' = [0] /\
    readline st' = (Returned (B "ab" ++ [nl]), set_evread None st') /\
    created st' = created st ++ [SendAck 0] /\
    forall st'' start now,
      _s_lock st'' = false -> ticks_diff now start <= _to st'' ->
      let r := _sendack 0 {| si_start := start; si_script := [(Room 3, now)] |} st'' AtLock in
      wire r.1.1 = wire st'' ++ B "00" ++ [nl] /\ r.1.2 = Ret.
Proof.
  split; [reflexivity|]. split; [reflexivity|].
  apply (C3_frame_zero 0 (readline (frames 0 [B "07x" ++ [nl]] (new_client 4000 None))).2).
  reflexivity.
Defined.

(** A data frame with identifier 0 is itself the reset: the frame "00ab\n"
    delivered twice in a row, the application reading in between, is
    published twice, since each copy clears the record of the duplicate
    filter before it is checked.  What holds of duplicates is stated of the
    identifiers 1 to 255. *)
Lemma identifier_zero_published_twice :
  ~ (forall c mid p1 p2 st,
       0 <= mid <= 255 -> length p1 <> 1%nat -> length p2 <> 1%nat ->
       _evread st = None ->
       exists st1,
         reader_frame c (format_02x mid ++ p1) st = inr st1 /\
         forall st1', isnew_lst st1' = isnew_lst st1 -> _evread st1' = None ->
           exists st2, reader_frame c (format_02x mid ++ p2) st1' = inr st2 /\
                       _evread st2 = None).
Proof.
  intros H.
  destruct (H 0 0 (B "ab" ++ [nl]) (B "ab" ++ [nl]) (new_client 4000 None))
    as (st1 & Hr1 & H2); [lia|simpl; lia|simpl; lia|reflexivity|].
  vm_compute in Hr1. injection Hr1 as <-.
  destruct (H2 (readline (frames 0 [B "00ab" ++ [nl]] (new_client 4000 None))).2)
    as (st2 & Hr2 & He2); [reflexivity|reflexivity|].
  vm_compute in Hr2. injection Hr2 as <-. discriminate He2.
Qed.



(** The same on a run: identifier 5 twice, then identifier 0, then 5 again,
    the application reading whatever is published in between. *)
Example duplicate_then_reset :
  let read st := (readline st).2 in
  let st1 := frames 0 [B "05hi" ++ [nl]] (new_client 4000 None) in
  let st2 := frames 0 [B "05hi" ++ [nl]] (read st1) in
  let st3 := frames 0 [B "00boot" ++ [nl]] (read st2) in
  let st4 := frames 0 [B "05hi" ++ [nl]] (read st3) in
  _evread st1 = Some (B "hi" ++ [nl]) /\ _evread st2 = None /\
  _evread st4 = Some (B "hi" ++ [nl]) /\
  created st4 = [SendAck 5; SendAck 5; SendAck 0; SendAck 5] /\
  connects st4 = 1.
Proof. vm_compute. auto 6. Qed.

(** A session of the reader: a keepalive, a data frame that arrives in two
    pieces, a second data frame while the first is unread, an ACK, and the
    link closed by the peer. *)
Example reader_session :
  let step t d := {| rs_top := t; rs_read := Some d; rs_check := t + 10 |} in
  let script := [ step 0 [nl]; step 10 (B "05h"); step 20 (B "i" ++ [nl]);
                  step 30 (B "06yo" ++ [nl]); step 40 (B "01" ++ [nl]); step 50 [] ] in
  let r := _reader (set_acks_pend {[ 1 ]} (new_client 4000 None)) script in
  r.1 = Returned tt /\
  _evfail r.2 = Some (B "reader fail") /\
  _evread r.2 = Some (B "hi" ++ [nl]) /\
  created r.2 = [SendAck 5] /\
  isnew_lst r.2 = [5] /\
  pending 1 r.2 = false /\
  connects r.2 = 1 /\ _ok r.2 = true.
Proof. vm_compute. auto 10. Qed.

(** ** [_run]: the fatal initial-server hook *)

Lemma bad_server_calls_app a b :
  bad_server_calls (a ++ b) = (bad_server_calls a + bad_server_calls b)%nat.
Proof. unfold bad_server_calls. rewrite filter_app, length_app. reflexivity. Qed.

Lemma bad_server_calls_cons x l :
  bad_server_calls (x :: l)
  = ((if is_bad_server x then 1 else 0) + bad_server_calls l)%nat.
Proof.
  unfold bad_server_calls. rewrite filter_cons.
  destruct (is_bad_server x); simpl; [reflexivity|].
  destruct (decide (false = true)); [discriminate|reflexivity].
Qed.

Lemma bad_server_calls_nil : bad_server_calls [] = 0%nat.
Proof. reflexivity. Qed.

Lemma bad_server_calls_pauses n ms : bad_server_calls (replicate n (Pause ms)) = 0%nat.
Proof.
  induction n as [|n IH]; [reflexivity|].
  cbn [replicate]. rewrite bad_server_calls_cons, IH. reflexivity.
Qed.

Ltac count_calls :=
  repeat first [ rewrite bad_server_calls_app
               | rewrite bad_server_calls_cons
               | rewrite bad_server_calls_pauses
               | rewrite bad_server_calls_nil ].

Section Hook.

Variable cfg : config.

Lemma try_connect_quiet a st : bad_server_calls (try_connect cfg a st).2 = 0%nat.
Proof.
  unfold try_connect. destruct (at_resolve a); [reflexivity|].
  destruct (at_connect a); reflexivity.
Qed.

(** The calls of the hook in one pass: one when [init] holds and the [try]
    block fails with [OSError], none otherwise. *)
Lemma run_pass_calls init a st :
  bad_server_calls (run_pass cfg init a st).2
  = if init && try_fails cfg a st then 1%nat else 0%nat.
Proof.
  unfold run_pass, try_fails, teardown.
  pose proof (try_connect_quiet a (set_evfail (ev_clear (_evfail st)) st)) as Hq.
  destruct (try_connect cfg a (set_evfail (ev_clear (_evfail st)) st)) as [[o st1] acts].
  simpl in Hq. cbn [fst snd].
  destruct o as [[]|[errno|]|].
  - rewrite andb_false_r. destruct (at_fail a), (_concb cfg); cbn [snd];
      count_calls; rewrite Hq; reflexivity.
  - rewrite andb_true_r. destruct init; [destruct (bad_server cfg)|]; cbn [snd];
      count_calls; rewrite Hq; reflexivity.
  - rewrite andb_false_r. cbn [snd]. count_calls. rewrite Hq. reflexivity.
  - rewrite andb_false_r. cbn [snd]. count_calls. rewrite Hq. reflexivity.
Qed.

(** After the first pass the local [init] is false for good, and the hook is
    not called whatever fails. *)
Lemma run_loop_later_quiet attempts :
  forall st, bad_server_calls (_run_loop cfg false st attempts).2 = 0%nat.
Proof.
  induction attempts as [|a rest IH]; intros st; [reflexivity|].
  simpl. pose proof (run_pass_calls false a st) as Hp. simpl in Hp.
  destruct (run_pass cfg false a st) as [[o st'] acts]. simpl in Hp.
  destruct o as [[]|e|]; simpl; try exact Hp.
  specialize (IH st').
  destruct (_run_loop cfg false st' rest) as [[o' st''] acts']. simpl in IH |- *.
  rewrite bad_server_calls_app, Hp, IH. reflexivity.
Qed.

Lemma run_loop_calls st attempts :
  bad_server_calls (_run_loop cfg true st attempts).2
  = match attempts with
    | a :: _ => if try_fails cfg a st then 1%nat else 0%nat
    | [] => 0%nat
    end.
Proof.
  destruct attempts as [|a rest]; [reflexivity|].
  simpl. pose proof (run_pass_calls true a st) as Hp. simpl in Hp.
  destruct (run_pass cfg true a st) as [[o st'] acts]. simpl in Hp.
  destruct o as [[]|e|]; simpl; try exact Hp.
  pose proof (run_loop_later_quiet rest st') as Hl.
  destruct (_run_loop cfg false st' rest) as [[o' st''] acts']. simpl in Hl |- *.
  rewrite bad_server_calls_app, Hp, Hl. lia.
Qed.

(** A failure of the [try] block on a later pass is handled in silence: the
    pass ends and the loop goes on. *)
Lemma run_pass_later_goes_on a st :
  try_fails cfg a st = true ->
  (run_pass cfg false a st).1.1 = Returned tt.
Proof.
  unfold run_pass, try_fails.
  destruct (try_connect cfg a (set_evfail (ev_clear (_evfail st)) st)) as [[o st1] acts].
  simpl. destruct o as [[]|[errno|]|]; try discriminate. reflexivity.
Qed.

End Hook.

(** C9.  The supervisor calls [bad_server] at most once, and exactly when the
    [try] block of its very first pass (resolving, connecting, sending the
    identity line) ends in an [OSError]; on every later pass the same failure
    calls nothing and the loop goes on. *)
Theorem C9_bad_server_first_attempt_only
    (cfg : config) (wifi : list bool) (st : Client) (attempts : list attempt) :
  (bad_server_calls (_run cfg wifi st attempts).2 <= 1)%nat /\
  bad_server_calls (_run_loop cfg true st attempts).2
    = match attempts with
      | a :: _ => if try_fails cfg a st then 1%nat else 0%nat
      | [] => 0%nat
      end /\
  (forall st', bad_server_calls (_run_loop cfg false st' attempts).2 = 0%nat) /\
  (forall a st', try_fails cfg a st' = true ->
     (run_pass cfg false a st').1.1 = Returned tt /\
     bad_server_calls (run_pass cfg false a st').2 = 0%nat).
Proof.
  refine (conj _ (conj (run_loop_calls cfg st attempts)
                       (conj (run_loop_later_quiet cfg attempts) _))).
  - pose proof (run_loop_calls cfg st attempts) as Hl.
    assert (Hle : (bad_server_calls (_run_loop cfg true st attempts).2 <= 1)%nat).
    { rewrite Hl. destruct attempts as [|a ?]; [lia|]. destruct (try_fails cfg a st); lia. }
    unfold _run. destruct (existsb id (take 4 wifi)); [exact Hle|].
    destruct (bad_wifi cfg); [cbn [snd]; count_calls; simpl; lia|].
    destruct (_run_loop cfg true st attempts) as [[o st'] acts].
    cbn [snd] in Hle |- *. count_calls. simpl. exact Hle.
  - intros a st' Hf. split; [apply run_pass_later_goes_on; exact Hf|].
    rewrite run_pass_calls. reflexivity.
Qed.

(** The server is down at the first attempt and again at the third: the
    hook, made to return by a subclass, is called once. *)
Example server_down_twice :
  let cfg := {| _my_id := B "dev1" ++ [nl]; _concb := true;
                bad_wifi := default_hook; bad_server := inr tt |} in
  let good := {| at_resolve := None; at_connect := None;
                 at_send := {| si_start := 0; si_script := [(Room 5, 1)] |};
                 at_fail := Some (B "reader fail"); at_linger := 0 |} in
  let down := {| at_resolve := None; at_connect := Some 111;
                 at_send := {| si_start := 0; si_script := [] |}; at_fail := None; at_linger := 0 |} in
  let r := _run cfg [false; true] (new_client 4000 None) [down; good; down] in
  r.1.1 = Blocked /\ bad_server_calls r.2 = 1%nat /\
  wire r.1.2 = B "dev1" ++ [nl] /\
  filter (fun a => match a with Concb _ | CallBadServer => true | _ => false end = true) r.2
    = [CallBadServer; Concb true; Concb false].
Proof. vm_compute. auto. Qed.

(** As written the hook raises, and the supervisor ends with its error. *)
Example server_down_default :
  let cfg := {| _my_id := B "dev1" ++ [nl]; _concb := false;
                bad_wifi := default_hook; bad_server := default_hook |} in
  let down := {| at_resolve := Some 2; at_connect := None;
                 at_send := {| si_start := 0; si_script := [] |}; at_fail := None; at_linger := 0 |} in
  let r := _run cfg [true] (new_client 4000 None) [down; down] in
  r.1.1 = Raised (OSError None) /\ bad_server_calls r.2 = 1%nat.
Proof. vm_compute. auto. Qed.

(** ** [write], [_write], [_do_qos] *)

(** A list of actions without the raw send of a line. *)
Ltac no_raw_send :=
  let l := fresh "l" in
  let H := fresh "H" in
  intros l H;
  first [ apply elem_of_nil in H; contradiction
        | apply list_elem_of_singleton in H; discriminate ].

Lemma run_send_cases line inp d ns start st :
  let r := run_send line inp d ns start st in
  _acks_pend r.1 = _acks_pend st /\ getmid r.1 = getmid st /\
  (forall e, r.2 = Exc e -> exists errno, e = OSError errno).
Proof.
  unfold run_send.
  pose proof (send_loop_raises (_to st) start (length line) (si_script inp) d ns) as Hr.
  destruct (s_out (_send_loop (_to st) start d ns (length line) (si_script inp)))
    as [[]|e|]; simpl; repeat split; auto; try discriminate.
  intros e' [= <-]. auto.
Qed.

Lemma locked_send_cases line inp st p :
  let r := locked_send line inp st p in
  _acks_pend r.1.1 = _acks_pend st /\ getmid r.1.1 = getmid st /\
  (forall e, r.1.2 = Exc e -> exists errno, e = OSError errno) /\
  (forall l, RawSend l ∈ r.2 -> l = line).
Proof.
  unfold locked_send. destruct p as [|d ns start].
  - destruct (_s_lock st); simpl.
    + repeat split; auto; [discriminate|no_raw_send].
    + destruct (run_send_cases line inp line 0%nat (si_start inp) (set_s_lock true st))
        as (H1 & H2 & H3).
      repeat split; auto. intros l Hl. apply list_elem_of_singleton in Hl. congruence.
  - simpl. destruct (run_send_cases line inp d ns start st) as (H1 & H2 & H3).
    repeat split; auto. no_raw_send.
Qed.

(** What [_write] leaves alone, the only line it sends, and that it never
    raises: the only exception the raw send lets out is [OSError], which it
    catches. *)
Lemma write_cases line inp st p :
  let r := _write line inp st p in
  _acks_pend r.1.1 = _acks_pend st /\ getmid r.1.1 = getmid st /\
  (forall e, r.1.2 <> Exc e) /\
  (forall l, RawSend l ∈ r.2 -> l = line).
Proof.
  unfold _write. destruct p as [|p|].
  - destruct (_ok st); simpl; repeat split; auto; try discriminate; no_raw_send.
  - destruct (locked_send_cases line inp st p) as (H1 & H2 & H3 & H4).
    destruct (locked_send line inp st p) as [[st' nx] acts]. simpl in *.
    destruct nx as [p'| |[errno|]]; simpl; repeat split; auto; try discriminate.
    destruct (H3 ValueError eq_refl) as [? H]. discriminate H.
  - destruct (_ok st); simpl; repeat split; auto; try discriminate; no_raw_send.
Qed.

(** The same of [_do_qos], which returns only at a poll that finds the
    identifier absent from the pending-ACK set. *)
Lemma do_qos_cases mid line inp st p :
  let r := _do_qos mid line inp st p in
  _acks_pend r.1.1 = _acks_pend st /\ getmid r.1.1 = getmid st /\
  (forall e, r.1.2 <> Exc e) /\
  (forall l, RawSend l ∈ r.2 -> l = line) /\
  (r.1.2 = Ret -> (exists i, p = QPoll i) /\ sb_contains mid (_acks_pend st) = false).
Proof.
  unfold _do_qos. destruct p as [|i|p].
  - destruct (_ok st); simpl; repeat split; auto; try discriminate; no_raw_send.
  - destruct (sb_contains mid (_acks_pend st)) eqn:Hp; simpl.
    + destruct (S i <? nms100)%nat; [|destruct (_ok st)]; simpl;
        repeat split; auto; try discriminate; no_raw_send.
    + repeat split; eauto; try discriminate; no_raw_send.
  - destruct (write_cases line inp st p) as (H1 & H2 & H3 & H4).
    destruct (_write line inp st p) as [[st' nx] acts]. simpl in *.
    destruct nx as [p'| |e]; simpl; repeat split; auto; try discriminate.
    exfalso. exact (H3 e eq_refl).
Qed.

(** What a transition of [write] leaves alone: its locals, the pending-ACK
    set and the identifier generator; and the only line it sends. *)
Lemma wstep_frame inp st t :
  let r := wstep inp st t in
  w_qos r.1.2 = w_qos t /\ w_mid r.1.2 = w_mid t /\ w_line r.1.2 = w_line t /\
  _acks_pend r.1.1 = _acks_pend st /\ getmid r.1.1 = getmid st /\
  (forall l, RawSend l ∈ r.2 -> l = w_line t).
Proof.
  unfold wstep. destruct (w_pc t) as [p|p| |e].
  - destruct (write_cases (w_line t) inp st p) as (H1 & H2 & _ & H4).
    destruct (_write (w_line t) inp st p) as [[st' nx] acts]. simpl in *.
    destruct nx as [p'| |e]; simpl; repeat split; auto.
  - destruct (do_qos_cases (w_mid t) (w_line t) inp st p) as (H1 & H2 & _ & H4 & _).
    destruct (_do_qos (w_mid t) (w_line t) inp st p) as [[st' nx] acts]. simpl in *.
    destruct nx as [p'| |e]; simpl; repeat split; auto.
  - simpl; repeat split; auto; no_raw_send.
  - simpl; repeat split; auto; no_raw_send.
Qed.

(** No transition of [write] raises. *)
Lemma wstep_never_raises inp st t :
  (forall e, w_pc t <> W_raised e) ->
  forall e, w_pc (wstep inp st t).1.2 <> W_raised e.
Proof.
  intros Hn e. unfold wstep. destruct (w_pc t) as [p|p| |e'] eqn:Hpc.
  - destruct (write_cases (w_line t) inp st p) as (_ & _ & H3 & _).
    destruct (_write (w_line t) inp st p) as [[st' nx] acts]. simpl in *.
    destruct nx as [p'| |e1]; simpl; try discriminate.
    + destruct (w_qos t); discriminate.
    + exfalso. exact (H3 e1 eq_refl).
  - destruct (do_qos_cases (w_mid t) (w_line t) inp st p) as (_ & _ & H3 & _).
    destruct (_do_qos (w_mid t) (w_line t) inp st p) as [[st' nx] acts]. simpl in *.
    destruct nx as [p'| |e1]; simpl; try discriminate.
    exfalso. exact (H3 e1 eq_refl).
  - simpl. rewrite Hpc. discriminate.
  - exfalso. eapply Hn. reflexivity.
Qed.

(** With [qos] set, the only transition into "returned" is a poll of
    [_do_qos] that finds the identifier absent from the pending-ACK set. *)
Lemma wstep_returns inp st t :
  w_qos t = true -> w_pc t <> W_returned ->
  w_pc (wstep inp st t).1.2 = W_returned ->
  is_poll (w_pc t) = true /\ pending (w_mid t) st = false.
Proof.
  intros Hq Hn. unfold wstep, pending. destruct (w_pc t) as [p|p| |e'] eqn:Hpc.
  - destruct (_write (w_line t) inp st p) as [[st' nx] acts]. simpl.
    destruct nx as [p'| |e1]; simpl; try discriminate. rewrite Hq. discriminate.
  - destruct (do_qos_cases (w_mid t) (w_line t) inp st p) as (_ & _ & _ & _ & H5).
    destruct (_do_qos (w_mid t) (w_line t) inp st p) as [[st' nx] acts]. simpl in *.
    destruct nx as [p'| |e1]; simpl; try discriminate.
    intros _. destruct (H5 eq_refl) as [[i ->] Hp]. auto.
  - contradiction.
  - simpl. rewrite Hpc. discriminate.
Qed.


Lemma wrun_cons u turns st t :
  wrun (u :: turns) st t
  = let r1 := wstep (w_inp u) (w_env u st) t in
    let r2 := wrun turns r1.1.1 r1.1.2 in
    (r2.1.1, r2.1.2, r1.2 ++ r2.2).
Proof.
  simpl. destruct (wstep (w_inp u) (w_env u st) t) as [[st1 t1] a1]. simpl.
  destruct (wrun turns st1 t1) as [[st2 t2] a2]. reflexivity.
Qed.

Lemma wseen_cons u turns st t :
  wseen (u :: turns) st t
  = w_env u st :: wseen turns (wstep (w_inp u) (w_env u st) t).1.1
                               (wstep (w_inp u) (w_env u st) t).1.2.
Proof.
  simpl. destruct (wstep (w_inp u) (w_env u st) t) as [[st1 t1] a1]. reflexivity.
Qed.


Lemma wrun_never_raises turns :
  forall st t, (forall e, w_pc t <> W_raised e) ->
  forall e, w_pc (wrun turns st t).1.2 <> W_raised e.
Proof.
  induction turns as [|u turns IH]; intros st t Hn e; [apply Hn|].
  rewrite wrun_cons. cbv zeta. simpl.
  apply IH. apply wstep_never_raises. exact Hn.
Qed.

Lemma wrun_returns turns :
  forall st t, w_qos t = true -> w_pc t <> W_returned ->
  w_pc (wrun turns st t).1.2 = W_returned ->
  exists turns1 u turns2,
    turns = turns1 ++ u :: turns2 /\
    is_poll (w_pc (wrun turns1 st t).1.2) = true /\
    pending (w_mid t) (w_env u (wrun turns1 st t).1.1) = false.
Proof.
  induction turns as [|u turns IH]; intros st t Hq Hn Hret; [contradiction|].
  rewrite wrun_cons in Hret. cbv zeta in Hret. simpl in Hret.
  set (r1 := wstep (w_inp u) (w_env u st) t) in *.
  destruct (wstep_frame (w_inp u) (w_env u st) t) as (H1 & H2 & _). fold r1 in H1, H2.
  assert (Hdec : w_pc r1.1.2 = W_returned \/ w_pc r1.1.2 <> W_returned)
    by (destruct (w_pc r1.1.2); auto; right; discriminate).
  destruct Hdec as [Hr|Hr].
  - destruct (wstep_returns (w_inp u) (w_env u st) t Hq Hn Hr) as [Hp Ha].
    exists [], u, turns. simpl. auto.
  - destruct (IH r1.1.1 r1.1.2) as (a & u' & b & -> & Hp & Ha); [congruence|exact Hr|exact Hret|].
    exists (u :: a), u', b. rewrite wrun_cons. cbv zeta. fold r1. simpl.
    rewrite <- H2. auto.
Qed.

Lemma wrun_blocks turns :
  forall st t, w_qos t = true -> w_pc t <> W_returned ->
  Forall (fun s => pending (w_mid t) s = true) (wseen turns st t) ->
  w_pc (wrun turns st t).1.2 <> W_returned.
Proof.
  induction turns as [|u turns IH]; intros st t Hq Hn Hall; [exact Hn|].
  rewrite wseen_cons in Hall. apply Forall_cons in Hall as [Hseen Hall].
  rewrite wrun_cons. cbv zeta. simpl.
  destruct (wstep_frame (w_inp u) (w_env u st) t) as (H1 & H2 & _).
  set (r1 := wstep (w_inp u) (w_env u st) t) in *.
  assert (Hdec : w_pc r1.1.2 = W_returned \/ w_pc r1.1.2 <> W_returned)
    by (destruct (w_pc r1.1.2); auto; right; discriminate).
  destruct Hdec as [Hr|Hr].
  - destruct (wstep_returns (w_inp u) (w_env u st) t Hq Hn Hr) as [_ Hp]. congruence.
  - apply IH; [congruence|exact Hr|]. rewrite H2. exact Hall.
Qed.

(** ** The pending-ACK set *)

Lemma sb_contains_add m mid s : sb_contains m (sb_add mid s) = (m =? mid) || sb_contains m s.
Proof.
  unfold sb_contains, sb_add. destruct (Z.eqb_spec m mid) as [->|Hne]; simpl.
  - apply bool_decide_eq_true_2. apply elem_of_union_l, elem_of_singleton. reflexivity.
  - apply bool_decide_ext. rewrite elem_of_union, elem_of_singleton. tauto.
Qed.

Lemma sb_contains_discard m mid s :
  sb_contains m (sb_discard mid s) = negb (m =? mid) && sb_contains m s.
Proof.
  unfold sb_contains, sb_discard. destruct (Z.eqb_spec m mid) as [->|Hne]; simpl.
  - apply bool_decide_eq_false_2. rewrite elem_of_difference, elem_of_singleton. tauto.
  - apply bool_decide_ext. rewrite elem_of_difference, elem_of_singleton. tauto.
Qed.

Lemma set_acks_pend_same st : set_acks_pend (_acks_pend st) st = st.
Proof. destruct st. reflexivity. Qed.

Lemma sb_discard_absent mid s : sb_contains mid s = false -> sb_discard mid s = s.
Proof.
  unfold sb_contains, sb_discard. intros H. apply bool_decide_eq_false_1 in H.
  apply set_eq. intros x. rewrite elem_of_difference, elem_of_singleton.
  split; [tauto|]. intros Hx. split; [exact Hx|]. intros ->. contradiction.
Qed.

(** An ACK line takes its identifier out of the set and does nothing else. *)
Lemma reader_frame_ack c line mid st :
  is_ack_for mid line = true ->
  reader_frame c line st = inr (set_acks_pend (sb_discard mid (_acks_pend st)) st).
Proof.
  unfold is_ack_for, reader_frame. intros H. apply andb_prop in H as [Hl Hi].
  destruct (int16 (take 2 line)) as [e|m]; [discriminate|].
  apply Z.eqb_eq in Hi as ->. rewrite Hl. reflexivity.
Qed.

(** Any other line leaves the set alone. *)
Lemma reader_frame_not_ack c line st st' :
  reader_frame c line st = inr st' -> (length line =? 3)%nat = false ->
  _acks_pend st' = _acks_pend st /\ getmid st' = getmid st.
Proof.
  unfold reader_frame. intros H Hl. rewrite Hl in H.
  destruct (int16 (take 2 line)) as [e|mid]; [discriminate|].
  destruct (ev_is_set (_evread st)); [injection H as <-; auto|].
  destruct (mid =? 0);
    match type of H with context [isnew ?a ?b] => destruct (isnew a b) as [[[|]|] lst] end;
    simpl in H;
    match type of H with context [c =? ?x] => destruct (c =? x) end;
    injection H as <-; auto.
Qed.

Lemma reader_frame_pending c line st st' m :
  reader_frame c line st = inr st' ->
  pending m st' = if is_ack_for m line then false else pending m st.
Proof.
  intros H. unfold pending, is_ack_for.
  destruct (length line =? 3)%nat eqn:Hl; simpl.
  - destruct (int16 (take 2 line)) as [e|mid] eqn:Hi.
    + unfold reader_frame in H. rewrite Hi in H. discriminate.
    + rewrite (reader_frame_ack c line mid st) in H
        by (unfold is_ack_for; rewrite Hl, Hi, Z.eqb_refl; reflexivity).
      injection H as <-. simpl. rewrite sb_contains_discard.
      rewrite (Z.eqb_sym mid m). destruct (m =? mid); reflexivity.
  - destruct (reader_frame_not_ack c line st st' H Hl) as [-> _]. reflexivity.
Qed.

Lemma outstanding_app_acts mid i m acts tr :
  outstanding mid (rev (map (LAct i m) acts) ++ tr) = outstanding mid tr.
Proof.
  induction acts as [|a acts IH] using rev_ind; [reflexivity|].
  rewrite map_app, rev_app_distr. simpl. exact IH.
Qed.

(** The pending-ACK set is what the record says: the identifiers registered
    by a call of [write] for which no ACK line was handled since. *)
Lemma sys_step_pending e s :
  (forall mid, pending mid (sy_cl s) = outstanding mid (sy_trace s)) ->
  forall mid, pending mid (sy_cl (sys_step e s)) = outstanding mid (sy_trace (sys_step e s)).
Proof.
  intros Inv mid. destruct e as [buf qos|i inp|c line|f]; simpl.
  - unfold pending. simpl. rewrite sb_contains_add.
    rewrite (Z.eqb_sym mid). destruct (gmid_next (getmid (sy_cl s)) =? mid); simpl; [reflexivity|].
    apply Inv.
  - destruct (sy_tasks s !! i) as [t|]; [|apply Inv].
    destruct (wstep_frame inp (sy_cl s) t) as (_ & _ & _ & Hp & _).
    destruct (wstep inp (sy_cl s) t) as [[st t'] acts]. simpl in *.
    rewrite outstanding_app_acts. unfold pending. rewrite Hp. apply Inv.
  - destruct (reader_frame c line (sy_cl s)) as [e|st] eqn:Hr; [apply Inv|].
    simpl. rewrite (reader_frame_pending c line (sy_cl s) st mid Hr).
    destruct (is_ack_for mid line); [reflexivity|apply Inv].
  - apply Inv.
Qed.

Lemma acked_after_app i mid new tr : acked_after i mid tr -> acked_after i mid (new ++ tr).
Proof.
  intros (tr1 & ack & tr2 & line & -> & Ha & Hw).
  exists (new ++ tr1), ack, tr2, line. rewrite <- app_assoc. auto.
Qed.

Lemma acked_after_cons i mid l tr : acked_after i mid tr -> acked_after i mid (l :: tr).
Proof. apply (acked_after_app i mid [l]). Qed.

(** An identifier registered on record and not outstanding has had an ACK
    line handled after that registration. *)
Lemma not_outstanding_acked i mid line tr :
  outstanding mid tr = false -> LWrite i mid line ∈ tr -> acked_after i mid tr.
Proof.
  induction tr as [|l tr IH]; intros Ho Hin; [apply elem_of_nil in Hin; contradiction|].
  apply elem_of_cons in Hin. destruct l as [j m ln|j m a|ln]; simpl in Ho.
  - destruct (Z.eqb_spec m mid) as [->|Hne]; [discriminate|].
    destruct Hin as [Hin|Hin]; [congruence|].
    apply acked_after_cons, IH; assumption.
  - destruct Hin as [Hin|Hin]; [discriminate|].
    apply acked_after_cons, IH; assumption.
  - destruct Hin as [Hin|Hin]; [discriminate|].
    destruct (is_ack_for mid ln) eqn:Ha.
    + exists [], ln, tr, line. auto.
    + apply acked_after_cons, IH; assumption.
Qed.

Lemma sends_registered_acts i mid line acts tr :
  (forall l, RawSend l ∈ acts -> l = line) ->
  LWrite i mid line ∈ tr -> sends_registered tr ->
  sends_registered (rev (map (LAct i mid) acts) ++ tr).
Proof.
  intros Hl Hw Hs. induction acts as [|a acts IH] using rev_ind; [exact Hs|].
  rewrite map_app, rev_app_distr. simpl.
  assert (IH' : sends_registered (rev (map (LAct i mid) acts) ++ tr)).
  { apply IH. intros l Hin. apply Hl. apply elem_of_app. auto. }
  destruct a as [ms|l]; [exact IH'|].
  split; [|exact IH'].
  rewrite (Hl l) by (apply elem_of_app; right; apply list_elem_of_singleton; reflexivity).
  apply elem_of_app. auto.
Qed.

Lemma sys_init_inv st : sys_inv (sys_init st).
Proof.
  unfold sys_inv, sys_init. simpl.
  refine (conj _ (conj _ (conj I (conj _ _)))); try discriminate.
  intros mid. unfold pending, sb_contains. simpl.
  apply bool_decide_eq_false_2. apply not_elem_of_empty.
Qed.

Lemma sys_step_inv e s : sys_inv s -> sys_inv (sys_step e s).
Proof.
  intros Inv. pose proof (sys_step_pending e s) as Hpend.
  destruct Inv as (I1 & I2 & I3 & I4 & I5). specialize (Hpend I1).
  split; [exact Hpend|]. clear Hpend.
  destruct e as [buf qos|j inp|c line|f]; simpl.
  - (* a new call of write *)
    refine (conj _ (conj I3 (conj _ _))).
    + intros i t Hi. apply lookup_snoc_Some in Hi as [[_ Hi]|[-> <-]].
      * apply list_elem_of_further. auto.
      * apply list_elem_of_here.
    + intros i t Hi Hq Hr. apply lookup_snoc_Some in Hi as [[_ Hi]|[-> <-]].
      * apply acked_after_cons. auto.
      * discriminate Hr.
    + intros i t Hi. apply lookup_snoc_Some in Hi as [[_ Hi]|[-> <-]]; [eauto|discriminate].
  - (* a call of write is resumed *)
    destruct (sy_tasks s !! j) as [t|] eqn:Hj; [|auto].
    destruct (wstep_frame inp (sy_cl s) t) as (Hq & Hm & Hl & _ & _ & Hraw).
    pose proof (wstep_returns inp (sy_cl s) t) as Hret.
    pose proof (wstep_never_raises inp (sy_cl s) t (I5 j t Hj)) as Hnr.
    destruct (wstep inp (sy_cl s) t) as [[st t'] acts]. simpl in *.
    refine (conj _ (conj _ (conj _ _))).
    + intros i t0 Hi. apply elem_of_app. right.
      apply list_lookup_insert_Some in Hi as [(<- & <- & _)|[_ Hi]]; [|auto].
      rewrite Hm, Hl. auto.
    + apply (sends_registered_acts j (w_mid t) (w_line t)); auto.
    + intros i t0 Hi Hq0 Hr0. apply acked_after_app.
      apply list_lookup_insert_Some in Hi as [(<- & <- & _)|[_ Hi]]; [|auto].
      rewrite Hm. rewrite Hq in Hq0.
      assert (Hdec : w_pc t = W_returned \/ w_pc t <> W_returned)
        by (destruct (w_pc t); auto; right; discriminate).
      destruct Hdec as [Hr|Hr]; [auto|].
      destruct (Hret Hq0 Hr Hr0) as [_ Hp].
      apply (not_outstanding_acked j (w_mid t) (w_line t)); [|auto].
      rewrite <- I1. exact Hp.
    + intros i t0 Hi. apply list_lookup_insert_Some in Hi as [(<- & <- & _)|[_ Hi]]; eauto.
  - (* the reader handles a line *)
    destruct (reader_frame c line (sy_cl s)) as [e|st]; [auto|]. simpl.
    refine (conj _ (conj I3 (conj _ I5))).
    + intros i t Hi. apply list_elem_of_further. auto.
    + intros i t Hi Hq Hr. apply acked_after_cons. auto.
  - auto.
Qed.

Lemma sys_run_inv events : forall s, sys_inv s -> sys_inv (sys_run events s).
Proof.
  induction events as [|e events IH]; intros s Inv; [exact Inv|].
  simpl. apply IH, sys_step_inv, Inv.
Qed.

Lemma outstanding_true mid tr :
  outstanding mid tr = true ->
  exists tr1 i line tr2, tr = tr1 ++ LWrite i mid line :: tr2 /\ no_ack_in mid tr1.
Proof.
  induction tr as [|l tr IH]; intros Ho; [discriminate|].
  destruct l as [j m ln|j m a|ln]; simpl in Ho.
  - destruct (Z.eqb_spec m mid) as [->|Hne].
    + exists [], j, ln, tr. split; [reflexivity|]. intros x Hx.
      apply elem_of_nil in Hx. contradiction.
    + destruct (IH Ho) as (tr1 & i & line & tr2 & -> & Hn).
      exists (LWrite j m ln :: tr1), i, line, tr2. split; [reflexivity|].
      intros x Hx. apply elem_of_cons in Hx as [Hx|Hx]; [discriminate|auto].
  - destruct (IH Ho) as (tr1 & i & line & tr2 & -> & Hn).
    exists (LAct j m a :: tr1), i, line, tr2. split; [reflexivity|].
    intros x Hx. apply elem_of_cons in Hx as [Hx|Hx]; [discriminate|auto].
  - destruct (is_ack_for mid ln) eqn:Ha; [discriminate|].
    destruct (IH Ho) as (tr1 & i & line & tr2 & -> & Hn).
    exists (LLine ln :: tr1), i, line, tr2. split; [reflexivity|].
    intros x Hx. apply elem_of_cons in Hx as [Hx|Hx]; [congruence|auto].
Qed.

Lemma outstanding_false mid tr :
  outstanding mid tr = false ->
  no_write_in mid tr \/
  exists tr1 ack tr2, tr = tr1 ++ LLine ack :: tr2 /\ is_ack_for mid ack = true /\
                      no_write_in mid tr1.
Proof.
  induction tr as [|l tr IH]; intros Ho.
  - left. intros i line Hin. apply elem_of_nil in Hin. contradiction.
  - destruct l as [j m ln|j m a|ln]; simpl in Ho.
    + destruct (Z.eqb_spec m mid) as [->|Hne]; [discriminate|].
      destruct (IH Ho) as [Hn|(tr1 & ack & tr2 & -> & Ha & Hn)].
      * left. intros i line Hin. apply elem_of_cons in Hin as [Hin|Hin]; [congruence|].
        exact (Hn i line Hin).
      * right. exists (LWrite j m ln :: tr1), ack, tr2. repeat split; auto.
        intros i line Hin. apply elem_of_cons in Hin as [Hin|Hin]; [congruence|].
        exact (Hn i line Hin).
    + destruct (IH Ho) as [Hn|(tr1 & ack & tr2 & -> & Ha & Hn)].
      * left. intros i line Hin. apply elem_of_cons in Hin as [Hin|Hin]; [discriminate|].
        exact (Hn i line Hin).
      * right. exists (LAct j m a :: tr1), ack, tr2. repeat split; auto.
        intros i line Hin. apply elem_of_cons in Hin as [Hin|Hin]; [discriminate|].
        exact (Hn i line Hin).
    + destruct (is_ack_for mid ln) eqn:Ha.
      * right. exists [], ln, tr. repeat split; auto.
        intros i line Hin. apply elem_of_nil in Hin. contradiction.
      * destruct (IH Ho) as [Hn|(tr1 & ack & tr2 & -> & Ha' & Hn)].
        -- left. intros i line Hin. apply elem_of_cons in Hin as [Hin|Hin]; [discriminate|].
           exact (Hn i line Hin).
        -- right. exists (LLine ln :: tr1), ack, tr2. repeat split; auto.
           intros i line Hin. apply elem_of_cons in Hin as [Hin|Hin]; [discriminate|].
           exact (Hn i line Hin).
Qed.

(** ** The rounds of [_do_qos] *)








(** The scenario of the specification: the link is up, the server never
    acknowledges identifier 1.  After the first transmission come ten pauses
    of 100 ms and the same line again; an ACK seen at the next poll ends the
    call, and nothing more is sent. *)
Example unacked_line_is_resent :
  let st0 := set_ok true (new_client 4000 None) in
  let idle := {| w_env := fun st => st;
                 w_inp := {| si_start := 0; si_script := [(Room 100, 1)] |} |} in
  let acked := {| w_env := fun st => set_acks_pend (sb_discard 1 (_acks_pend st)) st;
                  w_inp := {| si_start := 0; si_script := [] |} |} in
  let line := B "01hi" ++ [nl] in
  let r := wrun (replicate 16 idle) (write (B "hi") true st0).1 (write (B "hi") true st0).2 in
  let r' := wrun [acked; idle; idle] r.1.1 r.1.2 in
  w_line r.1.2 = line /\
  r.2 = [RawSend line] ++ replicate 10 (Sleep 100) ++ [RawSend line; Sleep 100] /\
  wire r.1.1 = line ++ line /\ w_pc r.1.2 = InQos (QPoll 0) /\
  w_pc r'.1.2 = W_returned /\ r'.2 = [] /\ wire r'.1.1 = line ++ line.
Proof. vm_compute. auto 8. Qed.

(** ** A call of [write] and the pending-ACK set *)

Lemma write_registers buf qos st :
  pending (w_mid (write buf qos st).2) (write buf qos st).1 = true /\
  wire (write buf qos st).1 = wire st /\
  w_pc (write buf qos st).2 = InWrite WaitUp /\
  w_qos (write buf qos st).2 = qos.
Proof.
  unfold pending. simpl. rewrite sb_contains_add, Z.eqb_refl. auto.
Qed.

Lemma sends_registered_in tr i mid line :
  sends_registered tr -> LAct i mid (RawSend line) ∈ tr -> LWrite i mid line ∈ tr.
Proof.
  induction tr as [|l tr IH]; intros Hs Hin; [apply elem_of_nil in Hin; contradiction|].
  apply elem_of_cons in Hin as [<-|Hin].
  - simpl in Hs. apply list_elem_of_further. apply Hs.
  - apply list_elem_of_further. apply IH; [|exact Hin].
    destruct l as [j m ln|j m [ms|ln]|ln]; simpl in Hs; tauto.
Qed.

Lemma never_written_never_sent mid tr :
  sends_registered tr -> no_write_in mid tr -> transmitted mid tr = false.
Proof.
  intros Hs Hn. unfold transmitted.
  destruct (existsb _ tr) eqn:E; [|reflexivity].
  apply existsb_exists in E as (l & Hin & Hl).
  destruct l as [j m ln|j m [ms|ln]|ln]; try discriminate.
  apply Z.eqb_eq in Hl as ->. apply list_elem_of_In in Hin.
  exfalso. exact (Hn j ln (sends_registered_in tr j mid ln Hs Hin)).
Qed.

(** C1.  A call [write(buf, qos=True)] registers its identifier and then, in
    any environment (whatever the other coroutines make of the link, the
    lock, the socket and the pending-ACK set between its transitions), never
    raises, and returns only at a poll of [_do_qos] that finds the identifier
    absent from the pending-ACK set; as long as it finds the identifier
    pending it does not return.  With the reader as the only coroutine that
    takes identifiers out of the set, a call that has returned has had an ACK
    line for its identifier handled after it registered it. *)
Theorem C1_qos_write_blocks_until_acked (buf : bytes) (st0 : Client) (turns : list wturn) :
  let st1 := (write buf true st0).1 in
  let t0 := (write buf true st0).2 in
  let r := wrun turns st1 t0 in
  pending (w_mid t0) st1 = true /\
  (forall e, w_pc r.1.2 <> W_raised e) /\
  (w_pc r.1.2 = W_returned ->
     exists turns1 u turns2,
       turns = turns1 ++ u :: turns2 /\
       is_poll (w_pc (wrun turns1 st1 t0).1.2) = true /\
       pending (w_mid t0) (w_env u (wrun turns1 st1 t0).1.1) = false) /\
  (Forall (fun s => pending (w_mid t0) s = true) (wseen turns st1 t0) ->
     w_pc r.1.2 <> W_returned) /\
  (forall events st i t,
     sy_tasks (sys_run events (sys_init st)) !! i = Some t -> w_qos t = true ->
     (forall e, w_pc t <> W_raised e) /\
     (w_pc t = W_returned ->
        acked_after i (w_mid t) (sy_trace (sys_run events (sys_init st))))).
Proof.
  intros st1 t0 r.
  destruct (write_registers buf true st0) as (Hreg & _ & Hpc & Hq).
  fold st1 t0 in Hreg, Hpc, Hq.
  assert (Hn : w_pc t0 <> W_returned) by (rewrite Hpc; discriminate).
  refine (conj Hreg (conj _ (conj _ (conj _ _)))).
  - apply wrun_never_raises. intros e. rewrite Hpc. discriminate.
  - apply wrun_returns; assumption.
  - apply wrun_blocks; assumption.
  - intros events st i t Hi Hqt.
    destruct (sys_run_inv events (sys_init st) (sys_init_inv st)) as (_ & _ & _ & I4 & I5).
    split; [exact (I5 i t Hi)|]. intros Hr. exact (I4 i t Hi Hqt Hr).
Qed.

(** A call across an outage: the first raw send fails, the supervisor marks
    the link down and up again, the line goes out, the ACK comes in, and only
    then has the call returned. *)
Example write_across_outage :
  let up b := EOther (set_ok b) in
  let broken := {| si_start := 0; si_script := [(SendErr 104, 1)] |} in
  let fine := {| si_start := 0; si_script := [(Room 2, 10); (Room 9, 35)] |} in
  let go := EWriter 0 fine in
  let sent := [EWrite (B "hi") true; go; up true; go; EWriter 0 broken; go;
               up false; go; up true; go; go; go] in
  let s1 := sys_run sent (sys_init (new_client 4000 None)) in
  let s2 := sys_run [go; go; EFrame 0 (B "01" ++ [nl]); go] s1 in
  (w_pc <$> sy_tasks s1 !! 0%nat) = Some (InQos (QPoll 0)) /\
  wire (sy_cl s1) = B "01hi" ++ [nl] /\
  _evfail (sy_cl s1) = Some (B "writer fail") /\
  pending 1 (sy_cl s1) = true /\
  (w_pc <$> sy_tasks s2 !! 0%nat) = Some W_returned /\
  pending 1 (sy_cl s2) = false /\
  wire (sy_cl s2) = B "01hi" ++ [nl].
Proof. vm_compute. auto 8. Qed.

(** C6 (as stated) fails: [write] has registered identifier 1 and waits for
    the link to come up; the identifier is in the set and no line carrying it
    has been handed to the socket. *)
Lemma C6_pending_before_sent :
  ~ (forall st0 events mid,
       pending mid (sy_cl (sys_run events (sys_init st0))) = true ->
       transmitted mid (sy_trace (sys_run events (sys_init st0))) = true).
Proof.
  intros H.
  specialize (H (new_client 4000 None)
                [EWrite (B "x") true; EWriter 0 {| si_start := 0; si_script := [] |}]
                1 eq_refl).
  vm_compute in H. discriminate H.
Qed.

(** C6 (amended).  [write] puts its identifier in the pending-ACK set before
    anything is sent, and every raw send of a call comes after that
    registration.  An ACK line (three bytes, decoding to the identifier)
    takes the identifier out and does nothing else; if the identifier is not
    in the set the client is unchanged.  Hence at all times the set holds
    exactly the identifiers that a call of [write] has registered (sent or
    still waiting to be sent) and for which no ACK line was handled since; an
    identifier not in the set was never registered, and then never sent, or
    an ACK line for it was handled after its last registration. *)
Theorem C6_pending_ack_set (st0 : Client) (events : list sys_event) :
  let s := sys_run events (sys_init st0) in
  (forall buf qos st,
     pending (w_mid (write buf qos st).2) (write buf qos st).1 = true /\
     wire (write buf qos st).1 = wire st) /\
  sends_registered (sy_trace s) /\
  (forall mid, pending mid (sy_cl s) = outstanding mid (sy_trace s)) /\
  (forall mid, pending mid (sy_cl s) = true ->
     exists tr1 i line tr2,
       sy_trace s = tr1 ++ LWrite i mid line :: tr2 /\ no_ack_in mid tr1) /\
  (forall mid, pending mid (sy_cl s) = false ->
     (no_write_in mid (sy_trace s) /\ transmitted mid (sy_trace s) = false) \/
     exists tr1 ack tr2,
       sy_trace s = tr1 ++ LLine ack :: tr2 /\ is_ack_for mid ack = true /\
       no_write_in mid tr1) /\
  (forall c line mid st,
     is_ack_for mid line = true ->
     reader_frame c line st = inr (set_acks_pend (sb_discard mid (_acks_pend st)) st)) /\
  (forall c line mid st,
     is_ack_for mid line = true -> pending mid st = false ->
     reader_frame c line st = inr st).
Proof.
  intros s.
  destruct (sys_run_inv events (sys_init st0) (sys_init_inv st0)) as (I1 & _ & I3 & _).
  fold s in I1, I3.
  refine (conj _ (conj I3 (conj I1 (conj _ (conj _ (conj reader_frame_ack _)))))).
  - intros buf qos st. destruct (write_registers buf qos st) as (H1 & H2 & _). auto.
  - intros mid Hp. rewrite I1 in Hp. apply outstanding_true. exact Hp.
  - intros mid Hp. rewrite I1 in Hp.
    destruct (outstanding_false mid (sy_trace s) Hp) as [Hn|Hex]; [left|right; exact Hex].
    split; [exact Hn|]. apply never_written_never_sent; assumption.
  - intros c line mid st Ha Hp. rewrite (reader_frame_ack c line mid st Ha).
    unfold pending in Hp. rewrite (sb_discard_absent mid _ Hp), set_acks_pend_same.
    reflexivity.
Qed.

(** * Further properties *)

(** ** The raw send *)

(** What [_send] does depends only on the part of the script it uses. *)
Lemma send_loop_prefix to start nts script extra :
  forall d ns,
  s_out (_send_loop to start d ns nts script) <> Blocked ->
  _send_loop to start d ns nts (script ++ extra) = _send_loop to start d ns nts script.
Proof.
  induction script as [|[[c|e] now] script IH]; intros d ns H.
  - destruct (ns <? nts)%nat eqn:E.
    + rewrite send_loop_nil in H by exact E. simpl in H. congruence.
    + rewrite !send_loop_done by exact E. reflexivity.
  - destruct (ns <? nts)%nat eqn:E.
    + change (((Room c, now) :: script) ++ extra) with ((Room c, now) :: (script ++ extra)).
      rewrite send_loop_room in H by exact E.
      rewrite !send_loop_room by exact E. cbv zeta in *.
      destruct (ticks_diff now start >? to); [reflexivity|].
      simpl in H. rewrite IH by exact H. reflexivity.
    + rewrite !send_loop_done by exact E. reflexivity.
  - destruct (ns <? nts)%nat eqn:E.
    + change (((SendErr e, now) :: script) ++ extra) with ((SendErr e, now) :: (script ++ extra)).
      rewrite !send_loop_err by exact E. reflexivity.
    + rewrite !send_loop_done by exact E. reflexivity.
Qed.

(** While [_send] is under way, the bytes the socket took and the local [d]
    make up the line, and [ns] counts the bytes taken. *)
Lemma send_loop_rest to start nts script :
  forall d ns,
  s_out (_send_loop to start d ns nts script) = Blocked ->
  d = s_sent (_send_loop to start d ns nts script) ++ s_d (_send_loop to start d ns nts script) /\
  s_ns (_send_loop to start d ns nts script)
  = (ns + length (s_sent (_send_loop to start d ns nts script)))%nat.
Proof.
  induction script as [|[[c|e] now] script IH]; intros d ns.
  - destruct (ns <? nts)%nat eqn:E.
    + rewrite send_loop_nil by exact E. simpl. intros _. split; [reflexivity|lia].
    + rewrite send_loop_done by exact E. discriminate.
  - destruct (ns <? nts)%nat eqn:E.
    + rewrite send_loop_room by exact E. cbv zeta.
      destruct (ticks_diff now start >? to); [discriminate|].
      destruct (ns + Nat.min c (length d) <? nts)%nat eqn:E'.
      * simpl. intros H. destruct (IH _ _ H) as [H1 H2].
        rewrite H2, <- app_assoc, <- H1, take_drop. split; [reflexivity|].
        rewrite length_app, length_take. lia.
      * simpl. rewrite send_loop_done by exact E'. discriminate.
    + rewrite send_loop_done by exact E. discriminate.
  - destruct (ns <? nts)%nat eqn:E.
    + rewrite send_loop_err by exact E. discriminate.
    + rewrite send_loop_done by exact E. discriminate.
Qed.

(** X1. The raw send always ends: when each pass of its loop takes the 20 ms
    of its pause or more, [_send] returns or raises within [to / 20 + 1]
    calls of [sock.send], whatever the socket does. *)
Theorem send_ends_within_timeout (to start : Z) (d : bytes) (script : list send_step) :
  0 <= to ->
  (forall k s now, script !! k = Some (s, now) ->
                   20 * Z.of_nat (S k) <= ticks_diff now start) ->
  to / 20 < Z.of_nat (length script) ->
  s_out (_send to start d script) <> Blocked /\
  Z.of_nat (s_used (_send to start d script)) <= to / 20 + 1.
Proof.
  intros Hto Hpace Hlen.
  pose proof (Z.div_pos to 20 Hto ltac:(lia)) as Hq.
  set (n := Z.to_nat (to / 20 + 1)).
  assert (Hn : (n <= length script)%nat) by (subst n; lia).
  assert (Hpre : s_out (_send to start d (take n script)) <> Blocked).
  { apply send_ends; [exact Hto| |].
    - intros k s now Hk. apply (Hpace k s now).
      apply lookup_take_Some in Hk. tauto.
    - rewrite length_take. subst n. lia. }
  unfold _send in *. rewrite <- (take_drop n script).
  rewrite send_loop_prefix by exact Hpre.
  split; [exact Hpre|].
  pose proof (send_loop_spec to start (length d) (take n script) d 0%nat eq_refl) as (_ & Hu & _).
  rewrite length_take in Hu. subst n. lia.
Qed.

Lemma send_ends_within_timeout_witness :
  let script := [(Room 1, 20); (Room 1, 40); (Room 1, 60); (Room 1, 80); (Room 1, 100);
                 (Room 1, 120)] in
  let r := _send 100 0 (B "0123456789") script in
  s_out r = Raised (OSError None) /\ s_sent r = B "012345" /\
  s_out r <> Blocked /\ Z.of_nat (s_used r) <= 100 / 20 + 1.
Proof.
  split; [reflexivity|]. split; [reflexivity|].
  apply (send_ends_within_timeout 100 0 (B "0123456789")); [lia| |reflexivity].
  intros k s now Hk.
  do 6 (destruct k as [|k]; [injection Hk as <- <-; vm_compute; discriminate|]).
  discriminate.
Defined.

(** X2. A partial write is resumed where the socket stopped: for a line of
    ASCII text, while [_send] is under way, the bytes taken so far followed
    by the local [d] are the line, [ns] is the number of bytes taken, and
    [d] is not empty. *)
Theorem send_resumes_where_stopped (to start : Z) (d : bytes) (script : list send_step) :
  is_ascii d = true ->
  s_out (_send_str to start d script) = Blocked ->
  d = s_sent (_send_str to start d script) ++ s_d (_send_str to start d script) /\
  s_ns (_send_str to start d script) = length (s_sent (_send_str to start d script)) /\
  s_d (_send_str to start d script) <> [].
Proof.
  intros Hd. rewrite (send_str_ascii to start d script Hd).
  intros H. unfold _send in *.
  destruct (send_loop_rest _ _ _ _ _ _ H) as [H1 H2].
  split; [exact H1|]. split; [exact H2|].
  pose proof (send_loop_spec to start (length d) script d 0%nat eq_refl) as (_ & _ & _ & _ & _ & Hb).
  destruct (Hb H) as [_ Hne]. intros Hnil. rewrite Hnil, app_nil_r in H1. congruence.
Qed.

Lemma send_resumes_where_stopped_witness :
  let r := _send_str 1000 0 (B "01hello") [(Room 3, 5); (Room 2, 30)] in
  s_out r = Blocked /\ s_sent r = B "01hel" /\ s_d r = B "lo" /\
  B "01hello" = s_sent r ++ s_d r /\ s_ns r = length (s_sent r) /\ s_d r <> [].
Proof.
  split; [reflexivity|]. split; [reflexivity|]. split; [reflexivity|].
  apply (send_resumes_where_stopped 1000 0 (B "01hello")); reflexivity.
Defined.

(** ** The line reader *)

(** X3. Partial reads are joined into a line: when the data of a line comes
    in several reads (with passes in between at which nothing is received),
    no read finds the link closed and every check is within the timeout,
    [_readline] returns the reads joined in order as soon as they end with
    the newline, marks the link healthy, and has paused once for every pass
    without data. *)
Theorem readline_joins_reads (st : Client) (s0 : read_step) (rest : list read_step) :
  Forall (fun s => rs_read s <> Some [] /\
                   ticks_diff (rs_check s) (rs_top s0) <= _to st) (s0 :: rest) ->
  (forall k, (k < length (s0 :: rest))%nat ->
             endswith_nl (joined (take k (s0 :: rest))) = false) ->
  endswith_nl (joined (s0 :: rest)) = true ->
  (1 < length (joined (s0 :: rest)))%nat ->
  _readline st (s0 :: rest)
  = {| r_out := Returned (joined (s0 :: rest)); r_st := set_ok true st;
       r_rest := []; r_sleeps := idle_passes (s0 :: rest) |}.
Proof.
  intros Hs Hpre Hend Hlen. unfold _readline.
  apply (readline_loop_joins (s0 :: rest) st {| rl_line := []; rl_start := rs_top s0 |});
    assumption.
Qed.

Lemma readline_joins_reads_witness :
  let st := new_client 1000 None in
  let s0 := {| rs_top := 0; rs_read := Some (B "01a"); rs_check := 10 |} in
  let rest := [ {| rs_top := 10; rs_read := None; rs_check := 110 |};
                {| rs_top := 110; rs_read := Some (B "b" ++ [nl]); rs_check := 120 |} ] in
  _readline st (s0 :: rest)
  = {| r_out := Returned (B "01ab" ++ [nl]); r_st := set_ok true st;
       r_rest := []; r_sleeps := 1 |}.
Proof.
  intros st s0 rest.
  apply (readline_joins_reads st s0 rest).
  - repeat constructor; try discriminate; vm_compute; discriminate.
  - intros k Hk.
    do 3 (destruct k as [|k]; [vm_compute; reflexivity|]).
    simpl in Hk. lia.
  - vm_compute. reflexivity.
  - simpl. lia.
Defined.

Lemma readline_keeps_refl st : readline_keeps st st.
Proof. unfold readline_keeps. tauto. Qed.

Lemma readline_keeps_trans st1 st2 st3 :
  readline_keeps st1 st2 -> readline_keeps st2 st3 -> readline_keeps st1 st3.
Proof. unfold readline_keeps. intuition congruence. Qed.

Lemma rl_head_keeps now st l : readline_keeps st (rl_head now st l).1.
Proof.
  unfold rl_head, readline_keeps.
  destruct (endswith_nl (rl_line l)); [|simpl; tauto].
  destruct (1 <? length (rl_line l))%nat; [simpl; tauto|].
  simpl. destruct (_led st); simpl; tauto.
Qed.

Lemma readline_loop_keeps script :
  forall st l, readline_keeps st (r_st (_readline_loop st l script)).
Proof.
  induction script as [|s script IH]; intros st l.
  - simpl. pose proof (rl_head_keeps (rl_start l) st l) as H.
    destruct (rl_head (rl_start l) st l) as [st' [line|l']]; exact H.
  - cbn [_readline_loop]. pose proof (rl_head_keeps (rs_top s) st l) as H.
    destruct (rl_head (rs_top s) st l) as [st' [line|l']]; [exact H|].
    destruct (rl_tail (_to st') s l') as [e|[l'' slept]]; [exact H|].
    unfold read_slept. simpl. eapply readline_keeps_trans; [exact H|apply IH].
Qed.

(** ** The framed reader *)



Lemma reader_frame_keeps c line st st' :
  reader_frame c line st = inr st' ->
  _evfail st' = _evfail st /\ _to st' = _to st /\ _ok st' = _ok st /\ wire st' = wire st /\
  ((created st' = created st /\ connects st' = connects st) \/
   (exists mid, created st' = created st ++ [SendAck mid] /\
                connects st' = if c =? connects st then connects st + 1 else connects st)).
Proof.
  unfold reader_frame. destruct (int16 (take 2 line)) as [e|mid]; [discriminate|].
  destruct (length line =? 3)%nat.
  { intros [= <-]. simpl. tauto. }
  destruct (ev_is_set (_evread st)).
  { intros [= <-]. tauto. }
  destruct (isnew mid _) as [new lst] eqn:En.
  intros [= <-].
  refine (conj _ (conj _ (conj _ (conj _ (or_intror (ex_intro _ mid _)))))).
  - destruct new as [[]|], (mid =? 0); simpl; destruct (c =? connects st); reflexivity.
  - destruct new as [[]|], (mid =? 0); simpl; destruct (c =? connects st); reflexivity.
  - destruct new as [[]|], (mid =? 0); simpl; destruct (c =? connects st); reflexivity.
  - destruct new as [[]|], (mid =? 0); simpl; destruct (c =? connects st); reflexivity.
  - destruct new as [[]|], (mid =? 0); simpl; destruct (c =? connects st); split; reflexivity.
Qed.





Lemma reader_loop_counts fuel c st0 :
  forall st script,
  (created st = created st0 /\ connects st = c) \/
  (exists mid more, created st = created st0 ++ SendAck mid :: more /\ connects st = c + 1) ->
  (created (_reader_loop fuel c st script).2 = created st0 /\
   connects (_reader_loop fuel c st script).2 = c) \/
  (exists mid more, created (_reader_loop fuel c st script).2 = created st0 ++ SendAck mid :: more /\
                    connects (_reader_loop fuel c st script).2 = c + 1).
Proof.
  induction fuel as [|fuel IH]; intros st script Hinv; [exact Hinv|].
  cbn [_reader_loop]. cbv zeta.
  pose proof (readline_loop_keeps script st
                {| rl_line := []; rl_start := match script with s :: _ => rs_top s | [] => 0 end |})
    as (_ & _ & _ & _ & Hc & _ & _ & _ & Hcr & _).
  fold (_readline st script) in Hc, Hcr.
  assert (Hinv' :
    (created (r_st (_readline st script)) = created st0 /\
     connects (r_st (_readline st script)) = c) \/
    (exists mid more, created (r_st (_readline st script)) = created st0 ++ SendAck mid :: more /\
                      connects (r_st (_readline st script)) = c + 1)).
  { rewrite Hc, Hcr. exact Hinv. }
  clear Hinv Hc Hcr.
  destruct (r_out (_readline st script)) as [line|[errno|]|]; try exact Hinv'.
  destruct (reader_frame c line (r_st (_readline st script))) as [[errno|]|st'] eqn:Ef;
    try exact Hinv'.
  apply IH.
  apply reader_frame_keeps in Ef as (_ & _ & _ & _ & [[Hcr Hc]|(mid & Hcr & Hc)]).
  - rewrite Hcr, Hc. exact Hinv'.
  - right. destruct Hinv' as [[H1 H2]|(m & more & H1 & H2)].
    + exists mid, []. rewrite Hcr, Hc, H1, H2, Z.eqb_refl. tauto.
    + exists m, (more ++ [SendAck mid]). rewrite Hcr, Hc, H1, H2.
      rewrite <- app_assoc. simpl.
      replace (c =? c + 1) with false by (symmetry; apply Z.eqb_neq; lia). tauto.
Qed.

(** X5. The connect count goes up once per connection: whatever ASCII text
    a reader receives, it leaves [connects] as it found it when it has
    accepted no data frame (created no ACK sender), and one higher as soon as
    it has accepted one, however many follow. *)
Theorem reader_counts_connect_once (st : Client) (script : list read_step) :
  ascii_reads script ->
  (created (_reader st script).2 = created st /\
   connects (_reader st script).2 = connects st) \/
  (exists mid more,
     created (_reader st script).2 = created st ++ SendAck mid :: more /\
     connects (_reader st script).2 = connects st + 1).
Proof.
  intros _. unfold _reader. apply reader_loop_counts. left. split; reflexivity.
Qed.

Lemma reader_counts_connect_once_witness :
  let st := new_client 4000 None in
  let step t d := {| rs_top := t; rs_read := Some d; rs_check := t + 10 |} in
  let script := [ step 0 [nl]; step 10 (B "05h"); step 20 (B "i" ++ [nl]);
                  step 30 (B "01" ++ [nl]); step 40 (B "06yo" ++ [nl]) ] in
  connects (_reader st script).2 = 1 /\
  ((created (_reader st script).2 = created st /\
    connects (_reader st script).2 = connects st) \/
   (exists mid more,
      created (_reader st script).2 = created st ++ SendAck mid :: more /\
      connects (_reader st script).2 = connects st + 1)).
Proof.
  intros st step script. split; [reflexivity|].
  apply (reader_counts_connect_once st script).
  repeat constructor.
Defined.

(** X6. A silent link is given up: when nothing at all is received and each
    pass of [_readline] takes the 100 ms of its pause or more, then within
    [_to / 100 + 1] passes the reader sets the link-failure event with the
    reason "reader fail" and returns; it has cleared the inbound-data event
    and changed nothing else, so the link is not marked healthy. *)
Theorem reader_gives_up_silent_link (st : Client) (s0 : read_step) (rest : list read_step) :
  0 <= _to st ->
  Forall (fun s => rs_read s = None) (s0 :: rest) ->
  (forall k s, (s0 :: rest) !! k = Some s ->
               100 * Z.of_nat (S k) <= ticks_diff (rs_check s) (rs_top s0)) ->
  _to st / 100 < Z.of_nat (length (s0 :: rest)) ->
  _reader st (s0 :: rest)
  = (Returned tt, set_evfail (Some (B "reader fail")) (set_evread None st)).
Proof.
  intros Hto Hnone Hpace Hlen.
  pose proof (Z.div_pos (_to st) 100 Hto ltac:(lia)) as Hq.
  destruct (lookup_lt_is_Some_2 (s0 :: rest) (Z.to_nat (_to st / 100)) ltac:(lia)) as [s Hs].
  pose proof (Hpace _ _ Hs) as Hlate.
  assert (Hgt : ticks_diff (rs_check s) (rs_top s0) > _to st).
  { pose proof (Z.mul_succ_div_gt (_to st) 100 ltac:(lia)). lia. }
  destruct (readline_times_out (s0 :: rest) (set_evread None st)
              {| rl_line := []; rl_start := rs_top s0 |}
              (Z.to_nat (_to st / 100)) s) as [Ho Hst].
  - eapply Forall_impl; [exact Hnone|]. intros x Hx. unfold read_no_nl. rewrite Hx. exact I.
  - apply endswith_nl_nil.
  - exact Hs.
  - exact Hgt.
  - unfold _reader. cbn [_reader_loop]. cbv zeta.
    unfold _readline, ev_clear. rewrite Ho, Hst. reflexivity.
Qed.

Lemma reader_gives_up_silent_link_witness :
  let st := set_ok false (new_client 250 None) in
  let pass k := {| rs_top := 100 * k; rs_read := None; rs_check := 100 * (k + 1) |} in
  _reader st [pass 0; pass 1; pass 2]
  = (Returned tt, set_evfail (Some (B "reader fail")) (set_evread None st)).
Proof.
  intros st pass.
  apply (reader_gives_up_silent_link st (pass 0) [pass 1; pass 2]).
  - simpl. lia.
  - repeat constructor.
  - intros k s Hk.
    do 3 (destruct k as [|k]; [injection Hk as <-; vm_compute; discriminate|]).
    discriminate.
  - reflexivity.
Defined.

(** X7. A frame dropped for back-pressure is not lost: the reader leaves the
    client untouched when it drops a data frame because a payload is pending,
    so once the application has taken that payload with [readline], the same
    frame (with a payload of ASCII text) sent again is accepted, published
    and acknowledged. *)
Theorem dropped_frame_accepted_when_resent
    (c mid : Z) (p old : bytes) (st : Client) :
  0 <= mid <= 255 -> length p <> 1%nat -> is_ascii p = true ->
  _evread st = Some old -> (mid = 0 \/ mid ∉ isnew_lst st) ->
  reader_frame c (format_02x mid ++ p) st = inr st /\
  readline st = (Returned old, set_evread None st) /\
  exists st',
    reader_frame c (format_02x mid ++ p) (readline st).2 = inr st' /\
    _evread st' = Some p /\
    created st' = created st ++ [SendAck mid].
Proof.
  intros Hmid Hp _ Hold Hnew.
  destruct (frame_parts mid p Hmid) as (Hint & _ & Hlen).
  split; [|split].
  - apply (reader_frame_busy c _ st mid Hint); [lia|]. rewrite Hold. reflexivity.
  - unfold readline. rewrite Hold. reflexivity.
  - unfold readline. rewrite Hold. simpl.
    destruct (reader_frame_data c mid p (set_evread (ev_clear (Some old)) st) Hmid Hp eq_refl)
      as (st' & Hf & Hcr & _ & Hev & _).
    exists st'. split; [exact Hf|]. split; [|exact Hcr].
    rewrite Hev. simpl isnew_lst. unfold isnew, isnew_in.
    destruct Hnew as [->|Hnot].
    + reflexivity.
    + destruct (mid =? 0) eqn:E0.
      * apply Z.eqb_eq in E0 as ->. reflexivity.
      * replace (mid =? -1) with false by (symmetry; apply Z.eqb_neq; lia).
        rewrite bool_decide_eq_false_2 by exact Hnot. reflexivity.
Qed.

Lemma dropped_frame_accepted_when_resent_witness :
  let st := frames 0 [B "01first" ++ [nl]] (new_client 4000 None) in
  let p := B "second" ++ [nl] in
  reader_frame 0 (format_02x 2 ++ p) st = inr st /\
  readline st = (Returned (B "first" ++ [nl]), set_evread None st) /\
  exists st',
    reader_frame 0 (format_02x 2 ++ p) (readline st).2 = inr st' /\
    _evread st' = Some p /\
    created st' = created st ++ [SendAck 2].
Proof.
  intros st p.
  apply (dropped_frame_accepted_when_resent 0 2 p (B "first" ++ [nl]) st).
  - lia.
  - simpl. lia.
  - reflexivity.
  - reflexivity.
  - right. vm_compute. intros H. apply list_elem_of_singleton in H. discriminate.
Defined.

(** X8. ACK lines round-trip: the line the ACK sender hands to the raw send
    for an identifier is the identifier's two digits and a newline, three
    bytes, and a reader that receives this line takes it for an ACK of that
    very identifier: it removes it from the pending-ACK set and does nothing
    else. *)
Theorem ack_line_round_trip
    (mid : Z) (inp : send_input) (st : Client) (p : lock_pc) (l : bytes)
    (c : Z) (st' : Client) :
  0 <= mid <= 255 ->
  RawSend l ∈ (_sendack mid inp st p).2 ->
  l = format_02x mid ++ [nl] /\ length l = 3%nat /\
  reader_frame c l st' = inr (set_acks_pend (sb_discard mid (_acks_pend st')) st') /\
  (forall m, pending m (set_acks_pend (sb_discard mid (_acks_pend st')) st')
             = negb (m =? mid) && pending m st').
Proof.
  intros Hmid Hin.
  pose proof (locked_send_cases (format_02x mid ++ [nl]) inp st p) as (_ & _ & _ & Hl).
  apply Hl in Hin. subst l.
  destruct (frame_parts mid [nl] Hmid) as (Hint & _ & Hlen).
  split; [reflexivity|]. split; [exact Hlen|]. split.
  - apply reader_frame_ack. unfold is_ack_for. rewrite Hlen, Hint, Z.eqb_refl. reflexivity.
  - intros m. unfold pending. simpl. apply sb_contains_discard.
Qed.

Lemma ack_line_round_trip_witness :
  let st' := set_acks_pend {[ 7; 9 ]} (new_client 4000 None) in
  let l := B "07" ++ [nl] in
  l = format_02x 7 ++ [nl] /\ length l = 3%nat /\
  reader_frame 0 l st' = inr (set_acks_pend (sb_discard 7 (_acks_pend st')) st') /\
  (forall m, pending m (set_acks_pend (sb_discard 7 (_acks_pend st')) st')
             = negb (m =? 7) && pending m st').
Proof.
  intros st' l.
  apply (ack_line_round_trip 7 {| si_start := 0; si_script := [] |}
           (new_client 4000 None) AtLock l 0 st').
  - lia.
  - vm_compute. apply list_elem_of_singleton. reflexivity.
Defined.



(** ** The application's send *)

Lemma write_returns_only_from_send line inp st pc :
  (_write line inp st pc).1.2 = Ret ->
  exists p, pc = Sending p /\ (locked_send line inp st p).1.2 = Ret.
Proof.
  destruct pc as [|p|]; simpl.
  - destruct (_ok st); discriminate.
  - intros H. exists p. split; [reflexivity|].
    destruct (locked_send line inp st p) as [[st' [p'| |[errno|]]] acts]; try discriminate.
    reflexivity.
  - destruct (_ok st); discriminate.
Qed.

Lemma wrun_in_write turns :
  forall st t pc,
  w_pc t = InWrite pc ->
  w_pc (wrun turns st t).1.2 = W_returned ->
  exists turns1 u turns2 p,
    turns = turns1 ++ u :: turns2 /\
    w_pc (wrun turns1 st t).1.2 = InWrite (Sending p) /\
    (locked_send (w_line t) (w_inp u) (w_env u (wrun turns1 st t).1.1) p).1.2 = Ret.
Proof.
  induction turns as [|u turns IH]; intros st t pc Hpc Hret.
  - simpl in Hret. congruence.
  - rewrite wrun_cons in Hret. cbv zeta in Hret. simpl in Hret.
    pose proof (wstep_frame (w_inp u) (w_env u st) t) as (_ & _ & Hl & _).
    pose proof (wstep_never_raises (w_inp u) (w_env u st) t) as Hnr.
    unfold wstep in Hret, Hl, Hnr. rewrite Hpc in Hret, Hl, Hnr.
    destruct (_write (w_line t) (w_inp u) (w_env u st) pc) as [[st1 [pc1| |e]] acts] eqn:Ew.
    + simpl in Hret, Hl.
      destruct (IH st1 (at_pc (InWrite pc1) t) pc1 eq_refl Hret)
        as (turns1 & u' & turns2 & p & -> & Hp & Hs).
      exists (u :: turns1), u', turns2, p. split; [reflexivity|].
      rewrite wrun_cons. cbv zeta. unfold wstep. rewrite Hpc, Ew. simpl.
      split; [exact Hp|exact Hs].
    + destruct (write_returns_only_from_send (w_line t) (w_inp u) (w_env u st) pc) as (p & -> & Hs).
      { rewrite Ew. reflexivity. }
      exists [], u, turns, p. simpl. split; [reflexivity|]. split; [exact Hpc|exact Hs].
    + exfalso. apply (Hnr ltac:(congruence) e). reflexivity.
Qed.

(** X10. [write] does not return before its line has gone out: in whatever
    environment it runs, with or without [qos], a call of [write] that has
    returned was at some transition inside the guarded send of [_write], and
    the block [async with self._s_lock: await self._send(line)] ended there
    by returning, for the line [write] had built. *)
Theorem write_returns_after_send
    (buf : bytes) (qos : bool) (st0 : Client) (turns : list wturn) :
  w_pc (wrun turns (write buf qos st0).1 (write buf qos st0).2).1.2 = W_returned ->
  exists turns1 u turns2 p,
    turns = turns1 ++ u :: turns2 /\
    w_pc (wrun turns1 (write buf qos st0).1 (write buf qos st0).2).1.2 = InWrite (Sending p) /\
    (locked_send (w_line (write buf qos st0).2) (w_inp u)
       (w_env u (wrun turns1 (write buf qos st0).1 (write buf qos st0).2).1.1) p).1.2 = Ret.
Proof.
  intros H. eapply wrun_in_write; [|exact H].
  pose proof (write_registers buf qos st0) as (_ & _ & Hpc & _). exact Hpc.
Qed.

Lemma write_returns_after_send_witness :
  let st0 := set_ok true (new_client 4000 None) in
  let idle := {| w_env := fun st => st;
                 w_inp := {| si_start := 0; si_script := [(Room 100, 1)] |} |} in
  let turns := [idle; idle] in
  exists turns1 u turns2 p,
    turns = turns1 ++ u :: turns2 /\
    w_pc (wrun turns1 (write (B "hi") false st0).1 (write (B "hi") false st0).2).1.2
    = InWrite (Sending p) /\
    (locked_send (w_line (write (B "hi") false st0).2) (w_inp u)
       (w_env u (wrun turns1 (write (B "hi") false st0).1 (write (B "hi") false st0).2).1.1) p).1.2
    = Ret.
Proof.
  intros st0 idle turns.
  apply (write_returns_after_send (B "hi") false st0 turns).
  reflexivity.
Defined.

(** ** The supervisor *)

Lemma feeds_keep n :
  forall st,
  _to (wait_down n st) = _to st /\
  _ok (wait_down n st) = _ok st /\
  wire (wait_down n st) = wire st /\
  wdt (wait_down n st) = wdt st ++ replicate n 5.
Proof.
  induction n as [|n IH]; intros st; cbn [wait_down replicate].
  - rewrite app_nil_r. tauto.
  - destruct (IH (wdt_feed 5 st)) as (H1 & H2 & H3 & H4).
    rewrite H1, H2, H3, H4. cbn [_to _ok wire wdt wdt_feed].
    rewrite <- app_assoc. tauto.
Qed.

Ltac feeds_kept :=
  match goal with
  | |- context [wait_down ?n ?x] =>
      let H1 := fresh in let H2 := fresh in let H3 := fresh in let H4 := fresh in
      destruct (feeds_keep n x) as (H1 & H2 & H3 & H4);
      rewrite ?H1, ?H2, ?H3, ?H4; cbn [_to _ok wire wdt wdt_feed];
      clear H1 H2 H3 H4
  end.

Lemma try_connect_keeps cfg a st :
  _to (try_connect cfg a st).1.2 = _to st /\
  wdt (try_connect cfg a st).1.2 = wdt st /\
  _ok (try_connect cfg a st).1.2 = _ok st /\
  ((try_connect cfg a st).2 = [] \/ (try_connect cfg a st).2 = [CreateReader; Pause 50]).
Proof.
  unfold try_connect.
  destruct (at_resolve a); [|destruct (at_connect a)]; cbn [fst snd]; auto.
Qed.

Lemma is_ascii_app a b : is_ascii (a ++ b) = is_ascii a && is_ascii b.
Proof. unfold is_ascii. apply forallb_app. Qed.

Lemma try_connect_sends cfg a st :
  is_ascii (_my_id cfg) = true ->
  exists sent rest,
    wire (try_connect cfg a st).1.2 = wire st ++ sent /\ _my_id cfg = sent ++ rest /\
    ((try_connect cfg a st).1.1 = Returned tt -> sent = _my_id cfg).
Proof.
  intros Hid. unfold try_connect.
  destruct (at_resolve a); [|destruct (at_connect a)].
  - exists [], (_my_id cfg). cbn [fst snd]. rewrite app_nil_r. repeat split. discriminate.
  - exists [], (_my_id cfg). cbn [fst snd]. rewrite app_nil_r. repeat split. discriminate.
  - cbn [fst snd]. rewrite (send_str_ascii _ _ _ _ Hid).
    pose proof (send_loop_spec (_to st) (si_start (at_send a)) (length (_my_id cfg))
                  (si_script (at_send a)) (_my_id cfg) 0%nat eq_refl)
      as ((rest & Hrest) & _ & Hret & _).
    fold (_send (_to st) (si_start (at_send a)) (_my_id cfg) (si_script (at_send a))) in Hrest, Hret.
    exists (s_sent (_send (_to st) (si_start (at_send a)) (_my_id cfg) (si_script (at_send a)))), rest.
    repeat split; [exact Hrest|]. intros H. apply Hret in H. tauto.
Qed.

(** X11. The [finally] block runs on every way out of a pass: whenever a
    pass of the supervisor's loop ends, normally or with the exception of a
    hook, the last things it did are to close the socket, disconnect the WiFi
    interface, feed the watchdog for the time of the pause that follows,
    pause for twice the timeout, and then, at each test that found the
    interface still connected, pause for a second and feed the watchdog for
    5 s. *)
Theorem pass_ends_with_teardown (cfg : config) (init : bool) (a : attempt) (st : Client) :
  (run_pass cfg init a st).1.1 <> Blocked ->
  exists acts feeds,
    (run_pass cfg init a st).2
    = acts ++ [CloseSocket; Disconnect; Pause (_to st * 2)]
           ++ replicate (at_linger a) (Pause 1000) /\
    wdt (run_pass cfg init a st).1.2
    = feeds ++ [(_to st * 4) / 1000] ++ replicate (at_linger a) 5 /\
    _to (run_pass cfg init a st).1.2 = _to st.
Proof.
  unfold run_pass, teardown.
  pose proof (try_connect_keeps cfg a (set_evfail (ev_clear (_evfail st)) st)) as (Hto & _).
  destruct (try_connect cfg a (set_evfail (ev_clear (_evfail st)) st)) as [[o st1] acts1].
  cbn [fst snd _to set_evfail] in Hto.
  destruct o as [[]|[errno|]|]; cbn -[Z.div Z.mul wait_down replicate app].
  - destruct (at_fail a) as [reason|]; cbn -[Z.div Z.mul wait_down replicate app]; [|congruence].
    intros _. feeds_kept. cbn [wdt wdt_feed _to set_ok set_evfail]. rewrite ?Hto.
    eexists _, _. split; [reflexivity|].
    split; [rewrite <- app_assoc; reflexivity|reflexivity].
  - destruct init; [destruct (bad_server cfg)|]; cbn -[Z.div Z.mul wait_down replicate app];
      intros _; feeds_kept; cbn [wdt wdt_feed _to set_ok set_evfail]; rewrite ?Hto.
    + exists ((NewSocket :: acts1) ++ [CallBadServer]), (wdt st1).
      rewrite <- !app_assoc. split; [reflexivity|]. split; reflexivity.
    + exists ((NewSocket :: acts1) ++ [CallBadServer]), (wdt st1).
      rewrite <- !app_assoc. split; [reflexivity|]. split; reflexivity.
    + exists (NewSocket :: acts1), (wdt st1).
      split; [reflexivity|]. split; [rewrite <- app_assoc; reflexivity|reflexivity].
  - intros _. feeds_kept. cbn [wdt wdt_feed _to set_ok set_evfail]. rewrite ?Hto.
    exists (NewSocket :: acts1), (wdt st1).
    split; [reflexivity|]. split; [rewrite <- app_assoc; reflexivity|reflexivity].
  - congruence.
Qed.

Lemma pass_ends_with_teardown_witness :
  let cfg := (__init__ (B "dev1") 4000 true None).1 in
  let down := {| at_resolve := None; at_connect := Some 111;
                 at_send := {| si_start := 0; si_script := [] |}; at_fail := None;
                 at_linger := 2 |} in
  let st := new_client 4000 None in
  (run_pass cfg true down st).1.1 = Raised (OSError None) /\
  wdt (run_pass cfg true down st).1.2 = [16; 5; 5] /\
  exists acts feeds,
    (run_pass cfg true down st).2
    = acts ++ [CloseSocket; Disconnect; Pause (_to st * 2)]
           ++ replicate (at_linger down) (Pause 1000) /\
    wdt (run_pass cfg true down st).1.2
    = feeds ++ [(_to st * 4) / 1000] ++ replicate (at_linger down) 5 /\
    _to (run_pass cfg true down st).1.2 = _to st.
Proof.
  intros cfg down st. split; [reflexivity|]. split; [reflexivity|].
  apply (pass_ends_with_teardown cfg true down st). discriminate.
Defined.

Lemma concb_calls_app a b : concb_calls (a ++ b) = concb_calls a ++ concb_calls b.
Proof. apply omap_app. Qed.

Lemma concb_calls_pauses n ms : concb_calls (replicate n (Pause ms)) = [].
Proof. induction n as [|n IH]; [reflexivity|exact IH]. Qed.

Lemma concb_calls_fin x n ms :
  concb_calls (CloseSocket :: Disconnect :: Pause x :: replicate n (Pause ms)) = [].
Proof. exact (concb_calls_pauses n ms). Qed.

Lemma run_pass_concb cfg init a st :
  (_concb cfg = false -> concb_calls (run_pass cfg init a st).2 = []) /\
  (concb_calls (run_pass cfg init a st).2 = [] \/
   concb_calls (run_pass cfg init a st).2 = [true; false] \/
   (concb_calls (run_pass cfg init a st).2 = [true] /\
    (run_pass cfg init a st).1.1 = Blocked)).
Proof.
  unfold run_pass, teardown.
  pose proof (try_connect_keeps cfg a (set_evfail (ev_clear (_evfail st)) st)) as (_ & _ & _ & Hacts).
  destruct (try_connect cfg a (set_evfail (ev_clear (_evfail st)) st)) as [[o st1] acts1].
  cbn [fst snd] in Hacts.
  destruct o as [[]|[errno|]|]; [destruct (at_fail a)|destruct init; [destruct (bad_server cfg)|]| |];
    cbn -[Z.div Z.mul concb_calls wait_down replicate].
  all: rewrite ?concb_calls_fin, ?app_comm_cons, ?concb_calls_app;
    change (concb_calls (CallBadServer :: ?l)) with (concb_calls l);
    rewrite ?concb_calls_fin.
  all: destruct Hacts as [-> | ->]; destruct (_concb cfg); cbn -[Z.div Z.mul];
    (split; [try discriminate; auto|auto]).
Qed.

Lemma run_loop_concb cfg attempts :
  forall init st,
  exists n tail,
    concb_calls (_run_loop cfg init st attempts).2 = mjoin (replicate n [true; false]) ++ tail /\
    (tail = [] \/ (tail = [true] /\ (_run_loop cfg init st attempts).1.1 = Blocked)) /\
    (_concb cfg = false -> n = 0%nat /\ tail = []).
Proof.
  induction attempts as [|a attempts IH]; intros init st.
  - exists 0%nat, []. cbn. auto.
  - cbn [_run_loop].
    pose proof (run_pass_concb cfg init a st) as [Hoff Hcases].
    destruct (run_pass cfg init a st) as [[o st1] acts1]. cbn [fst snd] in Hoff, Hcases.
    destruct o as [[]|e|].
    + destruct (IH false st1) as (n & tail & Hc & Ht & Hn).
      destruct (_run_loop cfg false st1 attempts) as [[o2 st2] acts2]. cbn [fst snd] in *.
      rewrite concb_calls_app, Hc.
      destruct Hcases as [H | [H | [_ ?]]]; [| |discriminate]; rewrite H.
      * exists n, tail. auto.
      * exists (S n), tail. split; [reflexivity|]. split; [exact Ht|].
        intros Hf. rewrite (Hoff Hf) in H. discriminate H.
    + cbn [fst snd]. destruct Hcases as [H | [H | [_ ?]]]; [| |discriminate]; rewrite H.
      * exists 0%nat, []. auto.
      * exists 1%nat, []. split; [reflexivity|]. split; [auto|].
        intros Hf. rewrite (Hoff Hf) in H. discriminate H.
    + cbn [fst snd]. destruct Hcases as [H | [H | [H _]]]; rewrite H.
      * exists 0%nat, []. auto.
      * exists 1%nat, []. split; [reflexivity|]. split; [auto|].
        intros Hf. rewrite (Hoff Hf) in H. discriminate H.
      * exists 0%nat, [true]. split; [reflexivity|]. split; [auto|].
        intros Hf. rewrite (Hoff Hf) in H. discriminate H.
Qed.

(** X12. The connect-state callback is called in turns: over any run of the
    supervisor its calls are [True], [False], [True], [False], ... in this
    order, each "link lost" call following a "link up" call; a last call with
    [True] without its [False] occurs only while the supervisor is still
    waiting in that pass.  Without a callback there are no calls. *)
Theorem callback_calls_alternate
    (cfg : config) (wifi : list bool) (st : Client) (attempts : list attempt) :
  exists n tail,
    concb_calls (_run cfg wifi st attempts).2 = mjoin (replicate n [true; false]) ++ tail /\
    (tail = [] \/ (tail = [true] /\ (_run cfg wifi st attempts).1.1 = Blocked)) /\
    (_concb cfg = false -> n = 0%nat /\ tail = []).
Proof.
  unfold _run.
  destruct (existsb id (take 4 wifi)); [apply run_loop_concb|].
  destruct (bad_wifi cfg).
  - exists 0%nat, []. cbn -[Z.div Z.mul]. auto.
  - pose proof (run_loop_concb cfg attempts true st) as H.
    destruct (_run_loop cfg true st attempts) as [[o st'] acts]. exact H.
Qed.

Lemma fin_quiet x n y :
  y ∈ CloseSocket :: Disconnect :: Pause x :: replicate n (Pause 1000) ->
  y = CallBadServer \/ y = CloseSocket \/ y = Disconnect \/ exists ms, y = Pause ms.
Proof.
  intros Hy. repeat (apply elem_of_cons in Hy as [->|Hy]; [eauto|]).
  apply elem_of_replicate in Hy as [-> _]. eauto.
Qed.

(** X13. The link is declared up only after the whole identity line has gone
    out: the identity line kept by [__init__] is the text given, with a
    newline added when it had none; for an identity of ASCII characters, a
    pass of the supervisor puts an initial part of that line on the wire and
    nothing else, and when it has created the keepalive task or called the
    callback with [True], all of it. *)
Theorem identity_line_sent_before_up
    (my_id : bytes) (timeout : Z) (connected_cb : bool) (led : option bool)
    (init : bool) (a : attempt) (st : Client) :
  is_ascii my_id = true ->
  let cfg := (__init__ my_id timeout connected_cb led).1 in
  _my_id cfg = my_id ++ (if endswith_nl my_id then [] else [nl]) /\
  endswith_nl (_my_id cfg) = true /\
  exists sent rest,
    wire (run_pass cfg init a st).1.2 = wire st ++ sent /\
    _my_id cfg = sent ++ rest /\
    (CreateKeepalive ∈ (run_pass cfg init a st).2 \/ Concb true ∈ (run_pass cfg init a st).2 ->
     sent = _my_id cfg).
Proof.
  intros Hascii cfg.
  assert (Hid : _my_id cfg = my_id ++ (if endswith_nl my_id then [] else [nl])).
  { subst cfg. simpl. destruct (endswith_nl my_id); [rewrite app_nil_r|]; reflexivity. }
  split; [exact Hid|]. split.
  { rewrite Hid. destruct (endswith_nl my_id) eqn:E; [rewrite app_nil_r; exact E|].
    apply endswith_nl_snoc. }
  assert (Hcfg : is_ascii (_my_id cfg) = true).
  { rewrite Hid, is_ascii_app, Hascii. destruct (endswith_nl my_id); reflexivity. }
  clear Hid Hascii. revert Hcfg. generalize cfg. clear cfg. intros cfg Hcfg.
  unfold run_pass, teardown.
  pose proof (try_connect_keeps cfg a (set_evfail (ev_clear (_evfail st)) st))
    as (_ & _ & _ & Hacts).
  pose proof (try_connect_sends cfg a (set_evfail (ev_clear (_evfail st)) st) Hcfg)
    as (sent & rest & Hw & Hid & Hall).
  destruct (try_connect cfg a (set_evfail (ev_clear (_evfail st)) st)) as [[o st1] acts1].
  cbn [fst snd wire set_evfail] in Hacts, Hw, Hall.
  exists sent, rest.
  assert (Hno : forall x more,
            x = CreateKeepalive \/ x = Concb true ->
            (forall y, y ∈ more -> y = CallBadServer \/ y = CloseSocket \/ y = Disconnect \/
                                   exists ms, y = Pause ms) ->
            x ∈ NewSocket :: acts1 ++ more -> False).
  { intros x more Hx Hmore Hin.
    apply elem_of_cons in Hin as [Hin|Hin]; [destruct Hx; congruence|].
    apply elem_of_app in Hin as [Hin|Hin].
    - destruct Hacts as [-> | ->].
      + apply elem_of_nil in Hin. exact Hin.
      + apply elem_of_cons in Hin as [Hin|Hin]; [destruct Hx; congruence|].
        apply list_elem_of_singleton in Hin. destruct Hx; congruence.
    - apply Hmore in Hin as [Hin|[Hin|[Hin|[ms Hin]]]]; destruct Hx; congruence. }
  assert (Hfin' : forall x n y,
            y ∈ CallBadServer :: CloseSocket :: Disconnect :: Pause x :: replicate n (Pause 1000) ->
            y = CallBadServer \/ y = CloseSocket \/ y = Disconnect \/ exists ms, y = Pause ms).
  { intros x n y Hy. apply elem_of_cons in Hy as [->|Hy]; [eauto|]. eapply fin_quiet. exact Hy. }
  destruct o as [[]|[errno|]|].
  - specialize (Hall eq_refl). subst sent.
    destruct (at_fail a) as [reason|]; cbn -[Z.div Z.mul wait_down replicate];
      try feeds_kept; (split; [exact Hw|]); split; auto.
  - destruct init; [destruct (bad_server cfg)|]; cbn -[Z.div Z.mul wait_down replicate];
      feeds_kept; (split; [exact Hw|]); (split; [exact Hid|]);
      intros [H|H]; exfalso.
    + apply (Hno _ _ (or_introl eq_refl) (Hfin' _ _) H).
    + apply (Hno _ _ (or_intror eq_refl) (Hfin' _ _) H).
    + apply (Hno _ _ (or_introl eq_refl) (Hfin' _ _) H).
    + apply (Hno _ _ (or_intror eq_refl) (Hfin' _ _) H).
    + apply (Hno _ _ (or_introl eq_refl) (fin_quiet _ _) H).
    + apply (Hno _ _ (or_intror eq_refl) (fin_quiet _ _) H).
  - cbn -[Z.div Z.mul wait_down replicate]. feeds_kept.
    split; [exact Hw|]. split; [exact Hid|].
    intros [H|H]; exfalso.
    + apply (Hno _ _ (or_introl eq_refl) (fin_quiet _ _) H).
    + apply (Hno _ _ (or_intror eq_refl) (fin_quiet _ _) H).
  - cbn -[Z.div Z.mul wait_down replicate]. split; [exact Hw|]. split; [exact Hid|].
    intros [H|H]; exfalso.
    + apply (Hno CreateKeepalive [] (or_introl eq_refl)); [|rewrite app_nil_r; exact H].
      intros y Hy. apply elem_of_nil in Hy. tauto.
    + apply (Hno (Concb true) [] (or_intror eq_refl)); [|rewrite app_nil_r; exact H].
      intros y Hy. apply elem_of_nil in Hy. tauto.
Qed.

Lemma identity_line_sent_before_up_witness :
  let cfg := (__init__ (B "dev1") 4000 true None).1 in
  let a := {| at_resolve := None; at_connect := None;
              at_send := {| si_start := 0; si_script := [(Room 3, 1); (Room 9, 30)] |};
              at_fail := None; at_linger := 0 |} in
  let st := new_client 4000 None in
  wire (run_pass cfg true a st).1.2 = B "dev1" ++ [nl] /\
  _my_id cfg = B "dev1" ++ (if endswith_nl (B "dev1") then [] else [nl]) /\
  endswith_nl (_my_id cfg) = true /\
  exists sent rest,
    wire (run_pass cfg true a st).1.2 = wire st ++ sent /\
    _my_id cfg = sent ++ rest /\
    (CreateKeepalive ∈ (run_pass cfg true a st).2 \/ Concb true ∈ (run_pass cfg true a st).2 ->
     sent = _my_id cfg).
Proof.
  intros cfg a st. split; [reflexivity|].
  apply (identity_line_sent_before_up (B "dev1") 4000 true None true a st). reflexivity.
Defined.

(** ** The keepalive sender *)

Lemma run_send_keeps line inp d ns start st :
  _to (run_send line inp d ns start st).1 = _to st /\
  _evfail (run_send line inp d ns start st).1 = _evfail st /\
  _ok (run_send line inp d ns start st).1 = _ok st /\
  _evread (run_send line inp d ns start st).1 = _evread st.
Proof.
  unfold run_send.
  destruct (s_out (_send_loop (_to st) start d ns (length line) (si_script inp)));
    simpl; tauto.
Qed.

Lemma locked_send_keeps line inp st p :
  _to (locked_send line inp st p).1.1 = _to st /\
  _evfail (locked_send line inp st p).1.1 = _evfail st /\
  _ok (locked_send line inp st p).1.1 = _ok st /\
  _evread (locked_send line inp st p).1.1 = _evread st.
Proof.
  destruct p as [|d ns start]; simpl.
  - destruct (_s_lock st); simpl; [tauto|].
    apply (run_send_keeps line inp line 0%nat (si_start inp) (set_s_lock true st)).
  - apply run_send_keeps.
Qed.

Lemma locked_send_acts line inp st p :
  match p with
  | AtLock =>
      ((locked_send line inp st p).2 = [Sleep 100] /\ (locked_send line inp st p).1.2 = At AtLock) \/
      ((locked_send line inp st p).2 = [RawSend line] /\ (locked_send line inp st p).1.2 <> At AtLock)
  | InSend _ _ _ =>
      (locked_send line inp st p).2 = [] /\ (locked_send line inp st p).1.2 <> At AtLock
  end.
Proof.
  destruct p as [|d ns start]; simpl.
  - destruct (_s_lock st); simpl; [left; tauto|right]. split; [reflexivity|].
    unfold run_send.
    destruct (s_out (_send_loop _ _ _ _ _ _)); simpl; discriminate.
  - split; [reflexivity|]. unfold run_send.
    destruct (s_out (_send_loop _ _ _ _ _ _)); simpl; discriminate.
Qed.

Lemma keepalive_cases inp st pc :
  (forall e, (_keepalive inp st pc).1.2 <> Exc e) /\
  ((_keepalive inp st pc).1.2 = Ret ->
     _evfail (_keepalive inp st pc).1.1 = Some (B "keepalive fail")) /\
  (forall l, RawSend l ∈ (_keepalive inp st pc).2 -> l = [nl]) /\
  _to (_keepalive inp st pc).1.1 = _to st /\
  _ok (_keepalive inp st pc).1.1 = _ok st /\
  _evread (_keepalive inp st pc).1.1 = _evread st /\
  _acks_pend (_keepalive inp st pc).1.1 = _acks_pend st.
Proof.
  destruct pc as [|p]; simpl.
  - repeat split; try discriminate.
    intros l H. apply list_elem_of_singleton in H. discriminate.
  - pose proof (locked_send_cases [nl] inp st p) as (Hpend & _ & Hexc & Hl).
    pose proof (locked_send_keeps [nl] inp st p) as (Hto & _ & Hok & Hrd).
    cbv zeta in Hpend, Hexc, Hl.
    destruct (locked_send [nl] inp st p) as [[st' [p'| |e]] acts]; simpl in *.
    + repeat split; try discriminate; assumption.
    + repeat split; try discriminate; assumption.
    + destruct (Hexc e eq_refl) as [errno ->]. simpl.
      repeat split; try discriminate; assumption.
Qed.

Lemma krun_cons u turns st p :
  krun (u :: turns) st (At p)
  = let r1 := _keepalive (w_inp u) (w_env u st) p in
    let r2 := krun turns r1.1.1 r1.1.2 in
    (r2.1.1, r2.1.2, r1.2 ++ r2.2).
Proof.
  cbn [krun]. destruct (_keepalive (w_inp u) (w_env u st) p) as [[st1 pc1] a1].
  cbv zeta. simpl. destruct (krun turns st1 pc1) as [[st2 pc2] a2]. reflexivity.
Qed.

Lemma krun_done turns st pc : (forall p, pc <> At p) -> krun turns st pc = (st, pc, []).
Proof.
  intros H. destruct turns; [reflexivity|].
  destruct pc; [exfalso; eapply H; reflexivity|reflexivity|reflexivity].
Qed.

Lemma krun_ends turns :
  forall st pc,
  (forall e, pc <> Exc e) -> pc <> Ret ->
  (forall e, (krun turns st pc).1.2 <> Exc e) /\
  ((krun turns st pc).1.2 = Ret -> _evfail (krun turns st pc).1.1 = Some (B "keepalive fail")) /\
  (forall l, RawSend l ∈ (krun turns st pc).2 -> l = [nl]).
Proof.
  induction turns as [|u turns IH]; intros st pc Hexc Hret.
  - simpl. repeat split; try assumption; try congruence.
    intros l H. apply elem_of_nil in H. contradiction.
  - destruct pc as [p| |e]; [|congruence|exfalso; eapply Hexc; reflexivity].
    rewrite krun_cons. cbv zeta.
    pose proof (keepalive_cases (w_inp u) (w_env u st) p) as (Hk1 & Hk2 & Hk3 & _).
    destruct (_keepalive (w_inp u) (w_env u st) p) as [[st1 pc1] a1]. simpl in *.
    destruct pc1 as [p1| |e].
    + destruct (IH st1 (At p1) ltac:(discriminate) ltac:(discriminate)) as (H1 & H2 & H3).
      split; [exact H1|]. split; [exact H2|].
      intros l Hl. apply elem_of_app in Hl as [Hl|Hl]; [apply Hk3|apply H3]; exact Hl.
    + rewrite krun_done by discriminate. simpl.
      split; [discriminate|]. split; [intros _; apply Hk2; reflexivity|].
      rewrite app_nil_r. exact Hk3.
    + exfalso. apply (Hk1 e). reflexivity.
Qed.

(** X14. The keepalive task sends newlines and nothing else, and its only
    way out is to report the failure: in whatever environment it runs, every
    line it hands to the raw send is the single byte newline, no exception
    leaves it, and when it has ended the link-failure event is set with the
    reason "keepalive fail". *)
Theorem keepalive_sends_newlines_until_failure (turns : list wturn) (st : Client) :
  (forall l, RawSend l ∈ (krun turns st (At KaSleep)).2 -> l = [nl]) /\
  (forall e, (krun turns st (At KaSleep)).1.2 <> Exc e) /\
  ((krun turns st (At KaSleep)).1.2 = Ret ->
     _evfail (krun turns st (At KaSleep)).1.1 = Some (B "keepalive fail")).
Proof.
  destruct (krun_ends turns st (At KaSleep) ltac:(discriminate) ltac:(discriminate))
    as (H1 & H2 & H3).
  split; [exact H3|]. split; [exact H1|exact H2].
Qed.

Lemma spaced_true tk acts : forall slept, spaced tk slept acts = true -> spaced tk true acts = true.
Proof.
  induction acts as [|[ms|l] acts IH]; intros slept H; simpl in *.
  - reflexivity.
  - destruct slept; simpl in *; [exact H|]. destruct (ms =? tk); [exact H|]. eapply IH. exact H.
  - apply andb_prop in H as [_ H]. exact H.
Qed.

Lemma spaced_between tk a1 :
  forall slept l1 a2 l2 a3,
  spaced tk slept (a1 ++ RawSend l1 :: a2 ++ RawSend l2 :: a3) = true ->
  Sleep tk ∈ a2.
Proof.
  induction a1 as [|[ms|l] a1 IH]; intros slept l1 a2 l2 a3 H; simpl in H.
  - apply andb_prop in H as [_ H]. clear slept.
    induction a2 as [|[ms|l] a2 IH2]; simpl in H.
    + discriminate.
    + destruct (ms =? tk) eqn:E.
      * apply Z.eqb_eq in E as ->. apply list_elem_of_here.
      * apply list_elem_of_further. apply IH2. exact H.
    + discriminate.
  - eapply IH. exact H.
  - apply andb_prop in H as [_ H]. eapply IH. exact H.
Qed.

Lemma spaced_first tk a1 :
  forall l a3, spaced tk false (a1 ++ RawSend l :: a3) = true -> Sleep tk ∈ a1.
Proof.
  induction a1 as [|[ms|l'] a1 IH]; intros l a3 H; simpl in H.
  - discriminate.
  - destruct (ms =? tk) eqn:E.
    + apply Z.eqb_eq in E as ->. apply list_elem_of_here.
    + apply list_elem_of_further. eapply IH. exact H.
  - discriminate.
Qed.

Lemma keepalive_acts inp st pc :
  match pc with
  | KaSleep =>
      (_keepalive inp st pc).2 = [Sleep (_to st / 2)] /\
      (_keepalive inp st pc).1.2 = At (KaSend AtLock)
  | KaSend AtLock =>
      ((_keepalive inp st pc).2 = [Sleep 100] /\
       (_keepalive inp st pc).1.2 = At (KaSend AtLock)) \/
      ((_keepalive inp st pc).2 = [RawSend [nl]] /\
       (_keepalive inp st pc).1.2 <> At (KaSend AtLock))
  | KaSend (InSend _ _ _) =>
      (_keepalive inp st pc).2 = [] /\ (_keepalive inp st pc).1.2 <> At (KaSend AtLock)
  end.
Proof.
  destruct pc as [|p]; [split; reflexivity|].
  pose proof (locked_send_acts [nl] inp st p) as H.
  cbn [_keepalive].
  destruct (locked_send [nl] inp st p) as [[st' n] acts]. cbn [fst snd] in H.
  destruct p as [|d ns start].
  - destruct H as [[-> ->]|[-> Hn]]; [left; split; reflexivity|right].
    destruct n as [p'| |[errno|]]; cbn [fst snd]; (split; [reflexivity|]); try discriminate.
    intros [= ->]. apply Hn. reflexivity.
  - destruct H as [-> Hn].
    destruct n as [p'| |[errno|]]; cbn [fst snd]; (split; [reflexivity|]); try discriminate.
    intros [= ->]. apply Hn. reflexivity.
Qed.

Lemma krun_spaced turns :
  forall st pc slept,
  Forall (fun u => forall s, _to (w_env u s) = _to s) turns ->
  (pc = At (KaSend AtLock) -> slept = true) ->
  spaced (_to st / 2) slept (krun turns st pc).2 = true.
Proof.
  induction turns as [|u turns IH]; intros st pc slept Henv Hpc; [reflexivity|].
  destruct pc as [p| |e]; [|reflexivity|reflexivity].
  apply Forall_cons in Henv as [Hu Henv].
  rewrite krun_cons. cbv zeta.
  pose proof (keepalive_cases (w_inp u) (w_env u st) p) as (_ & _ & _ & Hto & _).
  rewrite Hu in Hto.
  pose proof (keepalive_acts (w_inp u) (w_env u st) p) as Hacts.
  rewrite Hu in Hacts.
  destruct (_keepalive (w_inp u) (w_env u st) p) as [[st1 pc1] a1].
  cbn [fst snd] in *. rewrite <- Hto in *.
  destruct p as [|[|d ns start]].
  - destruct Hacts as [-> ->]. cbn [app spaced].
    rewrite Z.eqb_refl, orb_true_r. apply IH; [exact Henv|reflexivity].
  - rewrite (Hpc eq_refl). destruct Hacts as [[-> ->]|[-> Hn]]; cbn [app spaced orb andb].
    + apply IH; [exact Henv|reflexivity].
    + apply IH; [exact Henv|]. intros E. contradiction.
  - destruct Hacts as [-> Hn]. cbn [app].
    apply IH; [exact Henv|]. intros E. contradiction.
Qed.

(** X15. Keepalives are half a timeout apart: while the timeout stays what it
    is, the keepalive task has paused for [_to // 2] ms before its first call
    of the raw send and between any two of its calls, however long it waited
    for the write lock besides. *)
Theorem keepalive_sends_spaced (turns : list wturn) (st : Client) :
  Forall (fun u => forall s, _to (w_env u s) = _to s) turns ->
  (forall a1 l a3,
     (krun turns st (At KaSleep)).2 = a1 ++ RawSend l :: a3 -> Sleep (_to st / 2) ∈ a1) /\
  (forall a1 l1 a2 l2 a3,
     (krun turns st (At KaSleep)).2 = a1 ++ RawSend l1 :: a2 ++ RawSend l2 :: a3 ->
     Sleep (_to st / 2) ∈ a2).
Proof.
  intros Henv.
  pose proof (krun_spaced turns st (At KaSleep) false Henv ltac:(discriminate)) as H.
  split.
  - intros a1 l a3 E. rewrite E in H. eapply spaced_first. exact H.
  - intros a1 l1 a2 l2 a3 E. rewrite E in H. eapply spaced_between. exact H.
Qed.

Lemma keepalive_sends_spaced_witness :
  let st := new_client 4000 None in
  let go := {| w_env := fun s => s;
               w_inp := {| si_start := 0; si_script := [(Room 1, 1)] |} |} in
  let held := {| w_env := set_s_lock true; w_inp := {| si_start := 0; si_script := [] |} |} in
  let free := {| w_env := set_s_lock false;
                 w_inp := {| si_start := 0; si_script := [(Room 1, 1)] |} |} in
  let turns := [go; go; go; held; free] in
  (krun turns st (At KaSleep)).2
  = [Sleep 2000; RawSend [nl]; Sleep 2000; Sleep 100; RawSend [nl]] /\
  (forall a1 l a3,
     (krun turns st (At KaSleep)).2 = a1 ++ RawSend l :: a3 -> Sleep (_to st / 2) ∈ a1) /\
  (forall a1 l1 a2 l2 a3,
     (krun turns st (At KaSleep)).2 = a1 ++ RawSend l1 :: a2 ++ RawSend l2 :: a3 ->
     Sleep (_to st / 2) ∈ a2).
Proof.
  intros st go held free turns. split; [reflexivity|].
  apply (keepalive_sends_spaced turns st).
  repeat constructor.
Defined.

(** ** The WiFi connection *)

Lemma connect_wait_spec status :
  forall st,
  (connect_wait status st).1.1 = Returned tt ->
  status !! (connect_wait status st).2 = Some false /\
  (forall k, (k < (connect_wait status st).2)%nat -> status !! k = Some true) /\
  wdt (connect_wait status st).1.2 = wdt st ++ replicate (connect_wait status st).2 5 /\
  _to (connect_wait status st).1.2 = _to st.
Proof.
  induction status as [|[|] status IH]; intros st; cbn [connect_wait].
  - discriminate.
  - specialize (IH (wdt_feed 5 st)).
    destruct (connect_wait status (wdt_feed 5 st)) as [[o st'] n]. cbn [fst snd] in *.
    intros Ho. destruct (IH Ho) as (H1 & H2 & H3 & H4).
    split; [exact H1|]. split; [|split].
    + intros [|k] Hk; [reflexivity|]. apply H2. lia.
    + rewrite H3. cbn [wdt wdt_feed replicate]. rewrite <- app_assoc. reflexivity.
    + exact H4.
  - intros _. cbn [fst snd replicate]. rewrite app_nil_r.
    split; [reflexivity|]. split; [intros k Hk; lia|]. split; reflexivity.
Qed.

Lemma connect_stable_spec to t poll :
  forall st,
  (connect_stable to t poll st).1.1 = Returned tt ->
  (exists up now, poll !! (connect_stable to t poll st).2 = Some (up, now) /\
                  (up = false \/ 2 * to <= ticks_diff now t)) /\
  (forall k up now, (k < (connect_stable to t poll st).2)%nat -> poll !! k = Some (up, now) ->
                    up = true /\ ticks_diff now t < 2 * to) /\
  wdt (connect_stable to t poll st).1.2 = wdt st ++ replicate (connect_stable to t poll st).2 5.
Proof.
  induction poll as [|[up now] poll IH]; intros st; cbn [connect_stable].
  - discriminate.
  - destruct (up && (ticks_diff now t <? 2 * to)) eqn:E.
    + specialize (IH (wdt_feed 5 st)).
      destruct (connect_stable to t poll (wdt_feed 5 st)) as [[o st'] n]. cbn [fst snd] in *.
      intros Ho. destruct (IH Ho) as (H1 & H2 & H3).
      split; [exact H1|]. split.
      * intros [|k] up' now' Hk Hl.
        -- injection Hl as <- <-. apply andb_prop in E as [-> E].
           apply Z.ltb_lt in E. tauto.
        -- apply (H2 k); [lia|exact Hl].
      * rewrite H3. cbn [wdt wdt_feed replicate]. rewrite <- app_assoc. reflexivity.
    + intros _. cbn [fst snd replicate]. rewrite app_nil_r.
      split; [|split; [intros k ? ? Hk; lia|reflexivity]].
      exists up, now. split; [reflexivity|].
      apply andb_false_iff in E as [E|E]; [left; exact E|right].
      apply Z.ltb_ge in E. exact E.
Qed.

(** X16. An attempt to connect to WiFi returns only with the interface down
    or the connection stable: when [_connect] returns, the last test of its
    second loop found the interface not connected, or found it connected with
    [2 * _to] ms or more on the clock since the interface left the
    connecting state, every earlier test having found it connected.  Before
    that the interface reported the connecting state at every test but the
    last, and the watchdog was fed for 5 s at each one-second pause. *)
Theorem connect_returns_down_or_stable (w : wifi_script) (st : Client) :
  (_connect w st).1.1 = Returned tt ->
  (exists up now,
     ws_poll w !! (_connect w st).2.2 = Some (up, now) /\
     (up = false \/ 2 * _to st <= ticks_diff now (ws_t w))) /\
  (forall k up now, (k < (_connect w st).2.2)%nat -> ws_poll w !! k = Some (up, now) ->
                    up = true /\ ticks_diff now (ws_t w) < 2 * _to st) /\
  ws_status w !! (_connect w st).2.1 = Some false /\
  (forall k, (k < (_connect w st).2.1)%nat -> ws_status w !! k = Some true) /\
  wdt (_connect w st).1.2
  = wdt st ++ replicate ((_connect w st).2.1 + (_connect w st).2.2) 5.
Proof.
  unfold _connect.
  pose proof (connect_wait_spec (ws_status w) st) as Hw.
  destruct (connect_wait (ws_status w) st) as [[o1 st1] n1]. cbn [fst snd] in Hw.
  destruct o1 as [[]|e|]; [|discriminate|discriminate].
  destruct (Hw eq_refl) as (Hw1 & Hw2 & Hw3 & Hw4). clear Hw.
  pose proof (connect_stable_spec (_to st1) (ws_t w) (ws_poll w) st1) as Hs.
  destruct (connect_stable (_to st1) (ws_t w) (ws_poll w) st1) as [[o2 st2] n2].
  cbn [fst snd] in *. intros Ho. destruct (Hs Ho) as (Hs1 & Hs2 & Hs3).
  rewrite Hw4 in Hs1, Hs2.
  split; [exact Hs1|]. split; [exact Hs2|]. split; [exact Hw1|]. split; [exact Hw2|].
  rewrite Hs3, Hw3, <- app_assoc, <- replicate_add. reflexivity.
Qed.

Lemma connect_returns_down_or_stable_witness :
  let w := {| ws_status := [true; true; false]; ws_t := 2000;
              ws_poll := [(true, 2000); (true, 3000); (true, 4000)] |} in
  let st := new_client 1000 None in
  (_connect w st).2 = (2%nat, 2%nat) /\
  (exists up now,
     ws_poll w !! (_connect w st).2.2 = Some (up, now) /\
     (up = false \/ 2 * _to st <= ticks_diff now (ws_t w))) /\
  (forall k up now, (k < (_connect w st).2.2)%nat -> ws_poll w !! k = Some (up, now) ->
                    up = true /\ ticks_diff now (ws_t w) < 2 * _to st) /\
  ws_status w !! (_connect w st).2.1 = Some false /\
  (forall k, (k < (_connect w st).2.1)%nat -> ws_status w !! k = Some true) /\
  wdt (_connect w st).1.2
  = wdt st ++ replicate ((_connect w st).2.1 + (_connect w st).2.2) 5.
Proof.
  intros w st. split; [reflexivity|].
  apply (connect_returns_down_or_stable w st). reflexivity.
Defined.

(** ** The write lock *)

Lemma run_send_inv line inp d ns start st pre :
  line = pre ++ d -> ns = length pre ->
  match (run_send line inp d ns start st).2 with
  | Ret => wire (run_send line inp d ns start st).1 = wire st ++ d /\
           _s_lock (run_send line inp d ns start st).1 = false
  | Exc _ => True
  | At p' =>
      exists sent d',
        p' = InSend d' (ns + length sent) start /\ d = sent ++ d' /\
        wire (run_send line inp d ns start st).1 = wire st ++ sent /\
        _s_lock (run_send line inp d ns start st).1 = _s_lock st
  end.
Proof.
  intros Hline Hns. unfold run_send.
  assert (Hlen : (ns + length d = length line)%nat).
  { rewrite Hline, Hns, length_app. reflexivity. }
  pose proof (send_loop_spec (_to st) start (length line) (si_script inp) d ns Hlen)
    as (_ & _ & Hret & _).
  pose proof (send_loop_rest (_to st) start (length line) (si_script inp) d ns) as Hblk.
  cbv zeta in Hret.
  destruct (s_out (_send_loop (_to st) start d ns (length line) (si_script inp))) as [[]|e|].
  - cbn [fst snd]. destruct (proj1 Hret eq_refl) as [-> _]. split; reflexivity.
  - exact I.
  - cbn [fst snd]. destruct (Hblk eq_refl) as [H1 H2].
    eexists _, _. split; [rewrite H2; reflexivity|]. split; [exact H1|]. split; reflexivity.
Qed.

Lemma senders_lines_insert (tasks : list sender) i line n n' :
  tasks !! i = Some (line, n) -> (<[ i := (line, n') ]> tasks).*1 = tasks.*1.
Proof.
  intros H. rewrite list_fmap_insert. apply list_insert_id.
  rewrite list_lookup_fmap. unfold sender in *. rewrite H. reflexivity.
Qed.

Lemma senders_ok_intro w0 lines st (tasks : list sender) done cur :
  tasks.*1 = lines ->
  wire st = w0 ++ concat done ++ cur ->
  Forall (fun l => l ∈ lines) done ->
  (if _s_lock st then
     exists i line d ns start,
       tasks !! i = Some (line, At (InSend d ns start)) /\
       line = cur ++ d /\ ns = length cur /\
       forall j x, j <> i -> tasks !! j = Some x -> in_send x = false
   else cur = [] /\ forall j x, tasks !! j = Some x -> in_send x = false) ->
  senders_ok w0 lines (st, tasks).
Proof. intros H1 H2 H3 H4. split; [exact H1|]. exists done, cur. tauto. Qed.

Lemma senders_step_ok w0 lines i inp s :
  senders_ok w0 lines s ->
  senders_ok w0 lines (senders_step i inp s) \/
  exists j x, (senders_step i inp s).2 !! j = Some x /\ send_failed x = true.
Proof.
  intros Hs. pose proof Hs as (Hlines & done & cur & Hwire & Hdone & Hlock).
  destruct s as [st tasks]. cbn [fst snd] in *.
  unfold senders_step. cbn [fst snd]. unfold sender in *.
  destruct (tasks !! i) as [[line [p| |e]]|] eqn:Ei; try (left; exact Hs).
  clear Hs.
  assert (Hline : line ∈ lines).
  { rewrite <- Hlines. apply list_elem_of_fmap. exists (line, At p). split; [reflexivity|].
    eapply list_elem_of_lookup_2. exact Ei. }
  assert (Hi : (i < length tasks)%nat) by (eapply lookup_lt_Some; exact Ei).
  assert (Hins : forall n', (<[ i := (line, n') ]> tasks).*1 = lines).
  { intros n'. rewrite (senders_lines_insert _ _ _ _ _ Ei). exact Hlines. }
  destruct p as [|d ns start].
  - (* waiting for the lock *)
    cbn [locked_send].
    destruct (_s_lock st) eqn:El.
    + left. cbn [fst snd]. rewrite list_insert_id by exact Ei.
      apply (senders_ok_intro _ _ _ _ done cur); try assumption. rewrite El. exact Hlock.
    + destruct Hlock as [-> Hnone]. rewrite app_nil_r in Hwire.
      pose proof (run_send_inv line inp line 0%nat (si_start inp) (set_s_lock true st) []
                    eq_refl eq_refl) as Hrun.
      destruct (run_send line inp line 0 (si_start inp) (set_s_lock true st)) as [st' n] eqn:Er.
      cbn [fst snd] in *.
      destruct n as [p'| |e].
      * destruct Hrun as (sent & d' & -> & Hd & Hw' & Hl'). left.
        cbn [wire _s_lock set_s_lock] in Hw', Hl'.
        apply (senders_ok_intro _ _ _ _ done sent); [apply Hins| |exact Hdone|].
        -- rewrite Hw', Hwire, <- app_assoc. reflexivity.
        -- rewrite Hl'. exists i, line, d', (length sent), (si_start inp).
           split; [rewrite list_lookup_insert_eq by exact Hi; reflexivity|].
           split; [exact Hd|]. split; [reflexivity|].
           intros j x Hj Hx. rewrite list_lookup_insert_ne in Hx by congruence.
           eapply Hnone. exact Hx.
      * destruct Hrun as [Hw' Hl']. left.
        cbn [wire set_s_lock] in Hw'.
        apply (senders_ok_intro _ _ _ _ (done ++ [line]) []); [apply Hins| | |].
        -- rewrite Hw', Hwire, concat_app. cbn [concat].
           rewrite !app_nil_r, <- app_assoc. reflexivity.
        -- apply Forall_app. split; [exact Hdone|]. repeat constructor. exact Hline.
        -- rewrite Hl'. split; [reflexivity|].
           intros j x Hx. destruct (decide (j = i)) as [->|Hj].
           ++ rewrite list_lookup_insert_eq in Hx by exact Hi. injection Hx as <-. reflexivity.
           ++ rewrite list_lookup_insert_ne in Hx by congruence. eapply Hnone. exact Hx.
      * right. exists i, (line, Exc e). cbn [fst snd].
        split; [rewrite list_lookup_insert_eq by exact Hi; reflexivity|reflexivity].
  - (* inside [_send] *)
    cbn [locked_send].
    destruct (_s_lock st) eqn:El.
    2:{ destruct Hlock as [_ Hnone]. specialize (Hnone _ _ Ei). discriminate. }
    destruct Hlock as (i0 & line0 & d0 & ns0 & start0 & E0 & Hl0 & Hn0 & Hothers).
    assert (i = i0).
    { destruct (decide (i = i0)) as [|Hne]; [assumption|].
      specialize (Hothers i _ Hne Ei). discriminate. }
    subst i0. pose proof (eq_trans (eq_sym Ei) E0) as E1. injection E1 as <- <- <- <-.
    pose proof (run_send_inv line inp d ns start st cur Hl0 Hn0) as Hrun.
    destruct (run_send line inp d ns start st) as [st' n] eqn:Er.
    cbn [fst snd] in *.
    destruct n as [p'| |e].
    + destruct Hrun as (sent & d' & -> & Hd & Hw' & Hl'). left.
      apply (senders_ok_intro _ _ _ _ done (cur ++ sent)); [apply Hins| |exact Hdone|].
      * rewrite Hw', Hwire, <- !app_assoc. reflexivity.
      * rewrite Hl', El. exists i, line, d', (ns + length sent)%nat, start.
        split; [rewrite list_lookup_insert_eq by exact Hi; reflexivity|].
        split; [rewrite Hl0, Hd, <- app_assoc; reflexivity|].
        split; [rewrite Hn0, length_app; reflexivity|].
        intros j x Hj Hx. rewrite list_lookup_insert_ne in Hx by congruence.
        eapply Hothers; [exact Hj|exact Hx].
    + destruct Hrun as [Hw' Hl']. left.
      apply (senders_ok_intro _ _ _ _ (done ++ [line]) []); [apply Hins| | |].
      * rewrite Hw', Hwire, concat_app. cbn [concat].
        rewrite !app_nil_r, Hl0, <- !app_assoc. reflexivity.
      * apply Forall_app. split; [exact Hdone|]. repeat constructor. exact Hline.
      * rewrite Hl'. split; [reflexivity|].
        intros j x Hx. destruct (decide (j = i)) as [->|Hj].
        -- rewrite list_lookup_insert_eq in Hx by exact Hi. injection Hx as <-. reflexivity.
        -- rewrite list_lookup_insert_ne in Hx by congruence.
           eapply Hothers; [exact Hj|exact Hx].
    + right. exists i, (line, Exc e). cbn [fst snd].
      split; [rewrite list_lookup_insert_eq by exact Hi; reflexivity|reflexivity].
Qed.

Lemma senders_step_failed i inp s :
  (exists j x, s.2 !! j = Some x /\ send_failed x = true) ->
  exists j x, (senders_step i inp s).2 !! j = Some x /\ send_failed x = true.
Proof.
  intros (j & x & Hj & Hx). unfold senders_step.
  destruct (s.2 !! i) as [[line [p| |e]]|] eqn:Ei; try (exists j, x; tauto).
  destruct (locked_send line inp s.1 p) as [[st' n] acts]. cbn [fst snd].
  exists j, x. split; [|exact Hx].
  rewrite list_lookup_insert_ne; [exact Hj|].
  intros ->. pose proof (eq_trans (eq_sym Ei) Hj) as E. injection E as <-. discriminate Hx.
Qed.

Lemma senders_run_ok w0 lines sched :
  forall s,
  senders_ok w0 lines s ->
  senders_ok w0 lines (senders_run sched s) \/
  exists j x, (senders_run sched s).2 !! j = Some x /\ send_failed x = true.
Proof.
  induction sched as [|[i inp] sched IH]; intros s Hs; [left; exact Hs|].
  cbn [senders_run].
  destruct (senders_step_ok w0 lines i inp s Hs) as [Hok|Hfail]; [apply IH; exact Hok|].
  right. clear Hs IH. revert Hfail. generalize (senders_step i inp s). clear s.
  induction sched as [|[i' inp'] sched IH]; intros s Hfail; [exact Hfail|].
  cbn [senders_run]. apply IH. apply senders_step_failed. exact Hfail.
Qed.

(** X17. Lines never interleave on the wire: however the scheduler resumes
    any number of senders that each run
    [async with self._s_lock: await self._send(line)] for a line of ASCII
    text (or the keepalive's newline), starting with the lock free, then as long as no send has failed the wire has grown by whole
    lines of senders, one after the other, followed, when the lock is held,
    by the part sent so far of one more of their lines.  A sender interrupted
    in a partial write keeps the others out until its line is complete. *)
Theorem lines_never_interleave
    (st : Client) (lines : list bytes) (sched : list (nat * send_input)) :
  Forall (fun l => is_ascii l = true) lines ->
  _s_lock st = false ->
  Forall (fun x => send_failed x = false)
         (senders_run sched (st, (fun l => (l, At AtLock)) <$> lines)).2 ->
  exists done cur,
    wire (senders_run sched (st, (fun l => (l, At AtLock)) <$> lines)).1
    = wire st ++ concat done ++ cur /\
    Forall (fun l => l ∈ lines) done /\
    if _s_lock (senders_run sched (st, (fun l => (l, At AtLock)) <$> lines)).1
    then exists line rest, line ∈ lines /\ line = cur ++ rest
    else cur = [].
Proof.
  intros _ Hfree Hnofail.
  assert (H0 : senders_ok (wire st) lines (st, (fun l => (l, At AtLock)) <$> lines)).
  { apply (senders_ok_intro _ _ _ _ [] []).
    - rewrite <- list_fmap_compose. apply list_fmap_id.
    - rewrite !app_nil_r. reflexivity.
    - constructor.
    - rewrite Hfree. split; [reflexivity|].
      intros j x Hx. rewrite list_lookup_fmap in Hx.
      destruct (lines !! j); [injection Hx as <-; reflexivity|discriminate]. }
  destruct (senders_run_ok (wire st) lines sched _ H0) as [Hok|(j & x & Hj & Hx)].
  - destruct Hok as (Hlines & done & cur & Hw & Hdone & Hlock).
    exists done, cur. split; [exact Hw|]. split; [exact Hdone|].
    revert Hlock.
    destruct (_s_lock (senders_run sched (st, (fun l => (l, At AtLock)) <$> lines)).1);
      intros Hlock; [|tauto].
    destruct Hlock as (i & line & d & ns & start & Hi & Hl & _).
    exists line, d. split; [|exact Hl].
    rewrite <- Hlines. apply list_elem_of_fmap. eexists. split; [|eapply list_elem_of_lookup_2; exact Hi].
    reflexivity.
  - exfalso. rewrite Forall_forall in Hnofail.
    rewrite (Hnofail x) in Hx; [discriminate|]. eapply list_elem_of_lookup_2. exact Hj.
Qed.

Lemma lines_never_interleave_witness :
  let st := new_client 4000 None in
  let lines := [B "01hi" ++ [nl]; B "05" ++ [nl]; [nl]] in
  let some c := {| si_start := 0; si_script := [(Room c, 1)] |} in
  let sched := [(0%nat, some 2%nat); (1%nat, some 9%nat); (2%nat, some 9%nat);
                (0%nat, some 9%nat); (2%nat, some 9%nat); (1%nat, some 1%nat)] in
  wire (senders_run sched (st, (fun l => (l, At AtLock)) <$> lines)).1
  = (B "01hi" ++ [nl]) ++ [nl] ++ B "0" /\
  exists done cur,
    wire (senders_run sched (st, (fun l => (l, At AtLock)) <$> lines)).1
    = wire st ++ concat done ++ cur /\
    Forall (fun l => l ∈ lines) done /\
    if _s_lock (senders_run sched (st, (fun l => (l, At AtLock)) <$> lines)).1
    then exists line rest, line ∈ lines /\ line = cur ++ rest
    else cur = [].
Proof.
  intros st lines some sched. split; [reflexivity|].
  apply (lines_never_interleave st lines sched).
  - repeat constructor.
  - reflexivity.
  - vm_compute. repeat constructor.
Defined.

(** ** Failures and outages *)

Lemma try_connect_raises cfg a st e :
  (try_connect cfg a st).1.1 = Raised e -> exists errno, e = OSError errno.
Proof.
  unfold try_connect.
  destruct (at_resolve a); [intros [= <-]; eauto|].
  destruct (at_connect a); [intros [= <-]; eauto|].
  cbn [fst snd]. unfold _send_str. apply send_str_loop_raises.
Qed.

Lemma run_pass_raises cfg init a st e :
  (run_pass cfg init a st).1.1 = Raised e ->
  init = true /\ try_fails cfg a st = true /\ bad_server cfg = inl e.
Proof.
  unfold run_pass, try_fails, teardown.
  pose proof (try_connect_raises cfg a (set_evfail (ev_clear (_evfail st)) st)) as Hr.
  destruct (try_connect cfg a (set_evfail (ev_clear (_evfail st)) st)) as [[o st1] acts1].
  cbn [fst snd] in *.
  destruct o as [[]|e'|]; cbn [fst snd].
  - destruct (at_fail a); discriminate.
  - destruct (Hr e' eq_refl) as [errno ->].
    destruct init; [|discriminate].
    destruct (bad_server cfg); cbn [fst snd]; [|discriminate].
    intros [= ->]. auto.
  - discriminate.
Qed.

Lemma run_loop_goes_on cfg attempts :
  forall st, (_run_loop cfg false st attempts).1.1 = Blocked.
Proof.
  induction attempts as [|a attempts IH]; intros st; [reflexivity|].
  cbn [_run_loop].
  pose proof (run_pass_raises cfg false a st) as Hr.
  destruct (run_pass cfg false a st) as [[o st1] acts1]. cbn [fst snd] in Hr.
  destruct o as [[]|e|].
  - specialize (IH st1). destruct (_run_loop cfg false st1 attempts) as [[o2 st2] acts2].
    exact IH.
  - destruct (Hr e eq_refl) as [? _]. discriminate.
  - reflexivity.
Qed.

(** X18. After its first pass the supervisor never gives up: from the second
    pass on, whatever fails (name resolution, the connection, the send of the
    identity line, the link), the loop goes on to the next attempt.  The only
    exceptions that end [_run] are the one [bad_wifi] raises when none of the
    first four polls finds the interface connected, and the one [bad_server]
    raises when the first pass fails to reach the server. *)
Theorem supervisor_gives_up_only_at_start (cfg : config) :
  (forall st attempts, (_run_loop cfg false st attempts).1.1 = Blocked) /\
  (forall init a st e,
     (run_pass cfg init a st).1.1 = Raised e ->
     init = true /\ try_fails cfg a st = true /\ bad_server cfg = inl e) /\
  (forall wifi st attempts e,
     (_run cfg wifi st attempts).1.1 = Raised e ->
     (existsb id (take 4 wifi) = false /\ bad_wifi cfg = inl e) \/
     (exists a rest, attempts = a :: rest /\ try_fails cfg a st = true /\
                     bad_server cfg = inl e)).
Proof.
  split; [intros st attempts; apply run_loop_goes_on|].
  split; [apply run_pass_raises|].
  assert (Hloop : forall st attempts e,
            (_run_loop cfg true st attempts).1.1 = Raised e ->
            exists a rest, attempts = a :: rest /\ try_fails cfg a st = true /\
                           bad_server cfg = inl e).
  { intros st [|a rest] e; [discriminate|]. cbn [_run_loop].
    pose proof (run_pass_raises cfg true a st) as Hr.
    destruct (run_pass cfg true a st) as [[o st1] acts1]. cbn [fst snd] in Hr.
    destruct o as [[]|e'|].
    - pose proof (run_loop_goes_on cfg rest st1) as Hgo.
      destruct (_run_loop cfg false st1 rest) as [[o2 st2] acts2]. cbn [fst snd] in *.
      rewrite Hgo. discriminate.
    - cbn [fst snd]. intros [= ->]. destruct (Hr e eq_refl) as (_ & H2 & H3). eauto.
    - discriminate. }
  intros wifi st attempts e. unfold _run.
  destruct (existsb id (take 4 wifi)).
  - intros H. right. eapply Hloop. exact H.
  - destruct (bad_wifi cfg) as [e'|[]].
    + cbn [fst snd]. intros [= ->]. left. auto.
    + intros H. right. apply (Hloop st attempts e).
      destruct (_run_loop cfg true st attempts) as [[o st'] acts]. exact H.
Qed.

Lemma at_pc_same t : at_pc (w_pc t) t = t.
Proof. destruct t. reflexivity. Qed.

Lemma wrun_waits turns :
  forall st t,
  w_pc t = InWrite WaitUp ->
  Forall (fun s => _ok s = false) (wseen turns st t) ->
  wrun turns st t = (wenvs turns st, t, (fun s => Sleep (_tim_short s)) <$> wseen turns st t).
Proof.
  induction turns as [|u turns IH]; intros st t Hpc Hdown; [reflexivity|].
  rewrite wseen_cons in Hdown |- *. apply Forall_cons in Hdown as [Hd Hdown].
  rewrite wrun_cons. cbv zeta.
  assert (Hstep : wstep (w_inp u) (w_env u st) t
                  = (w_env u st, t, [Sleep (_tim_short (w_env u st))])).
  { unfold wstep. rewrite Hpc. cbn [_write]. rewrite Hd. rewrite <- Hpc at 1.
    rewrite at_pc_same. reflexivity. }
  rewrite Hstep in Hdown |- *. cbn [fst snd] in *.
  rewrite (IH _ _ Hpc Hdown). reflexivity.
Qed.

(** X19. During an outage [write] only waits: as long as the link is not
    marked healthy at its transitions, a call of [write] hands nothing to the
    raw send and leaves the client as it is; it pauses for [_to // 10] ms
    each time and stays at the head of [_write], its identifier registered. *)
Theorem write_waits_during_outage
    (buf : bytes) (qos : bool) (st0 : Client) (turns : list wturn) :
  Forall (fun s => _ok s = false) (wseen turns (write buf qos st0).1 (write buf qos st0).2) ->
  wrun turns (write buf qos st0).1 (write buf qos st0).2
  = (wenvs turns (write buf qos st0).1, (write buf qos st0).2,
     (fun s => Sleep (_to s / 10))
       <$> wseen turns (write buf qos st0).1 (write buf qos st0).2) /\
  raw_sends (wrun turns (write buf qos st0).1 (write buf qos st0).2).2 = [] /\
  w_pc (write buf qos st0).2 = InWrite WaitUp.
Proof.
  intros Hdown.
  pose proof (write_registers buf qos st0) as (_ & _ & Hpc & _).
  rewrite (wrun_waits turns _ _ Hpc Hdown).
  split; [reflexivity|]. split; [|exact Hpc].
  cbn [snd]. generalize (wseen turns (write buf qos st0).1 (write buf qos st0).2).
  intros l. induction l as [|s l IH]; [reflexivity|exact IH].
Qed.

Lemma write_waits_during_outage_witness :
  let st0 := new_client 4000 None in
  let turn := {| w_env := fun s => s;
                 w_inp := {| si_start := 0; si_script := [(Room 100, 1)] |} |} in
  let turns := [turn; turn; turn] in
  (wrun turns (write (B "hi") true st0).1 (write (B "hi") true st0).2).2
  = [Sleep 400; Sleep 400; Sleep 400] /\
  wrun turns (write (B "hi") true st0).1 (write (B "hi") true st0).2
  = (wenvs turns (write (B "hi") true st0).1, (write (B "hi") true st0).2,
     (fun s => Sleep (_to s / 10))
       <$> wseen turns (write (B "hi") true st0).1 (write (B "hi") true st0).2) /\
  raw_sends (wrun turns (write (B "hi") true st0).1 (write (B "hi") true st0).2).2 = [] /\
  w_pc (write (B "hi") true st0).2 = InWrite WaitUp.
Proof.
  intros st0 turn turns. split; [reflexivity|].
  apply (write_waits_during_outage (B "hi") true st0 turns).
  repeat constructor.
Defined.

Lemma run_send_lock line inp d ns start st :
  match (run_send line inp d ns start st).2 with
  | At _ => _s_lock (run_send line inp d ns start st).1 = _s_lock st
  | _ => _s_lock (run_send line inp d ns start st).1 = false
  end.
Proof.
  unfold run_send.
  destruct (s_out (_send_loop (_to st) start d ns (length line) (si_script inp)));
    reflexivity.
Qed.

(** X20. A failed ACK send is silent and frees the lock: the ACK sender
    never touches the link-failure event or the health flag, the only
    exception that ends it is an [OSError], and however it ends, by returning
    or with that error, the write lock is free afterwards. *)
Theorem ack_sender_fails_silently
    (mid : Z) (inp : send_input) (st : Client) (p : lock_pc) :
  _evfail (_sendack mid inp st p).1.1 = _evfail st /\
  _ok (_sendack mid inp st p).1.1 = _ok st /\
  (forall e, (_sendack mid inp st p).1.2 = Exc e ->
     (exists errno, e = OSError errno) /\ _s_lock (_sendack mid inp st p).1.1 = false) /\
  ((_sendack mid inp st p).1.2 = Ret -> _s_lock (_sendack mid inp st p).1.1 = false).
Proof.
  unfold _sendack.
  pose proof (locked_send_keeps (format_02x mid ++ [nl]) inp st p) as (_ & Hf & Hok & _).
  pose proof (locked_send_cases (format_02x mid ++ [nl]) inp st p) as (_ & _ & Hexc & _).
  cbv zeta in Hexc.
  split; [exact Hf|]. split; [exact Hok|].
  destruct p as [|d0 ns0 start0]; cbn [locked_send] in *.
  - destruct (_s_lock st) eqn:El; cbn [fst snd] in *.
    + split; discriminate.
    + pose proof (run_send_lock (format_02x mid ++ [nl]) inp (format_02x mid ++ [nl]) 0%nat
                    (si_start inp) (set_s_lock true st)) as Hl.
      destruct (run_send (format_02x mid ++ [nl]) inp (format_02x mid ++ [nl]) 0
                  (si_start inp) (set_s_lock true st)) as [st' n].
      cbn [fst snd] in *. destruct n as [p'| |e].
      * split; discriminate.
      * split; [discriminate|]. intros _; exact Hl.
      * split; [|discriminate].
        intros e' [= <-]. split; [apply Hexc; reflexivity|exact Hl].
  - pose proof (run_send_lock (format_02x mid ++ [nl]) inp d0 ns0 start0 st) as Hl.
    destruct (run_send (format_02x mid ++ [nl]) inp d0 ns0 start0 st) as [st' n].
    cbn [fst snd] in *. destruct n as [p'| |e].
    + split; discriminate.
    + split; [discriminate|]. intros _; exact Hl.
    + split; [|discriminate].
      intros e' [= <-]. split; [apply Hexc; reflexivity|exact Hl].
Qed.

Lemma endswith_nl_elem d : endswith_nl d = true -> nl ∈ d.
Proof.
  intros H. apply endswith_nl_true in H as [b ->].
  apply elem_of_app. right. apply list_elem_of_here.
Qed.

Lemma readline_loop_used script :
  forall st l, exists used, script = used ++ r_rest (_readline_loop st l script).
Proof.
  induction script as [|s script IH]; intros st l.
  - exists []. simpl. destruct (rl_head (rl_start l) st l) as [st' [line|l']]; reflexivity.
  - cbn [_readline_loop].
    destruct (rl_head (rs_top s) st l) as [st' [line|l']]; [exists []; reflexivity|].
    destruct (rl_tail (_to st') s l') as [e|[l'' slept]]; [exists [s]; reflexivity|].
    destruct (IH st' l'') as [used Hused].
    exists (s :: used). unfold read_slept. cbn [r_rest]. simpl. rewrite <- Hused. reflexivity.
Qed.

Lemma readline_loop_marks script :
  forall st l,
  exists used,
    script = used ++ r_rest (_readline_loop st l script) /\
    (_ok st = false -> _ok (r_st (_readline_loop st l script)) = true ->
     endswith_nl (rl_line l) = true \/ nl ∈ joined used).
Proof.
  induction script as [|s script IH]; intros st l.
  - destruct (readline_loop_used [] st l) as [used Hused].
    exists used. split; [exact Hused|]. intros Hdown Hup.
    destruct (endswith_nl (rl_line l)) eqn:E; [left; reflexivity|].
    simpl in Hup. rewrite rl_head_incomplete in Hup by exact E. simpl in Hup. congruence.
  - destruct (endswith_nl (rl_line l)) eqn:E.
    + destruct (readline_loop_used (s :: script) st l) as [used Hused].
      exists used. split; [exact Hused|]. intros _ _. left. reflexivity.
    + cbn [_readline_loop]. rewrite rl_head_incomplete by exact E.
      destruct (rl_tail (_to st) s l) as [e|[l' slept]] eqn:Et.
      * exists [s]. split; [reflexivity|]. simpl. congruence.
      * apply rl_tail_goes_on in Et as [_ Hl].
        destruct (IH st l') as (used & Hused & Hmark).
        exists (s :: used). unfold read_slept. cbn [r_rest r_st].
        split; [simpl; rewrite <- Hused; reflexivity|].
        intros Hdown Hup. right.
        change (joined (s :: used)) with (default [] (rs_read s) ++ joined used).
        apply elem_of_app.
        destruct (Hmark Hdown Hup) as [He|Hin]; [left|right; exact Hin].
        destruct (rs_read s) as [d|]; destruct Hl as [Hl _]; rewrite Hl in He.
        -- destruct d as [|c d]; [rewrite app_nil_r in He; congruence|].
           rewrite endswith_nl_app in He by discriminate. apply endswith_nl_elem. exact He.
        -- congruence.
Qed.

Lemma write_keeps_ok line inp st pc : _ok (_write line inp st pc).1.1 = _ok st.
Proof.
  destruct pc as [|p|]; cbn [_write].
  - destruct (_ok st) eqn:E; exact E.
  - pose proof (locked_send_keeps line inp st p) as (_ & _ & Hok & _).
    destruct (locked_send line inp st p) as [[st' [p'| |[errno|]]] acts]; exact Hok.
  - destruct (_ok st) eqn:E; exact E.
Qed.

Lemma wstep_keeps_ok inp st t : _ok (wstep inp st t).1.1 = _ok st.
Proof.
  unfold wstep. destruct (w_pc t) as [pc|pc| |e]; try reflexivity.
  - pose proof (write_keeps_ok (w_line t) inp st pc) as H.
    destruct (_write (w_line t) inp st pc) as [[st' [p'| |e]] acts]; exact H.
  - destruct pc as [|i|pc]; cbn [_do_qos].
    + destruct (_ok st) eqn:E; exact E.
    + destruct (negb (sb_contains (w_mid t) (_acks_pend st))); [reflexivity|].
      destruct (S i <? nms100)%nat; [reflexivity|]. destruct (_ok st) eqn:E; exact E.
    + pose proof (write_keeps_ok (w_line t) inp st pc) as H.
      destruct (_write (w_line t) inp st pc) as [[st' [p'| |e]] acts]; exact H.
Qed.

(** X21. The link counts as up only after a line has come in: awaiting the
    client ends exactly when [status()] is true; of the coroutines, only
    [_readline] ever turns the health flag on, and only when what it has read
    contains a newline, so a keepalive or a complete line has arrived; the
    writers, the ACK and keepalive senders and the framed reader leave the
    flag alone, and a pass of the supervisor can only turn it off. *)
Theorem link_up_only_after_a_line :
  (forall st, (__iter__ st).1 = Ret <-> status st = true) /\
  (forall st script,
     status st = false -> status (r_st (_readline st script)) = true ->
     exists used, script = used ++ r_rest (_readline st script) /\ nl ∈ joined used) /\
  (forall inp st t, status (wstep inp st t).1.1 = status st) /\
  (forall mid inp st p, status (_sendack mid inp st p).1.1 = status st) /\
  (forall inp st pc, status (_keepalive inp st pc).1.1 = status st) /\
  (forall c line st st', reader_frame c line st = inr st' -> status st' = status st) /\
  (forall cfg init a st,
     status (run_pass cfg init a st).1.2 = true -> status st = true).
Proof.
  unfold status.
  split; [|split; [|split; [|split; [|split; [|split]]]]].
  - intros st. unfold __iter__. destruct (_ok st); simpl; split; congruence.
  - intros st script Hdown Hup. unfold _readline in Hup |- *.
    destruct (readline_loop_marks script st
                {| rl_line := []; rl_start := match script with s :: _ => rs_top s | [] => 0 end |})
      as (used & Hused & Hmark).
    exists used. split; [exact Hused|].
    destruct (Hmark Hdown Hup) as [H|H]; [|exact H].
    simpl in H. rewrite endswith_nl_nil in H. discriminate.
  - apply wstep_keeps_ok.
  - intros mid inp st p. unfold _sendack.
    pose proof (locked_send_keeps (format_02x mid ++ [nl]) inp st p) as (_ & _ & H & _). exact H.
  - intros inp st pc.
    pose proof (keepalive_cases inp st pc) as (_ & _ & _ & _ & H & _). exact H.
  - intros c line st st' H. apply reader_frame_keeps in H as (_ & _ & H & _). exact H.
  - intros cfg init a st. unfold run_pass, teardown.
    assert (Htry : _ok (try_connect cfg a (set_evfail (ev_clear (_evfail st)) st)).1.2 = _ok st).
    { unfold try_connect. destruct (at_resolve a); [reflexivity|].
      destruct (at_connect a); reflexivity. }
    destruct (try_connect cfg a (set_evfail (ev_clear (_evfail st)) st)) as [[o st1] acts1].
    cbn [fst snd] in Htry. rewrite <- Htry.
    destruct o as [[]|[errno|]|]; cbn [fst snd].
    + destruct (at_fail a); cbn [fst snd]; [|intros H; exact H].
      feeds_kept. cbn [_ok set_ok]. discriminate.
    + destruct init; [destruct (bad_server cfg)|]; cbn [fst snd]; feeds_kept;
        intros H; exact H.
    + feeds_kept. intros H; exact H.
    + intros H; exact H.
Qed.
